(** * Load-Balancer: a shallow embedding of the distribution engine and
      its interactive commands, the single-file simulator, the server
      health simulator and the monitor.

    Conventions of the embedding.

    - A C++ [int] is a [Z].  Signed overflow is undefined behaviour in C++,
      so [int] additions and subtractions are the ones of [Z]; where the
      source mixes [int] with [size_t] (the Round Robin split) the implicit
      conversions are written out with [to_size_t] and [to_int].  The sum
      of the monitor, which [std::accumulate] keeps in an [int] while it
      adds loads of any size, is written with the 32-bit wrap-around of the
      compiled code.
    - A C++ [double] is a rational number [Q]: comparisons and the four
      operations are exact, rounding is not modelled.  The ratio and
      percentage computations, whose guards against a zero divisor are
      themselves of interest, use the checked division [fdiv]; its result
      type [double] has one extra value for a non-finite result.
    - [std::vector<std::shared_ptr<Server>>] is a [list Server]; a
      [shared_ptr] that is held across a mutation (the best server of Least
      Loaded, the result of [getServer]) is the index of the element.
    - Console output is not modelled, except that the message a
      distribution function prints is returned as its [report].  Values
      that the source reads from a clock or draws from a random generator
      are parameters of the functions.
    - The [std::map] of the monitor's report is a [gmap]; the log and
      report files are not modelled. *)

From Stdlib Require Import ZArith QArith Qminmax Lia Lqa Bool Ascii String Sorted.
From Stdlib Require PrimFloat.
From stdpp Require Import base option list sorting strings gmap.

Local Open Scope Z_scope.

(** ** Machine integers and doubles *)

Module Cxx.

Definition INT_MAX : Z := 2 ^ 31 - 1.

(** Conversion of a value to [int] (two's complement, 32 bits). *)
Definition to_int (z : Z) : Z := (z + 2 ^ 31) mod 2 ^ 32 - 2 ^ 31.

(** Conversion of an [int] to [size_t] (64 bits, unsigned). *)
Definition to_size_t (z : Z) : Z := z mod 2 ^ 64.

(** [static_cast<int>] of a double: truncation toward zero. *)
Definition static_cast_int (q : Q) : Z := Z.quot (Qnum q) (Z.pos (Qden q)).

(** Strict comparison of doubles. *)
Definition Qltb (a b : Q) : bool := negb (Qle_bool b a).

(** Result of a floating-point expression that may divide by zero. *)
Inductive double : Type :=
| Fin (q : Q)
| NonFinite.

Definition fdiv (a b : Q) : double :=
  if Qeq_bool b 0 then NonFinite else Fin (a / b).

Definition fmap2 (f : Q -> Q -> Q) (a b : double) : double :=
  match a, b with
  | Fin x, Fin y => Fin (f x y)
  | _, _ => NonFinite
  end.

Definition fadd := fmap2 Qplus.
Definition fsub := fmap2 Qminus.
Definition fmul := fmap2 Qmult.

(** [a / b] on doubles that are themselves results. *)
Definition fdivd (a b : double) : double :=
  match a, b with
  | Fin x, Fin y => fdiv x y
  | _, _ => NonFinite
  end.

End Cxx.
Import Cxx.

(** ** The server registry of load_balancer.cpp *)

Record Server : Type := mkServer {
  id : Z;
  capacity : Z;
  currentLoad : Z;
  performanceMultiplier : Q;
  online : bool;
  status : string
}.

(** [Server::Server(int id, int capacity)] *)
Definition newServer (i c : Z) : Server :=
  mkServer i c 0 1 true "HEALTHY".

(** [Server::setCurrentLoad]: a negative load is clamped to zero. *)
Definition setCurrentLoad (s : Server) (load : Z) : Server :=
  mkServer (id s) (capacity s) (if load <? 0 then 0 else load)
           (performanceMultiplier s) (online s) (status s).

(** [Server::setOnline] *)
Definition setOnline (s : Server) (b : bool) : Server :=
  mkServer (id s) (capacity s) (currentLoad s)
           (performanceMultiplier s) b (status s).

(** [Server::setPerformanceMultiplier]: clamped into [0,1]. *)
Definition setPerformanceMultiplier (s : Server) (m : Q) : Server :=
  mkServer (id s) (capacity s) (currentLoad s)
           (if Qltb m 0 then 0%Q else if Qltb 1 m then 1%Q else m)
           (online s) (status s).

(** [Server::getAvailableCapacity] *)
Definition getAvailableCapacity (s : Server) : Z :=
  if online s then capacity s - currentLoad s else 0.

(** [Server::getEffectiveCapacity] *)
Definition getEffectiveCapacity (s : Server) : Q :=
  if online s then (inject_Z (capacity s) * performanceMultiplier s)%Q else 0%Q.

(** [Server::getLoadPercentage] *)
Definition getLoadPercentage (s : Server) : double :=
  if capacity s =? 0 then Fin 0
  else fmul (fdiv (inject_Z (currentLoad s)) (inject_Z (capacity s))) (Fin 100).

(** What a distribution call prints about load it could not place. *)
Inductive report : Type :=
| Distributed                        (* no message *)
| NoServers                          (* "No servers available to distribute load" *)
| NoOnlineServers                    (* "No online servers available" *)
| NoEffectiveCapacity                (* "No effective capacity available" *)
| InsufficientCapacity (n : Z).      (* "Warning: Insufficient capacity. n load units ..." *)

(** The amount a report declares undistributed: the figure of the warning,
    the whole request when the call gave up before assigning anything. *)
Definition undistributed (loadAmount : Z) (r : report) : Z :=
  match r with
  | Distributed => 0
  | InsufficientCapacity n => n
  | NoServers | NoOnlineServers | NoEffectiveCapacity => loadAmount
  end.

(** [LoadBalancer::getTotalLoad] *)
Definition getTotalLoad (servers : list Server) : Z :=
  fold_left (fun total s => total + currentLoad s) servers 0.

(** [LoadBalancer::getTotalCapacity]: online servers only. *)
Definition getTotalCapacity (servers : list Server) : Z :=
  fold_left (fun total s => if online s then total + capacity s else total)
            servers 0.

(** *** Round Robin *)

(** The [while] loop that looks for the first online server. *)
Fixpoint firstOnline (servers : list Server) : nat :=
  match servers with
  | [] => 0%nat
  | s :: rest => if online s then 0%nat else S (firstOnline rest)
  end.

(** One iteration of the [for] loop of [distributeLoadRoundRobin], at
    position [idx]. *)
Definition roundRobinVisit (baseLoadPerServer : Z) (idx : nat)
    (st : list Server * Z) : list Server * Z :=
  let '(servers, remainingLoad) := st in
  match servers !! idx with
  | Some s =>
      if online s then
        let serverLoad :=
          if 0 <? remainingLoad then baseLoadPerServer + 1
          else baseLoadPerServer in
        let remainingLoad' :=
          if 0 <? remainingLoad then remainingLoad - 1 else remainingLoad in
        (<[idx := setCurrentLoad s (currentLoad s + serverLoad)]> servers,
         remainingLoad')
      else st
  | None => st
  end.

(** [LoadBalancer::distributeLoadRoundRobin] *)
Definition distributeLoadRoundRobin (servers : list Server) (loadAmount : Z)
    : list Server * report :=
  match servers with
  | [] => (servers, NoServers)
  | _ =>
      let n := length servers in
      let startIdx := firstOnline servers in
      if (n <=? startIdx)%nat then (servers, NoOnlineServers)
      else
        let baseLoadPerServer :=
          to_int (to_size_t loadAmount / Z.of_nat n) in
        let remainingLoad :=
          to_int (to_size_t loadAmount mod Z.of_nat n) in
        (fst (fold_left
                (fun st i =>
                   roundRobinVisit baseLoadPerServer ((startIdx + i) mod n)%nat st)
                (seq 0 n) (servers, remainingLoad)),
         Distributed)
  end.

(** *** Least Loaded *)

(** The inner [for] loop: the best server so far (as its index) and its
    available capacity; a later server replaces it only when strictly
    better. *)
Fixpoint selectBest (i : nat) (servers : list Server)
    (bestServer : option nat) (bestAvailableCapacity : Z) : option nat * Z :=
  match servers with
  | [] => (bestServer, bestAvailableCapacity)
  | s :: rest =>
      if online s then
        let availableCapacity := getAvailableCapacity s in
        if bestAvailableCapacity <? availableCapacity
        then selectBest (S i) rest (Some i) availableCapacity
        else selectBest (S i) rest bestServer bestAvailableCapacity
      else selectBest (S i) rest bestServer bestAvailableCapacity
  end.

(** [bestServer->setCurrentLoad(bestServer->getCurrentLoad() + loadToAdd)] *)
Definition addLoadAt (i : nat) (loadToAdd : Z) (servers : list Server)
    : list Server :=
  alter (fun s => setCurrentLoad s (currentLoad s + loadToAdd)) i servers.

(** The [while (remainingLoad > 0)] loop.  [None] only when the fuel runs
    out. *)
Fixpoint leastLoadedLoop (fuel : nat) (servers : list Server)
    (remainingLoad : Z) : option (list Server * report) :=
  if remainingLoad <=? 0 then Some (servers, Distributed)
  else
    match fuel with
    | O => None
    | S fuel' =>
        match selectBest 0 servers None (-1) with
        | (Some i, bestAvailableCapacity) =>
            if bestAvailableCapacity <=? 0
            then Some (servers, InsufficientCapacity remainingLoad)
            else
              let loadToAdd := Z.min remainingLoad bestAvailableCapacity in
              leastLoadedLoop fuel' (addLoadAt i loadToAdd servers)
                              (remainingLoad - loadToAdd)
        | (None, _) => Some (servers, InsufficientCapacity remainingLoad)
        end
    end.

(** [LoadBalancer::distributeLoadLeastLoaded].  Every iteration that does
    not leave the loop places at least one unit, so [loadAmount] iterations
    are enough (see [distributeLoadLeastLoaded_total]). *)
Definition distributeLoadLeastLoaded (servers : list Server) (loadAmount : Z)
    : option (list Server * report) :=
  match servers with
  | [] => Some (servers, NoServers)
  | _ => leastLoadedLoop (Z.to_nat loadAmount) servers loadAmount
  end.

(** *** Weighted Optimization *)

(** The first loop: the sum of the effective capacities of the online
    servers. *)
Definition totalEffectiveCapacity (servers : list Server) : Q :=
  fold_left (fun total s =>
               if online s then (total + getEffectiveCapacity s)%Q else total)
            servers 0%Q.

(** The body of the second loop: the proportional share of one server,
    capped at its available capacity.  The divisor is positive: the
    function returns before this loop otherwise.  The quotient and the
    product are the exact ones; the double product is the exact one
    rounded in the last place.  Where the exact product is a whole number
    and the rounded one lies below it, [static_cast<int>] gives one unit
    less than here, and the remainder loop hands that unit out
    afterwards. *)
Definition idealLoad (totalEffective : Q) (loadAmount : Z) (s : Server) : Z :=
  if online s then
    let ratio := (getEffectiveCapacity s / totalEffective)%Q in
    let serverIdealLoad := static_cast_int (ratio * inject_Z loadAmount) in
    let availableCapacity := getAvailableCapacity s in
    if availableCapacity <? serverIdealLoad then availableCapacity
    else serverIdealLoad
  else 0.

(** [distributedLoad]: the sum of the ideal loads. *)
Definition sumLoads (idealLoads : list Z) : Z := fold_left Z.add idealLoads 0.

(** One run of the inner [for] loop that hands out remainder units: the
    loop stops as soon as [remainingLoad] is zero. *)
Fixpoint remainderPass (servers : list Server) (idealLoads : list Z)
    (remainingLoad : Z) (distributed : bool) : list Z * Z * bool :=
  match servers, idealLoads with
  | s :: servers', d :: idealLoads' =>
      if 0 <? remainingLoad then
        if online s && (0 <? getAvailableCapacity s - d) then
          let '(rest, r, b) :=
            remainderPass servers' idealLoads' (remainingLoad - 1) true in
          (d + 1 :: rest, r, b)
        else
          let '(rest, r, b) :=
            remainderPass servers' idealLoads' remainingLoad distributed in
          (d :: rest, r, b)
      else (idealLoads, remainingLoad, distributed)
  | _, _ => (idealLoads, remainingLoad, distributed)
  end.

(** The outer [while (remainingLoad > 0)] loop.  [None] only when the fuel
    runs out. *)
Fixpoint remainderLoop (fuel : nat) (servers : list Server)
    (idealLoads : list Z) (remainingLoad : Z) : option (list Z * Z) :=
  if remainingLoad <=? 0 then Some (idealLoads, remainingLoad)
  else
    match fuel with
    | O => None
    | S fuel' =>
        let '(idealLoads', remainingLoad', distributed) :=
          remainderPass servers idealLoads remainingLoad false in
        if distributed
        then remainderLoop fuel' servers idealLoads' remainingLoad'
        else Some (idealLoads', remainingLoad')
    end.

(** The last loop: only positive ideal loads are applied. *)
Definition applyLoads (servers : list Server) (idealLoads : list Z)
    : list Server :=
  zip_with (fun s d => if 0 <? d then setCurrentLoad s (currentLoad s + d) else s)
           servers idealLoads.

(** [LoadBalancer::distributeLoadWeightedOptimization].  A pass that does
    not end the outer loop places at least one unit, so the initial
    remainder bounds the number of passes. *)
Definition distributeLoadWeightedOptimization (servers : list Server)
    (loadAmount : Z) : option (list Server * report) :=
  match servers with
  | [] => Some (servers, NoServers)
  | _ =>
      let total := totalEffectiveCapacity servers in
      if Qle_bool total 0 then Some (servers, NoEffectiveCapacity)
      else
        let idealLoads := map (idealLoad total loadAmount) servers in
        let remainingLoad := loadAmount - sumLoads idealLoads in
        match remainderLoop (Z.to_nat remainingLoad) servers idealLoads
                            remainingLoad with
        | Some (idealLoads', remainingLoad') =>
            Some (applyLoads servers idealLoads',
                  if 0 <? remainingLoad'
                  then InsufficientCapacity remainingLoad'
                  else Distributed)
        | None => None
        end
  end.

(** *** The balancer *)

Inductive BalancingAlgorithm : Type :=
| ROUND_ROBIN
| LEAST_LOADED
| WEIGHTED_OPTIMIZATION.

Record LoadBalancer : Type := mkLoadBalancer {
  servers : list Server;
  currentAlgorithm : BalancingAlgorithm;
  nextServerId : Z;
  randomLoadAmount : Z
}.

Definition withServers (lb : LoadBalancer) (l : list Server) : LoadBalancer :=
  mkLoadBalancer l (currentAlgorithm lb) (nextServerId lb) (randomLoadAmount lb).

(** The [switch] of [LoadBalancer::addSystemLoad]. *)
Definition distribute (algorithm : BalancingAlgorithm) (l : list Server)
    (loadAmount : Z) : option (list Server * report) :=
  match algorithm with
  | ROUND_ROBIN => Some (distributeLoadRoundRobin l loadAmount)
  | LEAST_LOADED => distributeLoadLeastLoaded l loadAmount
  | WEIGHTED_OPTIMIZATION => distributeLoadWeightedOptimization l loadAmount
  end.

(** [LoadBalancer::addSystemLoad] *)
Definition addSystemLoad (lb : LoadBalancer) (loadAmount : Z)
    : option (LoadBalancer * report) :=
  match distribute (currentAlgorithm lb) (servers lb) loadAmount with
  | Some (l, r) => Some (withServers lb l, r)
  | None => None
  end.

(** [LoadBalancer::addServer] *)
Definition addServer (lb : LoadBalancer) (cap : Z) : LoadBalancer :=
  mkLoadBalancer (servers lb ++ [newServer (nextServerId lb) cap])
                 (currentAlgorithm lb) (nextServerId lb + 1)
                 (randomLoadAmount lb).

(** [std::find_if] on the server id: the first match and its position. *)
Definition findServer (serverId : Z) (l : list Server) : option (nat * Server) :=
  list_find (fun s => id s = serverId) l.

(** [LoadBalancer::getServer] *)
Definition getServer (lb : LoadBalancer) (serverId : Z) : option Server :=
  snd <$> findServer serverId (servers lb).

(** [LoadBalancer::removeServer]: the balancer afterwards and the returned
    flag. *)
Definition removeServer (lb : LoadBalancer) (serverId : Z)
    : option (LoadBalancer * bool) :=
  match findServer serverId (servers lb) with
  | None => Some (lb, false)
  | Some (i, s) =>
      let loadToRedistribute := currentLoad s in
      let lb' := withServers lb (delete i (servers lb)) in
      match servers lb' with
      | [] => Some (lb', true)
      | _ =>
          if 0 <? loadToRedistribute then
            match addSystemLoad lb' loadToRedistribute with
            | Some (lb'', _) => Some (lb'', true)
            | None => None
            end
          else Some (lb', true)
      end
  end.

(** [LoadBalancer::rebalanceLoads] *)
Definition rebalanceLoads (lb : LoadBalancer) : option (LoadBalancer * report) :=
  let totalLoad := getTotalLoad (servers lb) in
  let lb' := withServers lb (map (fun s => setCurrentLoad s 0) (servers lb)) in
  addSystemLoad lb' totalLoad.

(** [LoadBalancer::addLoadToServer] *)
Definition addLoadToServer (lb : LoadBalancer) (serverId : Z) (loadAmount : Z)
    : LoadBalancer :=
  match findServer serverId (servers lb) with
  | None => lb
  | Some (i, s) =>
      if online s then
        let availableCapacity := getAvailableCapacity s in
        let loadAmount' :=
          if availableCapacity <? loadAmount then availableCapacity
          else loadAmount in
        withServers lb
          (<[i := setCurrentLoad s (currentLoad s + loadAmount')]> (servers lb))
      else lb
  end.

(** [LoadBalancer::calculateLoadVariance] *)
Definition calculateLoadVariance (l : list Server) : double :=
  match l with
  | [] => Fin 0
  | _ =>
      let '(totalPercentage, onlineCount) :=
        fold_left (fun '(t, c) s =>
                     if online s then (fadd t (getLoadPercentage s), c + 1)
                     else (t, c))
                  l (Fin 0, 0) in
      if onlineCount =? 0 then Fin 0
      else
        let meanPercentage := fdivd totalPercentage (Fin (inject_Z onlineCount)) in
        let variance :=
          fold_left (fun v s =>
                       if online s then
                         let diff := fsub (getLoadPercentage s) meanPercentage in
                         fadd v (fmul diff diff)
                       else v)
                    l (Fin 0) in
        fdivd variance (Fin (inject_Z onlineCount))
  end.

(** The local [systemLoadPercentage] of [LoadBalancer::visualizeLoads]. *)
Definition systemLoadPercentage (l : list Server) : double :=
  let totalLoad := getTotalLoad l in
  let totalCapacity := getTotalCapacity l in
  if 0 <? totalCapacity
  then fmul (fdiv (inject_Z totalLoad) (inject_Z totalCapacity)) (Fin 100)
  else Fin 0.

(** *** Configuration and the interactive commands *)

(** [LoadBalancer::setBalancingAlgorithm] *)
Definition setBalancingAlgorithm (lb : LoadBalancer)
    (algorithm : BalancingAlgorithm) : LoadBalancer :=
  mkLoadBalancer (servers lb) algorithm (nextServerId lb) (randomLoadAmount lb).

(** [LoadBalancer::setRandomLoadAmount] *)
Definition setRandomLoadAmount (lb : LoadBalancer) (amount : Z) : LoadBalancer :=
  mkLoadBalancer (servers lb) (currentAlgorithm lb) (nextServerId lb) amount.

(** [LoadBalancer::addRandomLoad] *)
Definition addRandomLoad (lb : LoadBalancer) : option (LoadBalancer * report) :=
  addSystemLoad lb (randomLoadAmount lb).

(** The constructor [LoadBalancer::LoadBalancer()]: Round Robin, a load
    step of 10, and three calls of [addServer()] with its default capacity
    of 100, the first of which hands out id 1. *)
Definition newLoadBalancer : LoadBalancer :=
  Nat.iter 3 (fun lb => addServer lb 100) (mkLoadBalancer [] ROUND_ROBIN 1 10).

(** [static_cast<int>(currentAlgorithm)] *)
Definition algorithmToInt (algorithm : BalancingAlgorithm) : Z :=
  match algorithm with
  | ROUND_ROBIN => 0
  | LEAST_LOADED => 1
  | WEIGHTED_OPTIMIZATION => 2
  end.

(** [static_cast<BalancingAlgorithm>(algo)].  The cast is applied to a
    remainder modulo 3 of a number that is not negative only, so that the
    last case stands for 2. *)
Definition algorithmOfInt (algo : Z) : BalancingAlgorithm :=
  match algo with
  | 0 => ROUND_ROBIN
  | 1 => LEAST_LOADED
  | _ => WEIGHTED_OPTIMIZATION
  end.

(** The loop of command ['d'] that looks for the highest id, starting from
    [highestId = 0]. *)
Definition highestId (l : list Server) : Z :=
  fold_left (fun highestId s => if highestId <? id s then id s else highestId)
            l 0.

(** [LoadBalancer::processCommand]: the balancer afterwards and the
    returned flag ([false] asks the caller to quit). *)
Definition processCommand (lb : LoadBalancer) (command : ascii)
    : option (LoadBalancer * bool) :=
  if Ascii.eqb command "a" then
    match addRandomLoad lb with
    | Some (lb', _) => Some (lb', true)
    | None => None
    end
  else if Ascii.eqb command "s" then Some (addServer lb 100, true)
  else if Ascii.eqb command "d" then
    match servers lb with
    | [] => Some (lb, true)
    | _ =>
        match removeServer lb (highestId (servers lb)) with
        | Some (lb', _) => Some (lb', true)
        | None => None
        end
    end
  else if Ascii.eqb command "r" then
    match rebalanceLoads lb with
    | Some (lb', _) => Some (lb', true)
    | None => None
    end
  else if Ascii.eqb command "m" then
    let algo := algorithmToInt (currentAlgorithm lb) in
    let algo := Z.rem (algo + 1) 3 in
    Some (setBalancingAlgorithm lb (algorithmOfInt algo), true)
  else if Ascii.eqb command "+" then
    Some (setRandomLoadAmount lb (randomLoadAmount lb + 5), true)
  else if Ascii.eqb command "-" then
    if 5 <? randomLoadAmount lb
    then Some (setRandomLoadAmount lb (randomLoadAmount lb - 5), true)
    else Some (lb, true)
  else if Ascii.eqb command "h" then Some (lb, true)
  else if Ascii.eqb command "q" then Some (lb, false)
  else
    let c := Z.of_N (N_of_ascii command) in
    if (49 <=? c) && (c <=? 57) then
      let serverId := c - 48 in
      Some (addLoadToServer lb serverId (randomLoadAmount lb), true)
    else Some (lb, true).

(** A [for] loop over the counter values [range] whose body may fail. *)
Fixpoint forEach {A : Type} (body : nat -> A -> option A) (range : list nat)
    (a : A) : option A :=
  match range with
  | [] => Some a
  | i :: rest =>
      match body i a with
      | Some a' => forEach body rest a'
      | None => None
      end
  end.

(** The body of the second loop of [runScalabilityDemo]. *)
Definition scaleUp (i : nat) (lb : LoadBalancer) : option LoadBalancer :=
  let lb := addServer lb 100 in
  match addSystemLoad lb 30 with
  | Some (lb, _) =>
      let lb :=
        if (Z.of_nat i mod 2 =? 0)
        then setBalancingAlgorithm lb LEAST_LOADED
        else setBalancingAlgorithm lb WEIGHTED_OPTIMIZATION in
      match rebalanceLoads lb with
      | Some (lb, _) => Some lb
      | None => None
      end
  | None => None
  end.

(** [LoadBalancer::runScalabilityDemo].  [pop_back] until three servers are
    left keeps the first three; the pauses are not modelled. *)
Definition runScalabilityDemo (lb : LoadBalancer) : option LoadBalancer :=
  let lb := withServers lb (take 3 (servers lb)) in
  let lb := Nat.iter (3 - length (servers lb)) (fun lb => addServer lb 100) lb in
  let lb := withServers lb (map (fun s => setCurrentLoad s 0) (servers lb)) in
  let lb := setBalancingAlgorithm lb ROUND_ROBIN in
  match forEach (fun _ lb => fst <$> addSystemLoad lb 20) (seq 0 5) lb with
  | Some lb => forEach scaleUp (seq 0 5) lb
  | None => None
  end.

(** ** The single-file simulator (the stand-alone program with its own
       [main], [struct Server] and [class LoadBalancer]) *)

Module Monolith.

Record Server : Type := mkServer {
  id : Z;
  capacity : Q;
  currentLoad : Q
}.

(** [Server::utilizationRatio] *)
Definition utilizationRatio (s : Server) : double :=
  if Qltb 0 (capacity s) then fdiv (currentLoad s) (capacity s) else Fin 0.

Record LoadBalancer : Type := mkLoadBalancer {
  servers : list Server;
  selectedAlgorithm : Z;
  currentServerIndex : nat
}.

(** [server.currentLoad += load] *)
Definition addLoad (load : Q) (s : Server) : Server :=
  mkServer (id s) (capacity s) (currentLoad s + load)%Q.

(** [distributeLoadRoundRobin]: the whole amount goes to the server under
    the cursor, and the cursor moves on.  Indexing the vector past its end
    is undefined: [None]. *)
Definition distributeLoadRoundRobin (lb : LoadBalancer) (newLoad : Q)
    : option LoadBalancer :=
  match servers lb with
  | [] => Some lb
  | _ =>
      match servers lb !! currentServerIndex lb with
      | Some _ =>
          Some (mkLoadBalancer
                  (alter (addLoad newLoad) (currentServerIndex lb) (servers lb))
                  (selectedAlgorithm lb)
                  ((currentServerIndex lb + 1) mod length (servers lb))%nat)
      | None => None
      end
  end.

(** [ur < minUtilizationRatio], where [None] is the initial
    [numeric_limits<double>::max()] and a non-finite ratio compares false. *)
Definition belowMin (ur : double) (minUtilizationRatio : option Q) : bool :=
  match ur, minUtilizationRatio with
  | Fin u, None => true
  | Fin u, Some m => Qltb u m
  | NonFinite, _ => false
  end.

(** The search loop of [distributeLoadLeastLoaded]. *)
Fixpoint leastLoadedSearch (i : nat) (l : list Server) (leastLoadedIdx : nat)
    (minUtilizationRatio : option Q) : nat :=
  match l with
  | [] => leastLoadedIdx
  | s :: rest =>
      match utilizationRatio s with
      | Fin u =>
          if belowMin (Fin u) minUtilizationRatio
          then leastLoadedSearch (S i) rest i (Some u)
          else leastLoadedSearch (S i) rest leastLoadedIdx minUtilizationRatio
      | NonFinite => leastLoadedSearch (S i) rest leastLoadedIdx minUtilizationRatio
      end
  end.

(** [distributeLoadLeastLoaded] *)
Definition distributeLoadLeastLoaded (l : list Server) (newLoad : Q)
    : list Server :=
  match l with
  | [] => l
  | _ => alter (addLoad newLoad) (leastLoadedSearch 0 l 0 None) l
  end.

Definition sumQ (f : Server -> Q) (l : list Server) : Q :=
  fold_left (fun t s => (t + f s)%Q) l 0%Q.

(** [totalPositiveDifference] *)
Definition sumPositive (diffs : list Q) : Q :=
  fold_left (fun t d => if Qltb 0 d then (t + d)%Q else t) diffs 0%Q.

(** [distributeLoadOptimization].  The constructor and [addServer] draw
    every capacity from [50, 200], so [totalCapacity] is positive on a
    non-empty registry; a registry whose capacities sum to zero, where the
    double quotient is not a number and the one here is 0, cannot be built.
    The quotients and products are the exact ones, which the doubles of the
    program follow up to rounding in the last place. *)
Definition distributeLoadOptimization (l : list Server) (newLoad : Q)
    : list Server :=
  match l with
  | [] => l
  | _ =>
      let totalCapacity := sumQ capacity l in
      let totalCurrentLoad := sumQ currentLoad l in
      let targetUtilization := ((totalCurrentLoad + newLoad) / totalCapacity)%Q in
      let targetLoads := map (fun s => (targetUtilization * capacity s)%Q) l in
      let loadDifferences :=
        zip_with (fun t s => (t - currentLoad s)%Q) targetLoads l in
      let totalPositiveDifference := sumPositive loadDifferences in
      if Qltb 0 totalPositiveDifference then
        zip_with (fun s d =>
                    if Qltb 0 d
                    then addLoad (newLoad * (d / totalPositiveDifference))%Q s
                    else s)
                 l loadDifferences
      else distributeLoadLeastLoaded l newLoad
  end.

(** [getTotalLoad] *)
Definition getTotalLoad (l : list Server) : Q := sumQ currentLoad l.

Definition withServers (lb : LoadBalancer) (l : list Server) : LoadBalancer :=
  mkLoadBalancer l (selectedAlgorithm lb) (currentServerIndex lb).

(** [distributeLoad] *)
Definition distributeLoad (lb : LoadBalancer) (load : Q) : option LoadBalancer :=
  match selectedAlgorithm lb with
  | 0 => distributeLoadRoundRobin lb load
  | 1 => Some (withServers lb (distributeLoadLeastLoaded (servers lb) load))
  | 2 => Some (withServers lb (distributeLoadOptimization (servers lb) load))
  | _ => distributeLoadRoundRobin lb load
  end.

(** [removeServer]: the last server goes. *)
Definition removeServer (lb : LoadBalancer) : option LoadBalancer :=
  match last (servers lb) with
  | None => Some lb
  | Some back =>
      let remainingLoad := currentLoad back in
      let lb' := withServers lb (removelast (servers lb)) in
      match servers lb' with
      | [] => Some lb'
      | _ => if Qltb 0 remainingLoad then distributeLoad lb' remainingLoad
             else Some lb'
      end
  end.

(** [rebalance] *)
Definition rebalance (lb : LoadBalancer) : option LoadBalancer :=
  let totalLoad := sumQ currentLoad (servers lb) in
  let lb' := withServers lb
               (map (fun s => mkServer (id s) (capacity s) 0%Q) (servers lb)) in
  distributeLoad lb' totalLoad.

(** The local [systemUtilization] of [displayStatus]. *)
Definition systemUtilization (l : list Server) : double :=
  let totalCapacity := sumQ capacity l in
  let totalLoad := sumQ currentLoad l in
  if Qltb 0 totalCapacity then fmul (fdiv totalLoad totalCapacity) (Fin 100)
  else Fin 0.

(** [addServer]: the id is the new size of the registry; [cap] is the
    capacity drawn from [50, 200]. *)
Definition addServer (lb : LoadBalancer) (cap : Q) : LoadBalancer :=
  withServers lb
    (servers lb
     ++ [mkServer (to_int (Z.of_nat (length (servers lb))) + 1) cap 0%Q]).

(** [addLoadToServer]: the first server with the id takes the load, and
    the registry is rebalanced. *)
Definition addLoadToServer (lb : LoadBalancer) (serverId : Z) (load : Q)
    : option LoadBalancer :=
  match list_find (fun s => id s = serverId) (servers lb) with
  | Some (i, _) => rebalance (withServers lb (alter (addLoad load) i (servers lb)))
  | None => Some lb
  end.

(** [switchAlgorithm]: [algorithmNames.size()] is 3, and the sum is
    converted to [size_t] for the remainder. *)
Definition switchAlgorithm (lb : LoadBalancer) : option LoadBalancer :=
  rebalance
    (mkLoadBalancer (servers lb)
                    (to_int (to_size_t (selectedAlgorithm lb + 1) mod 3))
                    (currentServerIndex lb)).

(** [increaseTotalLoad] *)
Definition increaseTotalLoad (lb : LoadBalancer) (percentage : Q)
    : option LoadBalancer :=
  match servers lb with
  | [] => Some lb
  | _ =>
      let currentTotal := getTotalLoad (servers lb) in
      let additionalLoad := (currentTotal * (percentage / 100))%Q in
      distributeLoad lb additionalLoad
  end.

(** [std::max(0.0, x)] *)
Definition max0 (x : Q) : Q := if Qltb 0 x then x else 0%Q.

(** [decreaseTotalLoad].  The division by [currentTotal] is not guarded.
    When [currentTotal] is zero, so is [reductionAmount], their product
    with the quotient is not a number, and [std::max(0.0, .)] of a value
    that is not a number is its first argument. *)
Definition decreaseTotalLoad (lb : LoadBalancer) (percentage : Q)
    : LoadBalancer :=
  match servers lb with
  | [] => lb
  | _ =>
      let currentTotal := getTotalLoad (servers lb) in
      let reductionAmount := (currentTotal * (percentage / 100))%Q in
      withServers lb
        (map (fun s =>
                match fmul (Fin reductionAmount)
                           (fdiv (currentLoad s) currentTotal) with
                | Fin serverReduction =>
                    mkServer (id s) (capacity s)
                             (max0 (currentLoad s - serverReduction))
                | NonFinite => mkServer (id s) (capacity s) 0%Q
                end)
             (servers lb))
  end.

(** The constructor: the server at position [i] (from 0) gets the id
    [i + 1] and the capacity drawn for it from [50, 200]; Round Robin is
    selected and the cursor is on the first server. *)
Definition newLoadBalancer (capacities : list Q) : LoadBalancer :=
  mkLoadBalancer
    (imap (fun i cap => mkServer (Z.of_nat i + 1) cap 0%Q) capacities) 0 0.

End Monolith.

(** ** The server health simulator of server_health.cpp *)

Module Health.

Inductive ServerState : Type := HEALTHY | DEGRADED | CRITICAL | OFFLINE.

#[global] Instance ServerState_eq_dec : EqDecision ServerState.
Proof. solve_decision. Defined.

(** Time points are seconds on the system clock. *)
Record ServerHealth : Type := mkServerHealth {
  serverId : Z;
  state : ServerState;
  healthScore : Q;
  failureProbability : Q;
  recoveryProbability : Q;
  lastStateChange : Q;
  performanceMultiplier : Q
}.

(** The four assignments every transition makes. *)
Definition enter (st : ServerState) (score mult now : Q) (server : ServerHealth)
    : ServerHealth :=
  mkServerHealth (serverId server) st score (failureProbability server)
                 (recoveryProbability server) now mult.

(** The [switch] of [updateServerStates], for a server that is due. *)
Definition transition (now randomValue : Q) (server : ServerHealth)
    : ServerHealth :=
  match state server with
  | HEALTHY =>
      if Qltb randomValue (failureProbability server)
      then enter DEGRADED (7 # 10) (7 # 10) now server
      else server
  | DEGRADED =>
      if Qltb randomValue (recoveryProbability server)
      then enter HEALTHY 1 1 now server
      else if Qltb (1 - failureProbability server * 2) randomValue
      then enter CRITICAL (3 # 10) (4 # 10) now server
      else server
  | CRITICAL =>
      if Qltb randomValue (recoveryProbability server / 2)
      then enter DEGRADED (6 # 10) (6 # 10) now server
      else if Qltb (1 - failureProbability server * 3) randomValue
      then enter OFFLINE 0 0 now server
      else server
  | OFFLINE =>
      if Qltb randomValue (recoveryProbability server / 3)
      then enter CRITICAL (2 # 10) (3 # 10) now server
      else server
  end.

(** [ServerHealthSimulator::updateServerStates].  [clock i] is the reading
    of the system clock in iteration [i]; [draws] is the stream of values
    the generator yields and [pos] the number of values already drawn.
    The result carries the new position in the stream. *)
Fixpoint updateServerStates (clock : nat -> Q) (draws : nat -> Q)
    (i pos : nat) (l : list ServerHealth) : list ServerHealth * nat :=
  match l with
  | [] => ([], pos)
  | server :: rest =>
      let now := clock i in
      let elapsedSeconds := (now - lastStateChange server)%Q in
      if Qltb elapsedSeconds 5 then
        let '(rest', pos') := updateServerStates clock draws (S i) pos rest in
        (server :: rest', pos')
      else
        let randomValue := draws pos in
        let '(rest', pos') := updateServerStates clock draws (S i) (S pos) rest in
        (transition now randomValue server :: rest', pos')
  end.

(** [std::max(0.0, std::min(1.0, degradationFactor))] *)
Definition clampFactor (degradationFactor : Q) : Q :=
  let m := if Qltb degradationFactor 1 then degradationFactor else 1%Q in
  if Qltb 0 m then m else 0%Q.

(** The body of [degradeServerPerformance] on the record found. *)
Definition degrade (degradationFactor now : Q) (server : ServerHealth)
    : ServerHealth :=
  let factor := clampFactor degradationFactor in
  let multiplier := (performanceMultiplier server * factor)%Q in
  if Qltb multiplier (1 # 10) then
    mkServerHealth (serverId server) OFFLINE 0 (failureProbability server)
                   (recoveryProbability server) now 0
  else if Qltb multiplier (5 # 10) then
    mkServerHealth (serverId server) CRITICAL (3 # 10) (failureProbability server)
                   (recoveryProbability server) now multiplier
  else if Qltb multiplier (9 # 10) then
    mkServerHealth (serverId server) DEGRADED (7 # 10) (failureProbability server)
                   (recoveryProbability server) now multiplier
  else
    mkServerHealth (serverId server) (state server) (healthScore server)
                   (failureProbability server) (recoveryProbability server)
                   now multiplier.

(** [ServerHealthSimulator::degradeServerPerformance] *)
Definition degradeServerPerformance (l : list ServerHealth) (sid : Z)
    (degradationFactor now : Q) : list ServerHealth :=
  match list_find (fun sh => serverId sh = sid) l with
  | Some (i, server) =>
      if decide (state server = OFFLINE) then l
      else <[i := degrade degradationFactor now server]> l
  | None => l
  end.

(** [ServerHealthSimulator::addServer] *)
Definition addServer (l : list ServerHealth) (sid : Z) (now : Q)
    : list ServerHealth :=
  match list_find (fun sh => serverId sh = sid) l with
  | Some _ => l
  | None => l ++ [mkServerHealth sid HEALTHY 1 (1 # 100) (2 # 10) now 1]
  end.

(** [ServerHealthSimulator::removeServer]: [remove_if] and [erase] drop
    every record of the id and keep the others in their order. *)
Definition removeServer (l : list ServerHealth) (sid : Z) : list ServerHealth :=
  filter (fun sh => serverId sh <> sid) l.

(** [ServerHealthSimulator::getServerState] *)
Definition getServerState (l : list ServerHealth) (sid : Z) : ServerState :=
  match list_find (fun sh => serverId sh = sid) l with
  | Some (_, server) => state server
  | None => HEALTHY
  end.

(** [ServerHealthSimulator::getServerHealthScore] *)
Definition getServerHealthScore (l : list ServerHealth) (sid : Z) : Q :=
  match list_find (fun sh => serverId sh = sid) l with
  | Some (_, server) => healthScore server
  | None => 1%Q
  end.

(** [ServerHealthSimulator::getServerPerformanceMultiplier] *)
Definition getServerPerformanceMultiplier (l : list ServerHealth) (sid : Z) : Q :=
  match list_find (fun sh => serverId sh = sid) l with
  | Some (_, server) => performanceMultiplier server
  | None => 1%Q
  end.

(** [ServerHealthSimulator::stateToString], which is also the table
    [stateLabels] of the constructor. *)
Definition stateToString (st : ServerState) : string :=
  match st with
  | HEALTHY => "HEALTHY"
  | DEGRADED => "DEGRADED"
  | CRITICAL => "CRITICAL"
  | OFFLINE => "OFFLINE"
  end.

(** [ServerHealthSimulator::getServerStateLabel] *)
Definition getServerStateLabel (l : list ServerHealth) (sid : Z) : string :=
  stateToString (getServerState l sid).

(** The assignments of [setServerState] on the record found. *)
Definition force (st : ServerState) (now : Q) (server : ServerHealth)
    : ServerHealth :=
  match st with
  | HEALTHY => enter HEALTHY 1 1 now server
  | DEGRADED => enter DEGRADED (7 # 10) (7 # 10) now server
  | CRITICAL => enter CRITICAL (3 # 10) (4 # 10) now server
  | OFFLINE => enter OFFLINE 0 0 now server
  end.

(** [ServerHealthSimulator::setServerState] *)
Definition setServerState (l : list ServerHealth) (sid : Z) (st : ServerState)
    (now : Q) : list ServerHealth :=
  match list_find (fun sh => serverId sh = sid) l with
  | Some (i, server) => <[i := force st now server]> l
  | None => l
  end.

(** [ServerHealthSimulator::recoverServer] *)
Definition recoverServer (l : list ServerHealth) (sid : Z) (now : Q)
    : list ServerHealth :=
  match list_find (fun sh => serverId sh = sid) l with
  | Some (i, server) => <[i := enter HEALTHY 1 1 now server]> l
  | None => l
  end.

(** [ServerHealthSimulator::simulateRandomFailure].  [index] is the value of
    [distInt(rng)], which lies between 0 and [servers.size() - 1];
    [severity] is the value of [distSeverity(rng)]. *)
Definition simulateRandomFailure (l : list ServerHealth) (index : nat)
    (severity now : Q) : list ServerHealth :=
  match l with
  | [] => l
  | _ =>
      match l !! index with
      | Some chosen =>
          if Qltb severity (2 # 10)
          then setServerState l (serverId chosen) DEGRADED now
          else if Qltb severity (7 # 10)
          then setServerState l (serverId chosen) CRITICAL now
          else setServerState l (serverId chosen) OFFLINE now
      | None => l
      end
  end.

(** [ServerHealthSimulator::simulateNetworkPartition].  [clock k] is the
    reading of the system clock in the call of [setServerState] number
    [k]. *)
Fixpoint simulateNetworkPartition (clock : nat -> Q) (k : nat)
    (l : list ServerHealth) (affectedServers : list Z) : list ServerHealth :=
  match affectedServers with
  | [] => l
  | sid :: rest =>
      simulateNetworkPartition clock (S k)
        (setServerState l sid OFFLINE (clock k)) rest
  end.

(** [ServerHealthSimulator::simulateHighLoad].  [degradationFactor] is the
    value drawn from [0.5, 0.8]. *)
Definition simulateHighLoad (l : list ServerHealth) (sid : Z)
    (degradationFactor now : Q) : list ServerHealth :=
  match list_find (fun sh => serverId sh = sid) l with
  | Some (_, server) =>
      if decide (state server = OFFLINE) then l
      else degradeServerPerformance l sid degradationFactor now
  | None => l
  end.

End Health.

(** ** The monitor of load_monitor.cpp *)

Module Monitor.

(** [std::accumulate(serverLoads.begin(), serverLoads.end(), 0)]: the
    initial value is the [int] 0, so every addition is one of [int]s and
    its result is kept in 32 bits, whatever the sum of the loads is. *)
Definition accumulate (serverLoads : list Z) : Z :=
  fold_left (fun sum load => to_int (sum + load)) serverLoads 0.

(** [LoadMonitor::calculateAverageLoad]: the [int] sum is converted to a
    double, and the quotient is one of doubles. *)
Definition calculateAverageLoad (serverLoads : list Z) : double :=
  match serverLoads with
  | [] => Fin 0
  | _ =>
      let sum := inject_Z (accumulate serverLoads) in
      fdiv sum (inject_Z (Z.of_nat (length serverLoads)))
  end.

(** [LoadMonitor::calculateLoadVariance] *)
Definition calculateLoadVariance (serverLoads : list Z) : double :=
  match serverLoads with
  | [] => Fin 0
  | _ =>
      let avg := calculateAverageLoad serverLoads in
      let variance :=
        fold_left (fun variance load =>
                     let d := fsub (Fin (inject_Z load)) avg in
                     fadd variance (fmul d d))
                  serverLoads (Fin 0) in
      fdivd variance (Fin (inject_Z (Z.of_nat (length serverLoads))))
  end.

Record MetricsSnapshot : Type := mkMetricsSnapshot {
  timestamp : Q;
  avgLoad : double;
  loadVariance : double;
  responseTime : Q;
  serverCount : Z;
  algorithm : string
}.

(** The monitor without its log file. *)
Record LoadMonitor : Type := mkLoadMonitor {
  currentAlgorithm : string;
  metrics : list MetricsSnapshot
}.


(** [LoadMonitor::setAlgorithm] *)
Definition setAlgorithm (m : LoadMonitor) (a : string) : LoadMonitor :=
  mkLoadMonitor a (metrics m).

(** [LoadMonitor::recordMetrics]; [elapsed] is the reading of
    [getElapsedTimeSeconds]. *)
Definition recordMetrics (m : LoadMonitor) (serverLoads : list Z)
    (responseTime elapsed : Q) : LoadMonitor :=
  let avgLoad := calculateAverageLoad serverLoads in
  let variance := calculateLoadVariance serverLoads in
  let snapshot :=
    mkMetricsSnapshot elapsed avgLoad variance responseTime
                      (to_int (Z.of_nat (length serverLoads)))
                      (currentAlgorithm m) in
  mkLoadMonitor (currentAlgorithm m) (metrics m ++ [snapshot]).

(** One entry of the report: the number of samples of an algorithm and
    its two averages. *)
Record AlgorithmSummary : Type := mkAlgorithmSummary {
  samples : Z;
  avgVariance : double;
  avgResponse : double
}.

(** The first loop of [LoadMonitor::generateReport]:
    [algorithmMetrics[snapshot.algorithm].push_back(snapshot)], where
    [operator[]] creates an empty vector for a new key. *)
Definition groupByAlgorithm (metrics : list MetricsSnapshot)
    : gmap string (list MetricsSnapshot) :=
  fold_left (fun algorithmMetrics snapshot =>
               <[algorithm snapshot :=
                   default [] (algorithmMetrics !! algorithm snapshot)
                   ++ [snapshot]]> algorithmMetrics)
            metrics ∅.

(** The body of the second loop, for one group. *)
Definition summarize (group : list MetricsSnapshot) : AlgorithmSummary :=
  let avgVariance :=
    fold_left (fun acc snapshot => fadd acc (loadVariance snapshot))
              group (Fin 0) in
  let avgResponse :=
    fold_left (fun acc snapshot => (acc + responseTime snapshot)%Q) group 0%Q in
  let size := inject_Z (Z.of_nat (length group)) in
  mkAlgorithmSummary (Z.of_nat (length group))
                     (fdivd avgVariance (Fin size))
                     (fdiv avgResponse size).

(** [LoadMonitor::generateReport]: what the report states for each
    algorithm.  The report file, its header lines and the order of its
    entries are not modelled. *)
Definition generateReport (m : LoadMonitor) : gmap string AlgorithmSummary :=
  summarize <$> groupByAlgorithm (metrics m).

End Monitor.

(** ** Vocabulary of the properties *)

(** *** Registries *)

(** A copy of a server with another load. *)
Definition withLoad (s : Server) (load : Z) : Server :=
  mkServer (id s) (capacity s) load (performanceMultiplier s) (online s)
           (status s).

(** [s], at position [i], is the first server of [l] whose id is
    [serverId]. *)
Definition firstWithId (serverId : Z) (l : list Server) (i : nat) (s : Server)
    : Prop :=
  l !! i = Some s /\ id s = serverId /\
  forall j s', l !! j = Some s' -> id s' = serverId -> (i <= j)%nat.

(** What one distribution call added to each server. *)
Definition perServerDelta (before after : list Server) : list Z :=
  zip_with (fun a b => currentLoad b - currentLoad a) before after.

(** The number of online servers. *)
Definition onlineCount (l : list Server) : Z :=
  Z.of_nat (length (filter (fun s => online s = true) l)).

(** The first step of a rebalance: every load is reset. *)
Definition zeroLoads (l : list Server) : list Server :=
  map (fun s => setCurrentLoad s 0) l.

(** Server ids grow along the registry: [addServer] appends a server with
    the next id and removal keeps the order. *)
Definition ascendingIds (l : list Server) : Prop :=
  StronglySorted Z.lt (map id l).

(** The state of a registry that the setters of [Server] and the ids
    handed out by [addServer] maintain. *)
Definition registryInvariant (lb : LoadBalancer) : Prop :=
  ascendingIds (servers lb) /\
  Forall (fun s => id s < nextServerId lb) (servers lb) /\
  Forall (fun s => 0 <= currentLoad s) (servers lb).

(** A server whose load lies between 0 and its capacity and whose
    performance multiplier is not negative. *)
Definition withinCapacity (s : Server) : Prop :=
  0 <= currentLoad s <= capacity s /\ (0 <= performanceMultiplier s)%Q.

(** *** Round Robin: the batch split *)

(** The share of the server at position [i] among [n] servers: the base
    [loadAmount / n], and one unit more for the first [loadAmount mod n]
    servers. *)
Definition roundRobinShare (n loadAmount : Z) (i : nat) : Z :=
  loadAmount / n + (if Z.of_nat i <? loadAmount mod n then 1 else 0).

(** *** Least Loaded: the greedy rule *)

(** [s], at position [i], is an online server of greatest available
    capacity, with the lowest id among those. *)
Definition isBest (l : list Server) (i : nat) (s : Server) : Prop :=
  l !! i = Some s /\ online s = true /\
  forall j s', l !! j = Some s' -> online s' = true ->
    getAvailableCapacity s' <= getAvailableCapacity s /\
    (getAvailableCapacity s' = getAvailableCapacity s -> id s <= id s').

(** The load of the server at position [i] grows by [amount]. *)
Definition assign (i : nat) (amount : Z) (l : list Server) : list Server :=
  alter (fun s => withLoad s (currentLoad s + amount)) i l.

(** One assignment: the server, the amount it was given, and its available
    capacity at that moment. *)
Record Step : Type := mkStep {
  stepServer : Z;
  stepAmount : Z;
  stepAvailable : Z
}.

(** [GreedyRun l r steps l' u]: starting from registry [l] with [r] units
    to place, the greedy rule makes the assignments [steps], ends in [l']
    and leaves [u] units undistributed. *)
Inductive GreedyRun : list Server -> Z -> list Step -> list Server -> Z -> Prop :=
| greedy_done l r :
    r <= 0 -> GreedyRun l r [] l 0
| greedy_stuck l r :
    0 < r ->
    (forall s, s ∈ l -> online s = true -> getAvailableCapacity s <= 0) ->
    GreedyRun l r [] l r
| greedy_step l r i s amount steps l' u :
    0 < r -> isBest l i s -> 0 < getAvailableCapacity s ->
    amount = Z.min r (getAvailableCapacity s) ->
    GreedyRun (assign i amount l) (r - amount) steps l' u ->
    GreedyRun l r (mkStep (id s) amount (getAvailableCapacity s) :: steps) l' u.

(** The loop invariant of [selectBest] over the servers [pre] seen so far. *)
Definition bestSoFar (pre : list Server) (best : option nat) (ba : Z) : Prop :=
  match best with
  | None =>
      ba = -1 /\
      forall s, s ∈ pre -> online s = true -> getAvailableCapacity s <= -1
  | Some k =>
      -1 < ba /\
      exists s, pre !! k = Some s /\ online s = true /\
        getAvailableCapacity s = ba /\
        forall j s', pre !! j = Some s' -> online s' = true ->
          getAvailableCapacity s' <= ba /\
          (getAvailableCapacity s' = ba -> (k <= j)%nat)
  end.

(** [s], at position [k], is the first server of smallest utilization
    ratio (single-file simulator). *)
Definition isLeastUtilized (l : list Monolith.Server) (k : nat)
    (s : Monolith.Server) : Prop :=
  l !! k = Some s /\
  exists u, Monolith.utilizationRatio s = Fin u /\
    forall j s', l !! j = Some s' ->
      exists v, Monolith.utilizationRatio s' = Fin v /\ (u <= v)%Q /\
                ((v == u)%Q -> (k <= j)%nat).

(** The loop invariant of [Monolith.leastLoadedSearch]. *)
Definition leastSoFar (pre : list Monolith.Server) (idx : nat)
    (minRatio : option Q) : Prop :=
  match minRatio with
  | None => pre = [] /\ idx = 0%nat
  | Some m =>
      exists s, pre !! idx = Some s /\ Monolith.utilizationRatio s = Fin m /\
        forall j s', pre !! j = Some s' ->
          exists v, Monolith.utilizationRatio s' = Fin v /\ (m <= v)%Q /\
                    ((v == m)%Q -> (idx <= j)%nat)
  end.

(** *** Weighted Optimization: the two formulations side by side *)

(** A server of load_balancer.cpp seen as a server of the single-file
    simulator, which knows ids, capacities and loads only. *)
Definition toMonolith (s : Server) : Monolith.Server :=
  Monolith.mkServer (id s) (inject_Z (capacity s)) (inject_Z (currentLoad s)).

(** Same per-server loads in the two programs. *)
Definition sameLoads (l : list Server) (m : list Monolith.Server) : Prop :=
  Forall2 (fun a b => (inject_Z (currentLoad a) == Monolith.currentLoad b)%Q)
          l m.

(** The sum of all capacities. *)
Definition sumCapacity (l : list Server) : Z :=
  fold_left (fun t s => t + capacity s) l 0.

(** A fresh server: online, at full performance, without load, with a
    positive capacity. *)
Definition fresh (s : Server) : Prop :=
  online s = true /\ (performanceMultiplier s == 1)%Q /\
  currentLoad s = 0 /\ 0 < capacity s.

(** The product [ratio * loadAmount] of [distributeLoadWeightedOptimization]
    for a server at full performance, as the machine computes it: the
    primitive floats of the kernel are binary64 numbers, the doubles of
    C++. *)
Module Binary64.
Import PrimFloat.

Definition doubleShare (capacity totalEffectiveCapacity loadAmount : float)
    : float :=
  (capacity / totalEffectiveCapacity * loadAmount)%float.

End Binary64.

(** The effective capacity of the online servers, summed from the right. *)
Definition onlineEffective (l : list Server) : Q :=
  fold_right (fun s acc => ((if online s then getEffectiveCapacity s else 0) + acc)%Q)
             0%Q l.

(** *** Rebalancing in the single-file simulator *)

(** Two registries of the single-file simulator hold the same servers with
    the same loads. *)
Definition sameServers (a b : list Monolith.Server) : Prop :=
  Forall2 (fun x y => Monolith.id x = Monolith.id y /\
                      (Monolith.capacity x == Monolith.capacity y)%Q /\
                      (Monolith.currentLoad x == Monolith.currentLoad y)%Q)
          a b.

(** The first step of a rebalance in the single-file simulator. *)
Definition zeroed (l : list Monolith.Server) : list Monolith.Server :=
  map (fun s => Monolith.mkServer (Monolith.id s) (Monolith.capacity s) 0%Q) l.

(** *** Concrete registries *)

(** A server at full performance, as [addServer] creates it, with a load. *)
Definition srv (i c l : Z) (on : bool) : Server :=
  mkServer i c l 1 on "HEALTHY".

(** A registry of two servers, the second of which is offline. *)
Definition oneOffline : list Server :=
  [srv 1 100 0 true; srv 2 100 0 false].

(** A balancer on Round Robin with one loaded server and [oneOffline]. *)
Definition threeServers : LoadBalancer :=
  mkLoadBalancer [srv 1 100 0 true; srv 2 100 0 false; srv 3 100 10 true]
                 ROUND_ROBIN 4 10.

(** Two servers of capacity 100, the first of which carries 150 units (as
    Round Robin, which never looks at capacities, can leave it). *)
Definition overloaded : list Server :=
  [srv 1 100 150 true; srv 2 100 0 true].

(** Two servers of capacity 100, the first of which carries 50 units. *)
Definition halfLoaded : list Server :=
  [srv 1 100 50 true; srv 2 100 0 true].

(** A single-file balancer on Round Robin (algorithm 0), cursor on the
    first of two servers. *)
Definition monolithTwo : Monolith.LoadBalancer :=
  Monolith.mkLoadBalancer
    [Monolith.mkServer 1 100 10; Monolith.mkServer 2 100 0] 0 0.

(** *** Health simulator: the transition table *)

Module HealthSpec.
Import Health.

(** One row of the table: the state it applies to, its condition on the
    random value and the two probabilities, the target state, health score
    and performance multiplier. *)
Record Row : Type := mkRow {
  from : ServerState;
  cond : Q -> Q -> Q -> bool;
  to : ServerState;
  score : Q;
  mult : Q
}.

Definition transitionTable : list Row :=
  [ mkRow HEALTHY  (fun rand fp rp => Qltb rand fp)           DEGRADED (7 # 10) (7 # 10);
    mkRow DEGRADED (fun rand fp rp => Qltb rand rp)           HEALTHY  1        1;
    mkRow DEGRADED (fun rand fp rp => Qltb (1 - 2 * fp) rand) CRITICAL (3 # 10) (4 # 10);
    mkRow CRITICAL (fun rand fp rp => Qltb rand (rp / 2))     DEGRADED (6 # 10) (6 # 10);
    mkRow CRITICAL (fun rand fp rp => Qltb (1 - 3 * fp) rand) OFFLINE  0        0;
    mkRow OFFLINE  (fun rand fp rp => Qltb rand (rp / 3))     CRITICAL (2 # 10) (3 # 10) ].

(** The first row, in the listed order, that applies to the state and
    whose condition holds. *)
Definition firstMatching (st : ServerState) (rand fp rp : Q) : option Row :=
  find (fun row => bool_decide (from row = st) && cond row rand fp rp)
       transitionTable.

(** A tick on a record that is due: the first matching row fires, if any. *)
Definition tableStep (now rand : Q) (server : ServerHealth) : ServerHealth :=
  match firstMatching (state server) rand (failureProbability server)
                      (recoveryProbability server) with
  | Some row =>
      mkServerHealth (serverId server) (to row) (score row)
                     (failureProbability server) (recoveryProbability server)
                     now (mult row)
  | None => server
  end.

(** The number of records of [l] that are due when record [i], [i+1], ...
    is visited at clock reading [clock i], [clock (i+1)], ... *)
Fixpoint dueCount (clock : nat -> Q) (i : nat) (l : list ServerHealth) : nat :=
  match l with
  | [] => 0%nat
  | server :: rest =>
      ((if Qltb (clock i - lastStateChange server) 5 then 0 else 1)
       + dueCount clock (S i) rest)%nat
  end.

(** [server], at position [i], is the first record of [l] for [sid]. *)
Definition firstRecord (sid : Z) (l : list ServerHealth) (i : nat)
    (server : ServerHealth) : Prop :=
  l !! i = Some server /\ serverId server = sid /\
  forall j other, l !! j = Some other -> serverId other = sid -> (i <= j)%nat.

(** What every operation of the simulator keeps true of a record: the
    multiplier lies in [0,1], and an Offline record has multiplier 0. *)
Definition healthInvariant (server : ServerHealth) : Prop :=
  (0 <= performanceMultiplier server <= 1)%Q /\
  (state server = OFFLINE -> (performanceMultiplier server == 0)%Q).

(** A registry of one healthy record, as [addServer] creates it. *)
Definition oneHealthy : list ServerHealth :=
  [mkServerHealth 1 HEALTHY 1 (1 # 100) (2 # 10) 0 1].

End HealthSpec.

(** *** The registry: invariants, frames and free capacity *)

(** What the constructor establishes and every command keeps: the registry
    invariant, positive ids, and a positive load step. *)
Definition simulatorInvariant (lb : LoadBalancer) : Prop :=
  registryInvariant lb /\
  Forall (fun s => 0 < id s) (servers lb) /\
  0 < nextServerId lb /\
  0 < randomLoadAmount lb.

(** [after] holds the servers of [before], in the same order, and differs
    from it in the loads of online servers at most. *)
Definition onlyLoadsOfOnline (before after : list Server) : Prop :=
  Forall2 (fun s s' => s' = withLoad s (currentLoad s') /\
                       (online s = false -> s' = s))
          before after.

(** No server of [after] carries less than in [before]. *)
Definition noLoadTakenAway (before after : list Server) : Prop :=
  Forall2 (fun s s' => currentLoad s <= currentLoad s') before after.

(** The free capacity of the registry: the sum of the available capacities
    (an offline server has none). *)
Definition totalAvailable (l : list Server) : Z :=
  foldr (fun s acc => getAvailableCapacity s + acc) 0 l.

(** The report of a policy that fills free capacity before it gives up. *)
Definition fillReport (loadAmount available : Z) : report :=
  if loadAmount <=? available then Distributed
  else InsufficientCapacity (loadAmount - available).

(** An ideal load that is not negative and does not exceed the available
    capacity of its server. *)
Definition fits (s : Server) (d : Z) : Prop := 0 <= d <= getAvailableCapacity s.

(** A server to which the remainder loop cannot give one more unit. *)
Definition full (s : Server) (d : Z) : Prop :=
  online s && (0 <? getAvailableCapacity s - d) = false.

(** *** Health simulator: lookups and consistency *)

(** The record that the getters and setters of the simulator address: the
    first one with the id. *)
Definition recordOf (sid : Z) (l : list Health.ServerHealth)
    : option Health.ServerHealth :=
  snd <$> list_find (fun sh => Health.serverId sh = sid) l.

(** The shape shared by [setServerState], [recoverServer] and
    [degradeServerPerformance]: the first record with the id is replaced
    by its image under [g]. *)
Definition updateFirst (g : Health.ServerHealth -> Health.ServerHealth)
    (sid : Z) (l : list Health.ServerHealth) : list Health.ServerHealth :=
  match list_find (fun sh => Health.serverId sh = sid) l with
  | Some (i, server) => <[i := g server]> l
  | None => l
  end.

(** State, performance multiplier and health score of a record agree: the
    multiplier lies in the band of the state (the thresholds 0.1, 0.5 and
    0.9 of [degradeServerPerformance]), a Healthy record has score 1 and an
    Offline one score 0. *)
Definition consistent (server : Health.ServerHealth) : Prop :=
  match Health.state server with
  | Health.HEALTHY =>
      (9 # 10 <= Health.performanceMultiplier server)%Q /\
      (Health.performanceMultiplier server <= 1)%Q /\
      (Health.healthScore server == 1)%Q
  | Health.DEGRADED =>
      (5 # 10 <= Health.performanceMultiplier server)%Q /\
      (Health.performanceMultiplier server < 9 # 10)%Q
  | Health.CRITICAL =>
      (1 # 10 <= Health.performanceMultiplier server)%Q /\
      (Health.performanceMultiplier server < 5 # 10)%Q
  | Health.OFFLINE =>
      (Health.performanceMultiplier server == 0)%Q /\
      (Health.healthScore server == 0)%Q
  end.

(** The state a random failure of the given severity forces. *)
Definition failureState (severity : Q) : Health.ServerState :=
  if Qltb severity (2 # 10) then Health.DEGRADED
  else if Qltb severity (7 # 10) then Health.CRITICAL
  else Health.OFFLINE.

(** *** Monitor *)

(** The sum of the squared distances of the loads from [avg]. *)
Definition squaredDistances (avg : Q) (serverLoads : list Z) : Q :=
  foldr (fun load acc => ((inject_Z load - avg) * (inject_Z load - avg) + acc)%Q)
        0%Q serverLoads.

(** The snapshots recorded under an algorithm, in the order of recording. *)
Definition recordedUnder (a : string) (m : Monitor.LoadMonitor)
    : list Monitor.MetricsSnapshot :=
  filter (fun snapshot => Monitor.algorithm snapshot = a) (Monitor.metrics m).


(** A double that is a finite number. *)
Definition finite (d : double) : Prop := exists q, d = Fin q.

(** *** The single-file simulator: invariants *)

(** The whole load [total] lies on the first server. *)
Definition allOnFirst (total : Q) (l : list Monolith.Server) : Prop :=
  forall j s, l !! j = Some s ->
  (Monolith.currentLoad s == (if decide (j = 0%nat) then total else 0))%Q.

(** The Round Robin cursor points into the registry (or is 0 on an empty
    one). *)
Definition cursorInRange (lb : Monolith.LoadBalancer) : Prop :=
  Monolith.currentServerIndex lb = 0%nat \/
  (Monolith.currentServerIndex lb < length (Monolith.servers lb))%nat.

(** The same servers with possibly other loads. *)
Definition sameIdentity (a b : list Monolith.Server) : Prop :=
  Forall2 (fun x y => Monolith.id x = Monolith.id y /\
                      Monolith.capacity x = Monolith.capacity y)
          a b.

(** The server at position [i] (from 0) has id [i + 1]. *)
Definition sequentialIds (l : list Monolith.Server) : Prop :=
  forall i s, l !! i = Some s -> Monolith.id s = Z.of_nat i + 1.

(** Case analysis on the first comparison of doubles in the goal. *)
Ltac case_Qltb :=
  match goal with
  | |- context [Qltb ?a ?b] => destruct (Qltb a b) eqn:?
  end.

(** * Properties *)

(** ** Ratios and percentages *)

Lemma Qeq_bool_inject_Z_0 (z : Z) : z <> 0 -> Qeq_bool (inject_Z z) 0 = false.
Proof.
  intros Hz. apply not_true_is_false. intros H.
  apply Qeq_bool_iff in H. unfold Qeq in H. simpl in H. lia.
Qed.

Lemma Qltb_lt (a b : Q) : Qltb a b = true <-> (a < b)%Q.
Proof.
  unfold Qltb. rewrite negb_true_iff. split.
  - intros H. apply Qnot_le_lt. intros Hle.
    apply Qle_bool_iff in Hle. congruence.
  - intros H. apply not_true_is_false. intros Hle.
    apply Qle_bool_iff in Hle. apply (Qlt_not_le _ _ H). exact Hle.
Qed.

Lemma Qltb_ge (a b : Q) : Qltb a b = false <-> (b <= a)%Q.
Proof.
  unfold Qltb. rewrite negb_false_iff. apply Qle_bool_iff.
Qed.

Lemma getLoadPercentage_finite (s : Server) :
  exists q, getLoadPercentage s = Fin q.
Proof.
  unfold getLoadPercentage. destruct (Z.eqb_spec (capacity s) 0) as [|Hc].
  - eauto.
  - unfold fdiv. rewrite (Qeq_bool_inject_Z_0 _ Hc). simpl. eauto.
Qed.

Lemma onlineCount_cons (s : Server) (l : list Server) :
  onlineCount (s :: l) = (if online s then 1 else 0) + onlineCount l.
Proof.
  unfold onlineCount. rewrite filter_cons.
  destruct (online s); simpl.
  - destruct (decide (true = true)); [|congruence]. simpl length. lia.
  - destruct (decide (false = true)); [congruence|]. lia.
Qed.

Lemma onlineCount_nonneg (l : list Server) : 0 <= onlineCount l.
Proof. unfold onlineCount. lia. Qed.

Lemma percentage_fold (l : list Server) (t : Q) (c : Z) :
  exists t',
    fold_left (fun '(t, c) s =>
                 if online s then (fadd t (getLoadPercentage s), c + 1)
                 else (t, c))
              l (Fin t, c) = (Fin t', c + onlineCount l).
Proof.
  revert t c. induction l as [|s l IH]; intros t c.
  - exists t. simpl. f_equal. unfold onlineCount. simpl. lia.
  - simpl. rewrite onlineCount_cons. destruct (online s).
    + destruct (getLoadPercentage_finite s) as [q ->]. simpl.
      destruct (IH (t + q)%Q (c + 1)) as [t' ->]. exists t'. f_equal. lia.
    + destruct (IH t c) as [t' ->]. exists t'. f_equal.
Qed.

Lemma variance_fold (l : list Server) (mean v : Q) :
  exists v',
    fold_left (fun v s =>
                 if online s then
                   let diff := fsub (getLoadPercentage s) (Fin mean) in
                   fadd v (fmul diff diff)
                 else v)
              l (Fin v) = Fin v'.
Proof.
  revert v. induction l as [|s l IH]; intros v; simpl; [eauto|].
  destruct (online s); [|apply IH].
  destruct (getLoadPercentage_finite s) as [q ->]. simpl. apply IH.
Qed.

Lemma calculateLoadVariance_finite (l : list Server) :
  exists q, calculateLoadVariance l = Fin q.
Proof.
  unfold calculateLoadVariance. destruct l as [|s0 l0]; [eauto|].
  destruct (percentage_fold (s0 :: l0) 0 0) as [t ->].
  set (c := 0 + onlineCount (s0 :: l0)).
  destruct (Z.eqb_spec c 0) as [|Hc]; [eauto|].
  assert (Hmean : fdivd (Fin t) (Fin (inject_Z c)) = Fin (t / inject_Z c)).
  { unfold fdivd, fdiv. rewrite (Qeq_bool_inject_Z_0 _ Hc). reflexivity. }
  rewrite Hmean.
  destruct (variance_fold (s0 :: l0) (t / inject_Z c) 0) as [v Hv].
  cbv zeta in Hv. rewrite Hv.
  unfold fdivd, fdiv. rewrite (Qeq_bool_inject_Z_0 _ Hc). eauto.
Qed.

Lemma calculateLoadVariance_no_online (l : list Server) :
  onlineCount l = 0 -> calculateLoadVariance l = Fin 0.
Proof.
  intros H0. unfold calculateLoadVariance. destruct l as [|s0 l0]; [reflexivity|].
  destruct (percentage_fold (s0 :: l0) 0 0) as [t ->].
  rewrite H0. reflexivity.
Qed.

Lemma getTotalCapacity_fold (l : list Server) (acc : Z) :
  fold_left (fun total s => if online s then total + capacity s else total) l acc
  = acc + getTotalCapacity l.
Proof.
  unfold getTotalCapacity. revert acc.
  induction l as [|s l IH]; intros acc; simpl; [lia|].
  rewrite IH, (IH (if online s then 0 + capacity s else 0)).
  destruct (online s); lia.
Qed.

Lemma getTotalCapacity_no_online (l : list Server) :
  onlineCount l = 0 -> getTotalCapacity l = 0.
Proof.
  induction l as [|s l IH]; [reflexivity|].
  rewrite onlineCount_cons. pose proof (onlineCount_nonneg l).
  unfold getTotalCapacity. simpl. rewrite getTotalCapacity_fold.
  destruct (online s); [lia|]. intros. rewrite IH; lia.
Qed.

Lemma systemLoadPercentage_finite (l : list Server) :
  exists q, systemLoadPercentage l = Fin q.
Proof.
  unfold systemLoadPercentage.
  destruct (Z.ltb_spec 0 (getTotalCapacity l)) as [Hc|]; [|eauto].
  unfold fdiv. rewrite Qeq_bool_inject_Z_0 by lia. simpl. eauto.
Qed.

Lemma Qeq_bool_pos (q : Q) : (0 < q)%Q -> Qeq_bool q 0 = false.
Proof.
  intros Hq. apply not_true_is_false. intros H.
  apply Qeq_bool_iff in H. rewrite H in Hq. exact (Qlt_irrefl _ Hq).
Qed.

Lemma utilizationRatio_finite (s : Monolith.Server) :
  exists q, Monolith.utilizationRatio s = Fin q.
Proof.
  unfold Monolith.utilizationRatio.
  destruct (Qltb 0 (Monolith.capacity s)) eqn:Hc; [|eauto].
  apply Qltb_lt in Hc. unfold fdiv. rewrite (Qeq_bool_pos _ Hc). eauto.
Qed.

Lemma systemUtilization_finite (l : list Monolith.Server) :
  exists q, Monolith.systemUtilization l = Fin q.
Proof.
  unfold Monolith.systemUtilization.
  destruct (Qltb 0 (Monolith.sumQ Monolith.capacity l)) eqn:Hc; [|eauto].
  apply Qltb_lt in Hc. unfold fdiv. rewrite (Qeq_bool_pos _ Hc). simpl. eauto.
Qed.

Lemma Qltb_irrefl_eq (q : Q) : (q == 0)%Q -> Qltb 0 q = false.
Proof. intros H. apply Qltb_ge. rewrite H. apply Qle_refl. Qed.

(** C9.  The ratio and percentage computations (load percentage and
    utilization ratio of a server, system utilization, load variance)
    yield 0 in the degenerate configurations (a server of capacity zero,
    no server, no online server, total capacity zero), and none of them
    ever divides by zero. *)
Theorem ratios_short_circuit_to_zero :
  (forall s, capacity s = 0 -> getLoadPercentage s = Fin 0) /\
  (forall s, (Monolith.capacity s == 0)%Q ->
             Monolith.utilizationRatio s = Fin 0) /\
  calculateLoadVariance [] = Fin 0 /\
  (forall l, onlineCount l = 0 -> calculateLoadVariance l = Fin 0) /\
  systemLoadPercentage [] = Fin 0 /\
  (forall l, onlineCount l = 0 -> systemLoadPercentage l = Fin 0) /\
  (forall l, getTotalCapacity l = 0 -> systemLoadPercentage l = Fin 0) /\
  Monolith.systemUtilization [] = Fin 0 /\
  (forall l, (Monolith.sumQ Monolith.capacity l == 0)%Q ->
             Monolith.systemUtilization l = Fin 0) /\
  (forall s, getLoadPercentage s <> NonFinite) /\
  (forall s, Monolith.utilizationRatio s <> NonFinite) /\
  (forall l, calculateLoadVariance l <> NonFinite) /\
  (forall l, systemLoadPercentage l <> NonFinite) /\
  (forall l, Monolith.systemUtilization l <> NonFinite).
Proof.
  repeat split.
  - intros s Hs. unfold getLoadPercentage. rewrite Hs. reflexivity.
  - intros s Hs. unfold Monolith.utilizationRatio.
    rewrite (Qltb_irrefl_eq _ Hs). reflexivity.
  - apply calculateLoadVariance_no_online.
  - intros l Hl. unfold systemLoadPercentage.
    rewrite (getTotalCapacity_no_online l Hl). reflexivity.
  - intros l Hl. unfold systemLoadPercentage. rewrite Hl. reflexivity.
  - intros l Hl. unfold Monolith.systemUtilization.
    rewrite (Qltb_irrefl_eq _ Hl). reflexivity.
  - intros s. destruct (getLoadPercentage_finite s) as [q ->]. discriminate.
  - intros s. destruct (utilizationRatio_finite s) as [q ->]. discriminate.
  - intros l. destruct (calculateLoadVariance_finite l) as [q ->]. discriminate.
  - intros l. destruct (systemLoadPercentage_finite l) as [q ->]. discriminate.
  - intros l. destruct (systemUtilization_finite l) as [q ->]. discriminate.
Qed.

Lemma ratios_short_circuit_to_zero_witness :
  getLoadPercentage (srv 1 0 7 true) = Fin 0 /\
  calculateLoadVariance [srv 1 100 7 false; srv 2 50 3 false] = Fin 0 /\
  systemLoadPercentage [srv 1 0 7 true; srv 2 50 3 false] = Fin 0.
Proof.
  pose proof ratios_short_circuit_to_zero as
    (H1 & _ & _ & H4 & _ & _ & H7 & _).
  split; [apply H1; reflexivity|].
  split; [apply H4; reflexivity|apply H7; reflexivity].
Defined.

(** ** Adding load to one server *)

Lemma findServer_Some (serverId : Z) (l : list Server) (i : nat) (s : Server) :
  findServer serverId l = Some (i, s) <-> firstWithId serverId l i s.
Proof.
  unfold findServer, firstWithId. rewrite list_find_Some. split.
  - intros (Hi & Hid & Hmin). repeat split; [done..|].
    intros j s' Hj Hs'. destruct (Nat.le_gt_cases i j) as [|Hlt]; [done|].
    exfalso. exact (Hmin j s' Hj Hlt Hs').
  - intros (Hi & Hid & Hmin). repeat split; [done..|].
    intros j s' Hj Hlt Hs'. specialize (Hmin j s' Hj Hs'). lia.
Qed.

Lemma findServer_None (serverId : Z) (l : list Server) :
  findServer serverId l = None <-> (forall s, s ∈ l -> id s <> serverId).
Proof.
  unfold findServer. rewrite list_find_None, Forall_forall. reflexivity.
Qed.

Lemma setCurrentLoad_max (s : Server) (load : Z) :
  setCurrentLoad s load = withLoad s (Z.max 0 load).
Proof.
  unfold setCurrentLoad, withLoad. f_equal.
  destruct (Z.ltb_spec load 0); lia.
Qed.

(** C10, counterexample.  A server with load 5 and 95 free units is
    asked to take -10: its load becomes 0, not 5 + min(-10, 95) = -5. *)
Lemma addLoadToServer_negative_is_clamped :
  let s := srv 1 100 5 true in
  let lb := mkLoadBalancer [s] ROUND_ROBIN 2 10 in
  exists s', servers (addLoadToServer lb 1 (-10)) = [s'] /\
    currentLoad s' = 0 /\
    currentLoad s' <> currentLoad s + Z.min (-10) (getAvailableCapacity s).
Proof. eexists. vm_compute. repeat split; congruence. Qed.

(** C10, amended.  If the id matches no server, or the first server with
    that id is offline, [addLoadToServer] leaves the balancer unchanged.
    Otherwise it sets the load of that server to
    max(0, currentLoad + min(loadAmount, availableCapacity)) and changes
    nothing else; this adds exactly min(loadAmount, availableCapacity)
    whenever that sum is not negative, and a server whose load was between
    0 and its capacity still has a load of at most its capacity. *)
Theorem addLoadToServer_effect (lb : LoadBalancer) (serverId loadAmount : Z) :
  ((forall s, s ∈ servers lb -> id s <> serverId) ->
   addLoadToServer lb serverId loadAmount = lb) /\
  (forall i s, firstWithId serverId (servers lb) i s -> online s = false ->
   addLoadToServer lb serverId loadAmount = lb) /\
  (forall i s, firstWithId serverId (servers lb) i s -> online s = true ->
   let added := Z.min loadAmount (getAvailableCapacity s) in
   let s' := withLoad s (Z.max 0 (currentLoad s + added)) in
   addLoadToServer lb serverId loadAmount
   = withServers lb (<[i := s']> (servers lb)) /\
   (0 <= currentLoad s + added -> currentLoad s' = currentLoad s + added) /\
   (0 <= currentLoad s <= capacity s -> currentLoad s' <= capacity s)).
Proof.
  unfold addLoadToServer. split; [|split].
  - intros Hnone. apply findServer_None in Hnone. rewrite Hnone. reflexivity.
  - intros i s Hfirst Hoff. apply findServer_Some in Hfirst.
    rewrite Hfirst, Hoff. reflexivity.
  - intros i s Hfirst Hon. cbv zeta. apply findServer_Some in Hfirst.
    rewrite Hfirst, Hon. split; [|split].
    + rewrite setCurrentLoad_max. do 4 f_equal.
      destruct (Z.ltb_spec (getAvailableCapacity s) loadAmount); lia.
    + simpl. lia.
    + unfold getAvailableCapacity. rewrite Hon. simpl. lia.
Qed.

Lemma addLoadToServer_effect_witness :
  let s := srv 2 100 95 true in
  let lb := mkLoadBalancer [srv 1 100 0 true; s] LEAST_LOADED 3 10 in
  addLoadToServer lb 2 10
  = withServers lb (<[1%nat := withLoad s 100]> (servers lb)).
Proof.
  intros s lb.
  apply (proj1 (proj2 (proj2 (addLoadToServer_effect lb 2 10)) 1%nat s
                  ltac:(apply findServer_Some; reflexivity) eq_refl)).
Defined.

(** ** The health simulator *)

Section HealthProperties.
Import Health HealthSpec.

Lemma Qltb_compat (a a' b b' : Q) :
  (a == a')%Q -> (b == b')%Q -> Qltb a b = Qltb a' b'.
Proof.
  intros Ha Hb. destruct (Qltb a' b') eqn:H.
  - apply Qltb_lt. apply Qltb_lt in H. rewrite Ha, Hb. exact H.
  - apply Qltb_ge. apply Qltb_ge in H. rewrite Ha, Hb. exact H.
Qed.

(** The [switch] of the source and the table agree on every record. *)
Lemma transition_tableStep (now rand : Q) (server : ServerHealth) :
  transition now rand server = tableStep now rand server.
Proof.
  unfold transition, tableStep, firstMatching, enter.
  assert (H2 : forall fp, Qltb (1 - fp * 2) rand = Qltb (1 - 2 * fp) rand).
  { intros fp. apply Qltb_compat; [ring|reflexivity]. }
  assert (H3 : forall fp, Qltb (1 - fp * 3) rand = Qltb (1 - 3 * fp) rand).
  { intros fp. apply Qltb_compat; [ring|reflexivity]. }
  destruct (state server); simpl; rewrite ?H2, ?H3;
    repeat (case_Qltb; simpl); reflexivity.
Qed.

Lemma updateServerStates_from (clock draws : nat -> Q) (l : list ServerHealth) :
  forall i0 pos,
  let '(l', pos') := updateServerStates clock draws i0 pos l in
  length l' = length l /\
  pos' = (pos + dueCount clock i0 l)%nat /\
  forall i server, l !! i = Some server ->
    ((clock (i0 + i)%nat - lastStateChange server < 5)%Q ->
     l' !! i = Some server) /\
    (~ (clock (i0 + i)%nat - lastStateChange server < 5)%Q ->
     l' !! i = Some (tableStep (clock (i0 + i)%nat)
                               (draws (pos + dueCount clock i0 (take i l))%nat)
                               server)).
Proof.
  induction l as [|s l IH]; intros i0 pos; simpl.
  - split; [done|]. split; [lia|].
    intros i server Hi. rewrite lookup_nil in Hi. done.
  - destruct (Qltb (clock i0 - lastStateChange s) 5) eqn:Hdue.
    + specialize (IH (S i0) pos).
      destruct (updateServerStates clock draws (S i0) pos l) as [l' pos'].
      destruct IH as (Hlen & Hpos & Hall). simpl.
      split; [lia|]. split; [lia|].
      intros [|i] server Hi; simpl in *.
      * injection Hi as <-. rewrite Nat.add_0_r. split; [done|].
        intros Hn. apply Qltb_lt in Hdue. contradiction.
      * rewrite Hdue. replace (i0 + S i)%nat with (S i0 + i)%nat by lia.
        apply Hall. exact Hi.
    + specialize (IH (S i0) (S pos)).
      destruct (updateServerStates clock draws (S i0) (S pos) l) as [l' pos'].
      destruct IH as (Hlen & Hpos & Hall). simpl.
      split; [lia|]. split; [lia|].
      intros [|i] server Hi; simpl in *.
      * injection Hi as <-. rewrite !Nat.add_0_r. split.
        -- intros Hlt. apply Qltb_ge in Hdue.
           exfalso. exact (Qlt_not_le _ _ Hlt Hdue).
        -- intros _. rewrite transition_tableStep. reflexivity.
      * rewrite Hdue. replace (i0 + S i)%nat with (S i0 + i)%nat by lia.
        replace (pos + (1 + dueCount clock (S i0) (take i l)))%nat
          with (S pos + dueCount clock (S i0) (take i l))%nat by lia.
        apply Hall. exact Hi.
Qed.

(** C7.  One update tick, record by record: a record whose last state
    change is less than 5 seconds old is left as it is; for every other
    record exactly one random value is drawn (the next one of the stream)
    and the record becomes what the first matching row of the transition
    table makes of it, or stays as it is when no row matches. *)
Theorem updateServerStates_follows_table
    (clock draws : nat -> Q) (pos : nat) (l : list ServerHealth) :
  let '(l', pos') := updateServerStates clock draws 0 pos l in
  length l' = length l /\
  pos' = (pos + dueCount clock 0 l)%nat /\
  forall i server, l !! i = Some server ->
    ((clock i - lastStateChange server < 5)%Q -> l' !! i = Some server) /\
    (~ (clock i - lastStateChange server < 5)%Q ->
     l' !! i = Some (tableStep (clock i)
                               (draws (pos + dueCount clock 0 (take i l))%nat)
                               server)).
Proof. exact (updateServerStates_from clock draws l 0%nat pos). Qed.

Lemma updateServerStates_follows_table_witness :
  fst (updateServerStates (fun _ => 10%Q) (fun _ => 0%Q) 0 0 oneHealthy) !! 0%nat
  = Some (mkServerHealth 1 DEGRADED (7 # 10) (1 # 100) (2 # 10) 10 (7 # 10)).
Proof.
  generalize (updateServerStates_follows_table
                (fun _ => 10%Q) (fun _ => 0%Q) 0 oneHealthy).
  destruct (updateServerStates (fun _ => 10%Q) (fun _ => 0%Q) 0 0 oneHealthy)
    as [l' pos'].
  intros (_ & _ & H).
  destruct (H 0%nat _ eq_refl) as [_ Hdue]. simpl.
  rewrite Hdue; [reflexivity|].
  intros Hlt. vm_compute in Hlt. discriminate.
Defined.

Lemma findRecord_Some (sid : Z) (l : list ServerHealth) (i : nat)
    (server : ServerHealth) :
  list_find (fun sh => serverId sh = sid) l = Some (i, server)
  <-> firstRecord sid l i server.
Proof.
  unfold firstRecord. rewrite list_find_Some. split.
  - intros (Hi & Hid & Hmin). repeat split; [done..|].
    intros j s' Hj Hs'. destruct (Nat.le_gt_cases i j) as [|Hlt]; [done|].
    exfalso. exact (Hmin j s' Hj Hlt Hs').
  - intros (Hi & Hid & Hmin). repeat split; [done..|].
    intros j s' Hj Hlt Hs'. specialize (Hmin j s' Hj Hs'). lia.
Qed.

Lemma Qltb_compare (a b : Q) :
  Qltb a b = match (a ?= b)%Q with Lt => true | _ => false end.
Proof.
  destruct (a ?= b)%Q eqn:Hc.
  - apply Qltb_ge. apply Qeq_alt in Hc. rewrite Hc. apply Qle_refl.
  - apply Qltb_lt. apply Qlt_alt. exact Hc.
  - apply Qltb_ge. apply Qgt_alt in Hc. apply Qlt_le_weak. exact Hc.
Qed.

Lemma clampFactor_eq (f : Q) : clampFactor f = Qmax 0 (Qmin 1 f).
Proof.
  unfold clampFactor, Qmax, Qmin, GenericMinMax.gmax, GenericMinMax.gmin.
  rewrite (Qltb_compare f 1), <- (Qcompare_antisym f 1).
  destruct (f ?= 1)%Q; simpl; try reflexivity.
  rewrite Qltb_compare. destruct (0 ?= f)%Q; reflexivity.
Qed.

(** C8.  [degradeServerPerformance] on the record of a server (an Offline
    record has multiplier 0): with m the old multiplier times the factor
    clamped into [0,1], the record afterwards is Offline with multiplier 0
    when m < 0.1, Critical with multiplier m when m < 0.5, Degraded with
    multiplier m when m < 0.9, and keeps its state with multiplier m
    otherwise.  In particular a factor of 0.05 on a Healthy record whose
    multiplier is at most 1 gives m < 0.1 and an Offline record. *)
Theorem degradeServerPerformance_rederives_state
    (l : list ServerHealth) (sid : Z) (f now : Q) (i : nat)
    (server : ServerHealth) :
  firstRecord sid l i server ->
  (state server = OFFLINE -> (performanceMultiplier server == 0)%Q) ->
  let m := (performanceMultiplier server * Qmax 0 (Qmin 1 f))%Q in
  exists server',
    degradeServerPerformance l sid f now = <[i := server']> l /\
    serverId server' = serverId server /\
    ((m < 1 # 10)%Q ->
     state server' = OFFLINE /\ (performanceMultiplier server' == 0)%Q) /\
    ((1 # 10 <= m)%Q -> (m < 5 # 10)%Q ->
     state server' = CRITICAL /\ (performanceMultiplier server' == m)%Q) /\
    ((5 # 10 <= m)%Q -> (m < 9 # 10)%Q ->
     state server' = DEGRADED /\ (performanceMultiplier server' == m)%Q) /\
    ((9 # 10 <= m)%Q ->
     state server' = state server /\ (performanceMultiplier server' == m)%Q) /\
    (state server = HEALTHY -> (performanceMultiplier server <= 1)%Q ->
     (f == 5 # 100)%Q -> (m < 1 # 10)%Q /\ state server' = OFFLINE).
Proof.
  intros Hfirst Hoff m.
  assert (Hin : l !! i = Some server) by apply Hfirst.
  apply findRecord_Some in Hfirst.
  unfold degradeServerPerformance. rewrite Hfirst.
  assert (Hm5 : state server = HEALTHY -> (performanceMultiplier server <= 1)%Q ->
                (f == 5 # 100)%Q -> (m < 1 # 10)%Q).
  { intros _ Hle Hf. unfold m. rewrite Hf.
    rewrite (Q.min_r 1 (5 # 100)) by (vm_compute; discriminate).
    rewrite (Q.max_r 0 (5 # 100)) by (vm_compute; discriminate). lra. }
  destruct (decide (state server = OFFLINE)) as [Hst|Hst].
  - exists server. rewrite list_insert_id by exact Hin.
    specialize (Hoff Hst).
    assert (Hm0 : (m == 0)%Q) by (unfold m; rewrite Hoff; ring).
    split; [reflexivity|]. split; [reflexivity|].
    split; [intros _; split; [exact Hst|exact Hoff]|].
    split; [intros; exfalso; lra|].
    split; [intros; exfalso; lra|].
    split; [intros; exfalso; lra|].
    intros Hh. congruence.
  - exists (degrade f now server). split; [reflexivity|].
    unfold degrade. rewrite clampFactor_eq. fold m.
    destruct (Qltb m (1 # 10)) eqn:H1; [apply Qltb_lt in H1|apply Qltb_ge in H1];
      [|destruct (Qltb m (5 # 10)) eqn:H5;
        [apply Qltb_lt in H5|apply Qltb_ge in H5];
        [|destruct (Qltb m (9 # 10)) eqn:H9;
          [apply Qltb_lt in H9|apply Qltb_ge in H9]]];
      simpl;
      (split; [reflexivity|]);
      (split; [intros; first [exfalso; lra | split; reflexivity]|]);
      (split; [intros; first [exfalso; lra | split; reflexivity]|]);
      (split; [intros; first [exfalso; lra | split; reflexivity]|]);
      (split; [intros; first [exfalso; lra | split; reflexivity]|]);
      intros Hh Hle Hf; specialize (Hm5 Hh Hle Hf);
      first [exfalso; lra | split; [exact Hm5|reflexivity]].
Qed.

Lemma degradeServerPerformance_rederives_state_witness :
  exists server',
    degradeServerPerformance oneHealthy 1 (5 # 100) 3 = [server'] /\
    state server' = OFFLINE /\ (performanceMultiplier server' == 0)%Q.
Proof.
  assert (Hfirst : firstRecord 1 oneHealthy 0
                     (mkServerHealth 1 HEALTHY 1 (1 # 100) (2 # 10) 0 1)).
  { apply findRecord_Some. reflexivity. }
  destruct (degradeServerPerformance_rederives_state
              oneHealthy 1 (5 # 100) 3 0 _ Hfirst
              ltac:(simpl; discriminate))
    as (server' & Heq & _ & Hlow & _).
  exists server'. split; [exact Heq|].
  apply Hlow. vm_compute. reflexivity.
Defined.

Lemma transition_invariant (now rand : Q) (server : ServerHealth) :
  healthInvariant server -> healthInvariant (transition now rand server).
Proof.
  intros [Hpm Hoff]. unfold transition, enter, healthInvariant.
  destruct (state server) eqn:Hst; repeat case_Qltb;
    simpl; rewrite ?Hst; split;
    first [ exact Hpm | exact Hoff | discriminate | reflexivity
          | (split; discriminate) | idtac ].
Qed.

Lemma clamp_bounds (f : Q) : (0 <= Qmax 0 (Qmin 1 f) <= 1)%Q.
Proof.
  split.
  - apply Q.le_max_l.
  - apply Q.max_lub; [discriminate|]. apply Q.le_min_l.
Qed.

Lemma degrade_invariant (f now : Q) (server : ServerHealth) :
  healthInvariant server -> healthInvariant (degrade f now server).
Proof.
  intros [Hpm Hoff]. unfold degrade, healthInvariant.
  rewrite clampFactor_eq. pose proof (clamp_bounds f) as Hc.
  set (c := Qmax 0 (Qmin 1 f)) in *.
  assert (Hm : (0 <= performanceMultiplier server * c <= 1)%Q) by nra.
  destruct (Qltb _ (1 # 10)) eqn:H1.
  { simpl. split; [split; discriminate|reflexivity]. }
  destruct (Qltb _ (5 # 10)) eqn:H5; [simpl; split; [exact Hm|discriminate]|].
  destruct (Qltb _ (9 # 10)) eqn:H9; [simpl; split; [exact Hm|discriminate]|].
  simpl. split; [exact Hm|]. intros Hst. specialize (Hoff Hst).
  apply Qltb_ge in H9. exfalso.
  assert ((performanceMultiplier server * c == 0)%Q) by (rewrite Hoff; ring).
  lra.
Qed.

End HealthProperties.

(** ** Least Loaded *)

Section LeastLoaded.

Lemma selectBest_inv (l : list Server) :
  forall pre best ba,
  bestSoFar pre best ba ->
  bestSoFar (pre ++ l) (selectBest (length pre) l best ba).1
                       (selectBest (length pre) l best ba).2.
Proof.
  induction l as [|s l IH]; intros pre best ba Hinv; simpl.
  - rewrite app_nil_r. exact Hinv.
  - replace (pre ++ s :: l) with ((pre ++ [s]) ++ l)
      by (rewrite <- app_assoc; reflexivity).
    replace (S (length pre)) with (length (pre ++ [s]))
      by (rewrite length_app; simpl; lia).
    assert (Hba : -1 <= ba).
    { destruct best; simpl in Hinv; lia. }
    destruct (online s) eqn:Hon.
    + destruct (Z.ltb_spec ba (getAvailableCapacity s)) as [Hlt|Hge].
      * apply IH. simpl. split; [lia|]. exists s.
        split; [apply list_lookup_middle; reflexivity|].
        split; [exact Hon|]. split; [reflexivity|].
        intros j s' Hj Hon'. apply lookup_app_Some in Hj as [Hj|[Hlen Hj]].
        -- assert (getAvailableCapacity s' <= ba).
           { destruct best as [k|]; simpl in Hinv.
             - destruct Hinv as (_ & s0 & _ & _ & _ & Hall).
               apply (Hall j s' Hj Hon').
             - destruct Hinv as (-> & Hall).
               apply Hall; [|exact Hon']. eapply list_elem_of_lookup_2, Hj. }
           split; [lia|]. lia.
        -- split; [|lia].
           destruct (j - length pre)%nat; simpl in Hj; [|done].
           injection Hj as <-. lia.
      * apply IH. destruct best as [k|]; simpl in *.
        -- destruct Hinv as (Hpos & s0 & Hk & Hon0 & Hav & Hall).
           split; [exact Hpos|]. exists s0.
           split; [apply lookup_app_l_Some; exact Hk|].
           split; [exact Hon0|]. split; [exact Hav|].
           intros j s' Hj Hon'. apply lookup_app_Some in Hj as [Hj|[Hlen Hj]].
           ++ apply (Hall j s' Hj Hon').
           ++ destruct (j - length pre)%nat; simpl in Hj; [|done].
              injection Hj as <-. split; [lia|].
              intros _. apply lookup_lt_Some in Hk. lia.
        -- destruct Hinv as (-> & Hall). split; [reflexivity|].
           intros s' Hin Hon'. apply elem_of_app in Hin as [Hin|Hin].
           ++ apply Hall; assumption.
           ++ apply list_elem_of_singleton in Hin as ->. lia.
    + apply IH. destruct best as [k|]; simpl in *.
      * destruct Hinv as (Hpos & s0 & Hk & Hon0 & Hav & Hall).
        split; [exact Hpos|]. exists s0.
        split; [apply lookup_app_l_Some; exact Hk|].
        split; [exact Hon0|]. split; [exact Hav|].
        intros j s' Hj Hon'. apply lookup_app_Some in Hj as [Hj|[Hlen Hj]].
        -- apply (Hall j s' Hj Hon').
        -- destruct (j - length pre)%nat; simpl in Hj; [|done].
           injection Hj as <-. congruence.
      * destruct Hinv as (-> & Hall). split; [reflexivity|].
        intros s' Hin Hon'. apply elem_of_app in Hin as [Hin|Hin].
        -- apply Hall; assumption.
        -- apply list_elem_of_singleton in Hin as ->. congruence.
Qed.

Lemma selectBest_spec (l : list Server) :
  bestSoFar l (selectBest 0 l None (-1)).1 (selectBest 0 l None (-1)).2.
Proof.
  apply (selectBest_inv l [] None (-1)). simpl. split; [reflexivity|].
  intros s Hin. apply elem_of_nil in Hin. done.
Qed.

Lemma ascendingIds_lookup (l : list Server) :
  ascendingIds l ->
  forall k j s s', l !! k = Some s -> l !! j = Some s' -> (k <= j)%nat ->
  id s <= id s'.
Proof.
  unfold ascendingIds. induction l as [|a l IH]; intros Hs k j s s' Hk Hj Hle.
  - rewrite lookup_nil in Hk. done.
  - simpl in Hs. apply StronglySorted_inv in Hs as [Hs Hhd].
    destruct k as [|k], j as [|j]; simpl in *.
    + injection Hk as <-. injection Hj as <-. lia.
    + injection Hk as <-. rewrite List.Forall_forall in Hhd.
      assert (id a < id s'); [|lia]. apply Hhd.
      apply list_elem_of_In. apply list_elem_of_fmap. exists s'.
      split; [reflexivity|]. eapply list_elem_of_lookup_2, Hj.
    + lia.
    + apply (IH Hs k j); [done..|lia].
Qed.

Lemma map_id_alter (f : Server -> Server) (i : nat) (l : list Server) :
  (forall x, id (f x) = id x) -> map id (alter f i l) = map id l.
Proof.
  intros Hf. revert i. induction l as [|a l IH]; intros [|i]; simpl;
    [reflexivity..|rewrite Hf; reflexivity|f_equal; apply IH].
Qed.

Lemma ascendingIds_addLoadAt (i : nat) (a : Z) (l : list Server) :
  ascendingIds l -> ascendingIds (addLoadAt i a l).
Proof.
  unfold ascendingIds, addLoadAt. rewrite map_id_alter; [done|reflexivity].
Qed.

Lemma nonneg_addLoadAt (i : nat) (a : Z) (l : list Server) :
  Forall (fun s => 0 <= currentLoad s) l ->
  Forall (fun s => 0 <= currentLoad s) (addLoadAt i a l).
Proof.
  intros H. apply Forall_alter; [exact H|].
  intros s _ _. simpl. destruct (Z.ltb_spec (currentLoad s + a) 0); lia.
Qed.

Lemma addLoadAt_assign (i : nat) (a : Z) (l : list Server) (s : Server) :
  l !! i = Some s -> 0 <= currentLoad s + a -> addLoadAt i a l = assign i a l.
Proof.
  intros Hi Hnn. unfold addLoadAt, assign. apply list_alter_ext; [|reflexivity].
  intros x Hx. rewrite Hi in Hx. injection Hx as <-.
  rewrite setCurrentLoad_max. f_equal. lia.
Qed.

Lemma leastLoadedLoop_greedy (fuel : nat) :
  forall l r,
  (Z.to_nat r <= fuel)%nat ->
  ascendingIds l ->
  Forall (fun s => 0 <= currentLoad s) l ->
  exists l' rep steps u,
    leastLoadedLoop fuel l r = Some (l', rep) /\
    GreedyRun l r steps l' u /\
    (forall L, undistributed L rep = u) /\
    Forall (fun st => 0 < stepAmount st <= stepAvailable st) steps.
Proof.
  induction fuel as [|fuel IH]; intros l r Hfuel Hasc Hnn.
  - assert (r <= 0) by lia. exists l, Distributed, [], 0.
    simpl. destruct (Z.leb_spec r 0); [|lia].
    repeat split; [by constructor|constructor].
  - cbn [leastLoadedLoop]. destruct (Z.leb_spec r 0) as [Hr|Hr].
    { exists l, Distributed, [], 0. repeat split; [by constructor|constructor]. }
    pose proof (selectBest_spec l) as Hb.
    destruct (selectBest 0 l None (-1)) as [[k|] ba]; simpl in Hb.
    + destruct Hb as (Hpos & s & Hk & Hon & Hav & Hall).
      destruct (Z.leb_spec ba 0) as [Hba|Hba].
      * exists l, (InsufficientCapacity r), [], r.
        repeat split; [|constructor].
        apply greedy_stuck; [exact Hr|].
        intros s' Hin Hon'. apply list_elem_of_lookup in Hin as [j Hj].
        destruct (Hall j s' Hj Hon'). lia.
      * set (amount := Z.min r ba).
        assert (Hs0 : 0 <= currentLoad s).
        { eapply (Forall_lookup_1 _ _ _ _ Hnn Hk). }
        destruct (IH (addLoadAt k amount l) (r - amount)) as
          (l' & rep & steps & u & Hrun & Hgreedy & Hu & Hsteps).
        { unfold amount. lia. }
        { apply ascendingIds_addLoadAt, Hasc. }
        { apply nonneg_addLoadAt, Hnn. }
        exists l', rep, (mkStep (id s) amount (getAvailableCapacity s) :: steps), u.
        split; [exact Hrun|]. split; [|split; [exact Hu|]].
        -- apply (greedy_step l r k s amount); [exact Hr| |lia|unfold amount; congruence|].
           ++ split; [exact Hk|]. split; [exact Hon|].
              intros j s' Hj Hon'. destruct (Hall j s' Hj Hon') as [Hle Htie].
              split; [lia|]. intros Heq.
              apply (ascendingIds_lookup l Hasc k j); [done..|].
              apply Htie. lia.
           ++ rewrite <- (addLoadAt_assign k amount l s Hk) by (unfold amount; lia).
              exact Hgreedy.
        -- constructor; [|exact Hsteps]. simpl. unfold amount. lia.
    + destruct Hb as (-> & Hall).
      exists l, (InsufficientCapacity r), [], r.
      repeat split; [|constructor].
      apply greedy_stuck; [exact Hr|].
      intros s' Hin Hon'. specialize (Hall s' Hin Hon'). lia.
Qed.

Lemma leastLoadedSearch_inv (l : list Monolith.Server) :
  forall pre idx minRatio,
  leastSoFar pre idx minRatio ->
  (l = [] -> pre <> []) ->
  exists m,
    leastSoFar (pre ++ l)
      (Monolith.leastLoadedSearch (length pre) l idx minRatio) (Some m).
Proof.
  induction l as [|s l IH]; intros pre idx minRatio Hinv Hne; simpl.
  - rewrite app_nil_r. destruct minRatio as [m|]; [eauto|].
    destruct Hinv as [-> _]. exfalso. by apply Hne.
  - replace (pre ++ s :: l) with ((pre ++ [s]) ++ l)
      by (rewrite <- app_assoc; reflexivity).
    replace (S (length pre)) with (length (pre ++ [s]))
      by (rewrite length_app; simpl; lia).
    assert (Hne' : l = [] -> pre ++ [s] <> []).
    { intros _ H. by apply app_eq_nil in H as [_ ?]. }
    destruct (utilizationRatio_finite s) as [u Hu]. rewrite Hu.
    destruct minRatio as [m|]; simpl in *.
    + destruct Hinv as (s0 & Hidx & Hs0 & Hall).
      destruct (Qltb u m) eqn:Hlt.
      * apply Qltb_lt in Hlt. apply IH; [|exact Hne']. simpl. exists s.
        split; [apply list_lookup_middle; reflexivity|]. split; [exact Hu|].
        intros j s' Hj. apply lookup_app_Some in Hj as [Hj|[Hlen Hj]].
        -- destruct (Hall j s' Hj) as (v & Hv & Hle & _). exists v.
           split; [exact Hv|]. split; [lra|]. intros Heq. exfalso. lra.
        -- destruct (j - length pre)%nat; simpl in Hj; [|done].
           injection Hj as <-. exists u. split; [exact Hu|].
           split; [lra|]. intros _. lia.
      * apply Qltb_ge in Hlt. apply IH; [|exact Hne']. simpl. exists s0.
        split; [apply lookup_app_l_Some; exact Hidx|]. split; [exact Hs0|].
        intros j s' Hj. apply lookup_app_Some in Hj as [Hj|[Hlen Hj]].
        -- apply (Hall j s' Hj).
        -- destruct (j - length pre)%nat; simpl in Hj; [|done].
           injection Hj as <-. exists u. split; [exact Hu|].
           split; [exact Hlt|]. intros _. apply lookup_lt_Some in Hidx. lia.
    + destruct Hinv as [-> ->]. apply IH; [|exact Hne']. simpl. exists s.
      split; [reflexivity|]. split; [exact Hu|].
      intros [|j] s' Hj; simpl in Hj; [|done].
      injection Hj as <-. exists u. split; [exact Hu|].
      split; [lra|]. intros _. lia.
Qed.

Lemma leastLoadedSearch_spec (l : list Monolith.Server) :
  l <> [] ->
  exists s, isLeastUtilized l (Monolith.leastLoadedSearch 0 l 0 None) s.
Proof.
  intros Hne.
  destruct (leastLoadedSearch_inv l [] 0%nat None) as (m & s & Hk & Hs & Hall).
  - split; reflexivity.
  - intros ->. done.
  - exists s. split; [exact Hk|]. exists m. split; [exact Hs|]. exact Hall.
Qed.

(** C3, counterexample.  In the single-file simulator Least Loaded
    gives a server with 10 free units all 50 units of the request. *)
Lemma monolith_least_loaded_exceeds_capacity :
  let s := Monolith.mkServer 1 10 0 in
  exists s', Monolith.distributeLoadLeastLoaded [s] 50 = [s'] /\
    ~ (Monolith.currentLoad s' - Monolith.currentLoad s
       <= Monolith.capacity s - Monolith.currentLoad s)%Q.
Proof. eexists. split; [reflexivity|]. vm_compute. intros H. apply H. reflexivity. Qed.

(** C3, amended.  [LoadBalancer::distributeLoadLeastLoaded] of
    load_balancer.cpp, on a registry with ascending ids and non-negative
    loads and for a non-negative request, always returns, and what it does
    is a run of the greedy rule: while load remains and some online server
    has positive available capacity, the online server of greatest
    available capacity (lowest id among equals) receives
    min(remainingLoad, availableCapacity); what remains at the end is the
    amount reported undistributed; no step gives a server more than its
    available capacity at that moment.  The Least Loaded of the
    single-file simulator is another rule: the whole amount goes, in one
    step and without a cap, to the first server of smallest utilization
    ratio. *)
Theorem least_loaded_is_greedy :
  (forall l loadAmount,
     0 <= loadAmount ->
     ascendingIds l ->
     Forall (fun s => 0 <= currentLoad s) l ->
     exists l' rep steps,
       distributeLoadLeastLoaded l loadAmount = Some (l', rep) /\
       GreedyRun l loadAmount steps l' (undistributed loadAmount rep) /\
       Forall (fun st => 0 < stepAmount st <= stepAvailable st) steps) /\
  (forall l newLoad,
     l <> [] ->
     exists k s,
       isLeastUtilized l k s /\
       Monolith.distributeLoadLeastLoaded l newLoad
       = <[k := Monolith.mkServer (Monolith.id s) (Monolith.capacity s)
                   (Monolith.currentLoad s + newLoad)%Q]> l).
Proof.
  split.
  - intros l loadAmount HL Hasc Hnn. unfold distributeLoadLeastLoaded.
    destruct l as [|s0 l0].
    + exists [], NoServers, []. split; [reflexivity|]. split; [|constructor].
      simpl. destruct (Z.eq_dec loadAmount 0) as [->|].
      * apply greedy_done. lia.
      * apply greedy_stuck; [lia|]. intros s Hin. apply elem_of_nil in Hin. done.
    + destruct (leastLoadedLoop_greedy (Z.to_nat loadAmount) (s0 :: l0) loadAmount)
        as (l' & rep & steps & u & Hrun & Hgreedy & Hu & Hsteps);
        [lia|exact Hasc|exact Hnn|].
      exists l', rep, steps. rewrite Hu. auto.
  - intros l newLoad Hne. unfold Monolith.distributeLoadLeastLoaded.
    destruct (leastLoadedSearch_spec l Hne) as [s Hs].
    exists (Monolith.leastLoadedSearch 0 l 0 None), s. split; [exact Hs|].
    destruct l as [|s0 l0]; [done|].
    rewrite list_insert_alter. apply list_alter_ext; [|reflexivity].
    intros x Hx. destruct Hs as [Hk _]. rewrite Hk in Hx. injection Hx as <-.
    reflexivity.
Qed.

Lemma least_loaded_is_greedy_witness :
  exists l' rep steps,
    distributeLoadLeastLoaded [srv 1 100 90 true; srv 2 100 0 false;
                               srv 3 50 10 true] 70 = Some (l', rep) /\
    GreedyRun [srv 1 100 90 true; srv 2 100 0 false; srv 3 50 10 true] 70
              steps l' (undistributed 70 rep) /\
    Forall (fun st => 0 < stepAmount st <= stepAvailable st) steps.
Proof.
  apply (proj1 least_loaded_is_greedy); [lia| |].
  - unfold ascendingIds. simpl. repeat constructor; lia.
  - repeat constructor; simpl; lia.
Defined.

End LeastLoaded.

(** ** Termination of the distribution loops *)

Section Termination.

Lemma leastLoadedLoop_total (fuel : nat) :
  forall l r, (Z.to_nat r <= fuel)%nat -> is_Some (leastLoadedLoop fuel l r).
Proof.
  induction fuel as [|fuel IH]; intros l r Hfuel.
  - simpl. destruct (Z.leb_spec r 0); [eauto|lia].
  - cbn [leastLoadedLoop]. destruct (Z.leb_spec r 0); [eauto|].
    destruct (selectBest 0 l None (-1)) as [[k|] ba]; [|eauto].
    destruct (Z.leb_spec ba 0); [eauto|]. apply IH. lia.
Qed.

Lemma distributeLoadLeastLoaded_total (l : list Server) (loadAmount : Z) :
  is_Some (distributeLoadLeastLoaded l loadAmount).
Proof.
  unfold distributeLoadLeastLoaded. destruct l; [eauto|].
  apply leastLoadedLoop_total. lia.
Qed.

Lemma sumLoads_acc (l : list Z) (acc : Z) :
  fold_left Z.add l acc = acc + sumLoads l.
Proof.
  unfold sumLoads. revert acc. induction l as [|d l IH]; intros acc; simpl.
  - lia.
  - rewrite IH, (IH (0 + d)). lia.
Qed.

Lemma sumLoads_cons (d : Z) (l : list Z) : sumLoads (d :: l) = d + sumLoads l.
Proof. unfold sumLoads at 1. simpl. rewrite sumLoads_acc. lia. Qed.

(** One pass over the servers: the list of ideal loads keeps its length,
    every unit taken from the remainder went to some ideal load, and the
    flag is raised only when a unit was placed. *)
Lemma remainderPass_spec (l : list Server) :
  forall idealLoads r b,
  let '(idealLoads', r', b') := remainderPass l idealLoads r b in
  length idealLoads' = length idealLoads /\
  sumLoads idealLoads' + r' = sumLoads idealLoads + r /\
  r' <= r /\ (0 <= r -> 0 <= r') /\
  (b' = true -> b = true \/ r' < r).
Proof.
  induction l as [|s l IH]; intros idealLoads r b; simpl.
  - repeat split; auto with lia.
  - destruct idealLoads as [|d idealLoads]; [repeat split; auto with lia|].
    destruct (Z.ltb_spec 0 r) as [Hr|Hr]; [|repeat split; auto with lia].
    destruct (online s && (0 <? getAvailableCapacity s - d)).
    + specialize (IH idealLoads (r - 1) true).
      destruct (remainderPass l idealLoads (r - 1) true) as [[rest r'] b'].
      destruct IH as (Hlen & Hsum & Hle & Hnn & Hb).
      rewrite !sumLoads_cons. simpl. repeat split; auto with lia.
    + specialize (IH idealLoads r b).
      destruct (remainderPass l idealLoads r b) as [[rest r'] b'].
      destruct IH as (Hlen & Hsum & Hle & Hnn & Hb).
      rewrite !sumLoads_cons. simpl. repeat split; auto with lia.
Qed.

Lemma remainderLoop_total (fuel : nat) :
  forall l idealLoads r,
  (Z.to_nat r <= fuel)%nat -> is_Some (remainderLoop fuel l idealLoads r).
Proof.
  induction fuel as [|fuel IH]; intros l idealLoads r Hfuel.
  - simpl. destruct (Z.leb_spec r 0); [eauto|lia].
  - cbn [remainderLoop]. destruct (Z.leb_spec r 0); [eauto|].
    pose proof (remainderPass_spec l idealLoads r false) as Hpass.
    destruct (remainderPass l idealLoads r false) as [[idealLoads' r'] b'].
    destruct Hpass as (_ & _ & _ & _ & Hb).
    destruct b'; [|eauto]. apply IH.
    destruct (Hb eq_refl) as [|]; [done|lia].
Qed.

Lemma distributeLoadWeightedOptimization_total (l : list Server) (loadAmount : Z) :
  is_Some (distributeLoadWeightedOptimization l loadAmount).
Proof.
  unfold distributeLoadWeightedOptimization. destruct l as [|s0 l0]; [eauto|].
  destruct (Qle_bool _ 0); [eauto|].
  set (ideal := map _ _). set (r := loadAmount - sumLoads ideal).
  destruct (remainderLoop_total (Z.to_nat r) (s0 :: l0) ideal r) as [[i' r'] ->];
    [lia|eauto].
Qed.

Lemma distribute_total (algorithm : BalancingAlgorithm) (l : list Server)
    (loadAmount : Z) :
  is_Some (distribute algorithm l loadAmount).
Proof.
  destruct algorithm; simpl;
    [eauto|apply distributeLoadLeastLoaded_total
     |apply distributeLoadWeightedOptimization_total].
Qed.

End Termination.

(** ** A distribution call touches loads only *)

Section Frame.

Lemma zeroLoads_insert (l : list Server) (i : nat) (s : Server) (load : Z) :
  l !! i = Some s ->
  zeroLoads (<[i := setCurrentLoad s load]> l) = zeroLoads l.
Proof.
  unfold zeroLoads. revert i.
  induction l as [|a l IH]; intros [|i] Hi; simpl in *; try done.
  - injection Hi as ->. reflexivity.
  - f_equal. apply IH, Hi.
Qed.

Lemma zeroLoads_addLoadAt (l : list Server) (i : nat) (a : Z) :
  zeroLoads (addLoadAt i a l) = zeroLoads l.
Proof.
  unfold zeroLoads, addLoadAt. revert i.
  induction l as [|s l IH]; intros [|i]; simpl; try reflexivity.
  f_equal. apply IH.
Qed.

Lemma zeroLoads_idemp (l : list Server) : zeroLoads (zeroLoads l) = zeroLoads l.
Proof.
  unfold zeroLoads. rewrite map_map. reflexivity.
Qed.

Lemma roundRobinVisit_frame (base : Z) (idx : nat) (st : list Server * Z) :
  zeroLoads (roundRobinVisit base idx st).1 = zeroLoads st.1.
Proof.
  destruct st as [l r]. unfold roundRobinVisit.
  destruct (l !! idx) as [s|] eqn:Hi; [|reflexivity].
  destruct (online s); [|reflexivity]. simpl.
  apply zeroLoads_insert, Hi.
Qed.

Lemma roundRobin_fold_frame (base : Z) (g : nat -> nat) (steps : list nat) :
  forall st,
  zeroLoads (fold_left (fun st i => roundRobinVisit base (g i) st) steps st).1
  = zeroLoads st.1.
Proof.
  induction steps as [|i steps IH]; intros st; simpl; [reflexivity|].
  rewrite IH. apply roundRobinVisit_frame.
Qed.

Lemma distributeLoadRoundRobin_frame (l : list Server) (loadAmount : Z) :
  zeroLoads (distributeLoadRoundRobin l loadAmount).1 = zeroLoads l.
Proof.
  unfold distributeLoadRoundRobin. destruct l as [|s0 l0]; [reflexivity|].
  destruct (_ <=? _)%nat; [reflexivity|]. cbn [fst].
  apply (roundRobin_fold_frame _
           (fun i => ((firstOnline (s0 :: l0) + i) mod length (s0 :: l0))%nat)).
Qed.

Lemma leastLoadedLoop_frame (fuel : nat) :
  forall l r l' rep,
  leastLoadedLoop fuel l r = Some (l', rep) -> zeroLoads l' = zeroLoads l.
Proof.
  induction fuel as [|fuel IH]; intros l r l' rep; cbn [leastLoadedLoop].
  - destruct (r <=? 0); [|done]. intros [= <- _]. reflexivity.
  - destruct (r <=? 0); [intros [= <- _]; reflexivity|].
    destruct (selectBest 0 l None (-1)) as [[k|] ba];
      [|intros [= <- _]; reflexivity].
    destruct (ba <=? 0); [intros [= <- _]; reflexivity|].
    intros H. apply IH in H. rewrite H. apply zeroLoads_addLoadAt.
Qed.

Lemma applyLoads_frame (l : list Server) :
  forall idealLoads,
  length idealLoads = length l -> zeroLoads (applyLoads l idealLoads) = zeroLoads l.
Proof.
  unfold zeroLoads, applyLoads.
  induction l as [|s l IH]; intros [|d idealLoads] Hlen; simpl in *;
    try reflexivity; try lia.
  f_equal; [destruct (0 <? d); reflexivity|]. apply IH. lia.
Qed.

Lemma remainderLoop_length (fuel : nat) :
  forall l idealLoads r idealLoads' r',
  remainderLoop fuel l idealLoads r = Some (idealLoads', r') ->
  length idealLoads' = length idealLoads.
Proof.
  induction fuel as [|fuel IH]; intros l idealLoads r idealLoads' r';
    cbn [remainderLoop].
  - destruct (r <=? 0); [|done]. intros [= <- _]. reflexivity.
  - destruct (r <=? 0); [intros [= <- _]; reflexivity|].
    pose proof (remainderPass_spec l idealLoads r false) as Hpass.
    destruct (remainderPass l idealLoads r false) as [[i1 r1] b1].
    destruct Hpass as (Hlen & _).
    destruct b1.
    + intros H. apply IH in H. lia.
    + intros [= <- _]. exact Hlen.
Qed.

Lemma distribute_frame (algorithm : BalancingAlgorithm) (l : list Server)
    (loadAmount : Z) (l' : list Server) (rep : report) :
  distribute algorithm l loadAmount = Some (l', rep) ->
  zeroLoads l' = zeroLoads l.
Proof.
  destruct algorithm; simpl.
  - intros [= H]. rewrite <- (distributeLoadRoundRobin_frame l loadAmount).
    rewrite H. reflexivity.
  - unfold distributeLoadLeastLoaded. destruct l as [|s0 l0].
    + intros [= <- _]. reflexivity.
    + apply leastLoadedLoop_frame.
  - unfold distributeLoadWeightedOptimization. destruct l as [|s0 l0].
    + intros [= <- _]. reflexivity.
    + destruct (Qle_bool _ 0); [intros [= <- _]; reflexivity|].
      destruct (remainderLoop _ _ _ _) as [[i' r']|] eqn:Hloop; [|done].
      intros [= <- _]. apply (applyLoads_frame (s0 :: l0) i').
      apply remainderLoop_length in Hloop. rewrite Hloop, length_map.
      reflexivity.
Qed.

End Frame.

(** ** Rebalancing *)

Section Rebalance.

(** Rebalancing always returns, and its result depends on the registry
    only through the servers with their loads reset and the total load. *)
Lemma rebalanceLoads_total (lb : LoadBalancer) : is_Some (rebalanceLoads lb).
Proof.
  unfold rebalanceLoads, addSystemLoad. simpl.
  destruct (distribute_total (currentAlgorithm lb)
              (map (fun s => setCurrentLoad s 0) (servers lb))
              (getTotalLoad (servers lb))) as [[l r] ->]. eauto.
Qed.

Lemma rebalanceLoads_twice (lb lb1 : LoadBalancer) (r1 : report) :
  rebalanceLoads lb = Some (lb1, r1) ->
  getTotalLoad (servers lb1) = getTotalLoad (servers lb) ->
  rebalanceLoads lb1 = Some (lb1, r1).
Proof.
  unfold rebalanceLoads, addSystemLoad. simpl.
  fold (zeroLoads (servers lb)). fold (zeroLoads (servers lb1)).
  destruct (distribute (currentAlgorithm lb) (zeroLoads (servers lb))
              (getTotalLoad (servers lb))) as [[l r]|] eqn:Hd; [|done].
  intros [= <- <-] Htotal. simpl in *.
  apply distribute_frame in Hd as Hframe.
  rewrite Hframe, zeroLoads_idemp, Htotal, Hd. reflexivity.
Qed.

Lemma utilizationRatio_zero (i : Z) (c : Q) :
  exists u, Monolith.utilizationRatio (Monolith.mkServer i c 0) = Fin u /\
            (u == 0)%Q.
Proof.
  unfold Monolith.utilizationRatio. simpl.
  destruct (Qltb 0 c) eqn:Hc.
  - apply Qltb_lt in Hc. unfold fdiv. rewrite (Qeq_bool_pos _ Hc).
    eexists. split; [reflexivity|]. unfold Qdiv. ring.
  - exists 0%Q. split; reflexivity.
Qed.

Lemma leastLoadedSearch_zeroed (l : list Monolith.Server) :
  forall i idx m, (m == 0)%Q ->
  Monolith.leastLoadedSearch i (zeroed l) idx (Some m) = idx.
Proof.
  induction l as [|s l IH]; intros i idx m Hm; simpl; [reflexivity|].
  destruct (utilizationRatio_zero (Monolith.id s) (Monolith.capacity s))
    as (u & -> & Hu).
  simpl. replace (Qltb u m) with false; [apply IH, Hm|].
  symmetry. apply Qltb_ge. rewrite Hu, Hm. apply Qle_refl.
Qed.

Lemma leastLoadedSearch_zeroed_first (l : list Monolith.Server) :
  Monolith.leastLoadedSearch 0 (zeroed l) 0 None = 0%nat.
Proof.
  destruct l as [|s l]; simpl; [reflexivity|].
  destruct (utilizationRatio_zero (Monolith.id s) (Monolith.capacity s))
    as (u & -> & Hu).
  simpl. apply leastLoadedSearch_zeroed, Hu.
Qed.

Lemma sumQ_zeroed (l : list Monolith.Server) (acc : Q) :
  (fold_left (fun t s => t + Monolith.currentLoad s) (zeroed l) acc == acc)%Q.
Proof.
  revert acc. induction l as [|s l IH]; intros acc; simpl; [reflexivity|].
  rewrite IH. ring.
Qed.

Lemma sameServers_refl (l : list Monolith.Server) : sameServers l l.
Proof.
  unfold sameServers. induction l; constructor; [|assumption].
  repeat split; reflexivity.
Qed.

Lemma monolith_least_loaded_zeroed (l : list Monolith.Server) (T : Q) :
  Monolith.distributeLoadLeastLoaded (zeroed l) T
  = alter (Monolith.addLoad T) 0%nat (zeroed l).
Proof.
  unfold Monolith.distributeLoadLeastLoaded.
  rewrite leastLoadedSearch_zeroed_first. destruct (zeroed l); reflexivity.
Qed.

Lemma zeroed_alter (l : list Monolith.Server) (T : Q) :
  zeroed (alter (Monolith.addLoad T) 0%nat (zeroed l)) = zeroed l.
Proof.
  destruct l as [|s l]; [reflexivity|]. unfold zeroed. simpl.
  f_equal. rewrite map_map. reflexivity.
Qed.

Lemma sumQ_alter_zeroed (l : list Monolith.Server) (T : Q) :
  l <> [] ->
  (Monolith.sumQ Monolith.currentLoad
     (alter (Monolith.addLoad T) 0%nat (zeroed l)) == T)%Q.
Proof.
  destruct l as [|s l]; [done|]. intros _.
  unfold Monolith.sumQ.
  change (alter (Monolith.addLoad T) 0%nat (zeroed (s :: l)))
    with (Monolith.mkServer (Monolith.id s) (Monolith.capacity s) (0 + T)
          :: zeroed l).
  cbn [fold_left Monolith.currentLoad]. rewrite sumQ_zeroed. ring.
Qed.

Lemma monolith_rebalance_unfold (lb : Monolith.LoadBalancer) :
  Monolith.selectedAlgorithm lb = 1 ->
  Monolith.rebalance lb
  = Some (Monolith.withServers lb
            (alter (Monolith.addLoad
                      (Monolith.sumQ Monolith.currentLoad (Monolith.servers lb)))
                   0%nat (zeroed (Monolith.servers lb)))).
Proof.
  intros Halg. unfold Monolith.rebalance, Monolith.distributeLoad.
  cbn [Monolith.selectedAlgorithm Monolith.withServers Monolith.servers].
  rewrite Halg. fold (zeroed (Monolith.servers lb)).
  rewrite monolith_least_loaded_zeroed. reflexivity.
Qed.

Lemma monolith_rebalance_least_loaded (lb : Monolith.LoadBalancer) :
  Monolith.selectedAlgorithm lb = 1 ->
  exists lb1 lb2,
    Monolith.rebalance lb = Some lb1 /\
    Monolith.rebalance lb1 = Some lb2 /\
    sameServers (Monolith.servers lb1) (Monolith.servers lb2).
Proof.
  intros Halg. eexists. eexists.
  split; [apply monolith_rebalance_unfold, Halg|].
  split; [apply monolith_rebalance_unfold, Halg|].
  cbn [Monolith.withServers Monolith.servers]. rewrite zeroed_alter.
  destruct (Monolith.servers lb) as [|s0 l0] eqn:Hl; [constructor|].
  set (T := Monolith.sumQ Monolith.currentLoad (s0 :: l0)).
  pose proof (sumQ_alter_zeroed (s0 :: l0) T ltac:(done)) as HT1.
  set (T1 := Monolith.sumQ _ _) in *.
  change (zeroed (s0 :: l0))
    with (Monolith.mkServer (Monolith.id s0) (Monolith.capacity s0) 0
          :: zeroed l0).
  constructor; [|apply sameServers_refl].
  unfold Monolith.addLoad.
  cbn [Monolith.id Monolith.capacity Monolith.currentLoad].
  split; [reflexivity|]. split; [reflexivity|].
  rewrite HT1. reflexivity.
Qed.

(** C5, counterexample.  The single-file simulator on Round Robin,
    total load 10 on two servers: the first rebalance leaves loads
    [10, 0], the second one, with the same policy and the same total
    load, leaves [0, 10]. *)
Lemma monolith_round_robin_rebalance_moves_load :
  exists lb1 lb2,
    Monolith.rebalance monolithTwo = Some lb1 /\
    Monolith.rebalance lb1 = Some lb2 /\
    Monolith.selectedAlgorithm lb1 = Monolith.selectedAlgorithm monolithTwo /\
    map Monolith.currentLoad (Monolith.servers lb1) = [10%Q; 0%Q] /\
    map Monolith.currentLoad (Monolith.servers lb2) = [0%Q; 10%Q] /\
    ~ sameServers (Monolith.servers lb1) (Monolith.servers lb2).
Proof.
  eexists. eexists. split; [vm_compute; reflexivity|].
  split; [vm_compute; reflexivity|].
  split; [reflexivity|]. split; [reflexivity|]. split; [reflexivity|].
  intros H. inversion H as [|x y l l' (_ & _ & Hload) _]; subst.
  vm_compute in Hload. discriminate.
Qed.

(** C5, amended.  [LoadBalancer::rebalanceLoads] always returns, and when
    the first rebalance has left the total load as it was, a second
    rebalance under the same policy returns the very same balancer and
    report.  In the single-file simulator two successive rebalances under
    Least Loaded leave the same loads on the same servers. *)
Theorem rebalance_twice :
  (forall lb, exists lb1 r1,
     rebalanceLoads lb = Some (lb1, r1) /\
     currentAlgorithm lb1 = currentAlgorithm lb /\
     (getTotalLoad (servers lb1) = getTotalLoad (servers lb) ->
      rebalanceLoads lb1 = Some (lb1, r1))) /\
  (forall lb, Monolith.selectedAlgorithm lb = 1 ->
     exists lb1 lb2,
       Monolith.rebalance lb = Some lb1 /\
       Monolith.rebalance lb1 = Some lb2 /\
       sameServers (Monolith.servers lb1) (Monolith.servers lb2)).
Proof.
  split; [|exact monolith_rebalance_least_loaded].
  intros lb. destruct (rebalanceLoads_total lb) as [[lb1 r1] Hr].
  exists lb1, r1. split; [exact Hr|]. split.
  - unfold rebalanceLoads, addSystemLoad in Hr.
    destruct (distribute _ _ _) as [[l r]|]; [|done].
    injection Hr as <- _. reflexivity.
  - apply rebalanceLoads_twice, Hr.
Qed.

Lemma rebalance_twice_witness :
  let lb := mkLoadBalancer [srv 1 100 30 true; srv 2 50 0 true; srv 3 80 1 true]
                           ROUND_ROBIN 4 10 in
  exists lb1 r1, rebalanceLoads lb = Some (lb1, r1) /\
                 rebalanceLoads lb1 = Some (lb1, r1).
Proof.
  intros lb.
  destruct (proj1 rebalance_twice lb) as (lb1 & r1 & Hr & _ & Hagain).
  exists lb1, r1. split; [exact Hr|]. apply Hagain.
  vm_compute in Hr. injection Hr as <- _. reflexivity.
Defined.

End Rebalance.

(** ** The two Weighted Optimization formulations *)

Section DoubleRounding.
Import PrimFloat.

(** Where the exact product of the model and the double product of the
    machine part.  With the capacities 14 and 30 and a request of 22 the
    exact share of the second server is 15, and the double product lies
    below it, so that its truncation is 14.  With the capacities 96 and 32,
    whose sum is a power of two, and a request of 24 the double product is
    the share 18. *)
Remark double_product_below_share :
  ltb (Binary64.doubleShare 30 44 22) 15 = true /\
  eqb (Binary64.doubleShare 96 128 24) 18 = true.
Proof. split; reflexivity. Qed.

End DoubleRounding.

Section WeightedOptimization.

(** C4, counterexample.  Two servers of capacity 100, the first one
    with load 50, and a request of 10: load_balancer.cpp splits the
    request by capacity and ends with loads [55, 5]; the single-file
    simulator levels utilization and ends with loads [50, 10]. *)
Lemma weighted_formulations_differ :
  exists l1 rep,
    distributeLoadWeightedOptimization halfLoaded 10 = Some (l1, rep) /\
    map currentLoad l1 = [55; 5] /\
    Forall2 Qeq
      (map Monolith.currentLoad
         (Monolith.distributeLoadOptimization (map toMonolith halfLoaded) 10))
      [50%Q; 10%Q] /\
    ~ sameLoads l1
        (Monolith.distributeLoadOptimization (map toMonolith halfLoaded) 10).
Proof.
  eexists. eexists. split; [vm_compute; reflexivity|].
  split; [reflexivity|]. split.
  - vm_compute. repeat constructor.
  - intros H. inversion H as [|a b l m Hload _]; subst.
    vm_compute in Hload. discriminate.
Qed.

Lemma sumCapacity_acc (l : list Server) (acc : Z) :
  fold_left (fun t s => t + capacity s) l acc = acc + sumCapacity l.
Proof.
  unfold sumCapacity. revert acc.
  induction l as [|s l IH]; intros acc; simpl; [lia|].
  rewrite IH, (IH (0 + capacity s)). lia.
Qed.

Lemma sumCapacity_cons (s : Server) (l : list Server) :
  sumCapacity (s :: l) = capacity s + sumCapacity l.
Proof. unfold sumCapacity at 1. simpl. rewrite sumCapacity_acc. lia. Qed.

Lemma sumCapacity_nonneg (l : list Server) :
  Forall fresh l -> 0 <= sumCapacity l.
Proof.
  induction 1 as [|s l (_ & _ & _ & Hc) _ IH]; [reflexivity|].
  rewrite sumCapacity_cons. lia.
Qed.

Lemma totalEffectiveCapacity_fresh (l : list Server) :
  Forall fresh l ->
  forall acc,
  (fold_left (fun total s =>
                if online s then total + getEffectiveCapacity s else total)
             l acc == acc + inject_Z (sumCapacity l))%Q.
Proof.
  induction 1 as [|s l (Hon & Hpm & _ & _) _ IH]; intros acc; simpl.
  - unfold sumCapacity. simpl. ring.
  - rewrite Hon, IH, sumCapacity_cons, inject_Z_plus.
    unfold getEffectiveCapacity. rewrite Hon, Hpm. ring.
Qed.

Lemma static_cast_int_inject (q : Q) (z : Z) :
  (q == inject_Z z)%Q -> static_cast_int q = z.
Proof.
  destruct q as [n d]. unfold Qeq, static_cast_int. simpl.
  intros H. rewrite Z.mul_1_r in H. subst n.
  apply Z.quot_mul. discriminate.
Qed.

Lemma exact_share (L c C : Z) :
  0 < C -> (C | L * c) ->
  (inject_Z c / inject_Z C * inject_Z L == inject_Z (L * c / C))%Q.
Proof.
  intros HC [k Hk]. rewrite Hk, Z.div_mul by lia.
  assert (HCq : ~ (inject_Z C == 0)%Q).
  { unfold Qeq. simpl. lia. }
  assert (Hq : (inject_Z L * inject_Z c == inject_Z k * inject_Z C)%Q).
  { rewrite <- !inject_Z_mult, Hk. reflexivity. }
  field_simplify_eq; [|exact HCq]. rewrite (Qmult_comm (inject_Z c)), Hq.
  ring.
Qed.

Lemma idealLoad_fresh (total : Q) (L C : Z) (s : Server) :
  fresh s -> 0 < C -> (total == inject_Z C)%Q ->
  (C | L * capacity s) -> 0 <= L <= C ->
  idealLoad total L s = L * capacity s / C.
Proof.
  intros (Hon & Hpm & Hload & Hcap) HC Htotal Hdiv HL.
  unfold idealLoad, getAvailableCapacity, getEffectiveCapacity.
  rewrite Hon, Hload.
  rewrite (static_cast_int_inject _ (L * capacity s / C)).
  - destruct (Z.ltb_spec (capacity s - 0) (L * capacity s / C)) as [Hlt|]; [|done].
    exfalso. assert (L * capacity s / C <= capacity s); [|lia].
    apply Z.div_le_upper_bound; [lia|]. nia.
  - rewrite Hpm, Htotal, Qmult_1_r. apply exact_share; assumption.
Qed.

Lemma sum_exact_shares (L C : Z) (l : list Server) :
  C <> 0 ->
  Forall (fun s => (C | L * capacity s)) l ->
  C * sumLoads (map (fun s => L * capacity s / C) l) = L * sumCapacity l.
Proof.
  intros HC. induction 1 as [|s l [k Hk] _ IH]; simpl.
  - unfold sumLoads, sumCapacity. simpl. lia.
  - rewrite sumLoads_cons, sumCapacity_cons, Hk, Z.div_mul by exact HC. lia.
Qed.

Lemma zip_with_map_r {A B C : Type} (f : A -> B -> C) (h : A -> B) (l : list A) :
  zip_with f l (map h l) = map (fun a => f a (h a)) l.
Proof. induction l as [|a l IH]; simpl; [reflexivity|]. f_equal. exact IH. Qed.

Lemma zip_with_map_r_gen {A A' B C : Type} (f : A' -> B -> C) (g : A -> A')
    (h : A -> B) (l : list A) :
  zip_with f (map g l) (map h l) = map (fun a => f (g a) (h a)) l.
Proof. induction l as [|a l IH]; simpl; [reflexivity|]. f_equal. exact IH. Qed.

Lemma zip_with_map_l {A B C : Type} (f : B -> A -> C) (h : A -> B) (l : list A) :
  zip_with f (map h l) l = map (fun a => f (h a) a) l.
Proof. induction l as [|a l IH]; simpl; [reflexivity|]. f_equal. exact IH. Qed.

Lemma Forall2_map_both {A B C : Type} (R : B -> C -> Prop)
    (f : A -> B) (g : A -> C) (l : list A) :
  Forall (fun a => R (f a) (g a)) l -> Forall2 R (map f l) (map g l).
Proof. induction 1; simpl; constructor; assumption. Qed.

(** What load_balancer.cpp does on fresh servers when every share is
    exact. *)
Lemma weighted_fresh (l : list Server) (L : Z) :
  l <> [] -> Forall fresh l ->
  0 <= L <= sumCapacity l ->
  Forall (fun s => (sumCapacity l | L * capacity s)) l ->
  distributeLoadWeightedOptimization l L
  = Some (map (fun s => (if 0 <? L * capacity s / sumCapacity l
                         then setCurrentLoad s (currentLoad s + L * capacity s / sumCapacity l)
                         else s)) l,
          Distributed).
Proof.
  intros Hne Hfresh HL Hdiv.
  set (C := sumCapacity l) in *.
  assert (HC : 0 < C).
  { destruct l as [|s0 l0]; [done|]. unfold C. rewrite sumCapacity_cons.
    apply Forall_cons in Hfresh as [(_ & _ & _ & Hc) Hrest].
    pose proof (sumCapacity_nonneg l0 Hrest). lia. }
  assert (Htotal : (totalEffectiveCapacity l == inject_Z C)%Q).
  { unfold totalEffectiveCapacity. rewrite totalEffectiveCapacity_fresh by done.
    fold C. ring. }
  assert (Hpos : Qle_bool (totalEffectiveCapacity l) 0 = false).
  { apply not_true_is_false. intros H. apply Qle_bool_iff in H.
    rewrite Htotal in H. unfold Qle in H. simpl in H. lia. }
  assert (Hideal : map (idealLoad (totalEffectiveCapacity l) L) l
                   = map (fun s => L * capacity s / C) l).
  { apply map_ext_in. intros s Hin. apply idealLoad_fresh; try done.
    - rewrite List.Forall_forall in Hfresh. apply Hfresh, Hin.
    - rewrite List.Forall_forall in Hdiv. apply Hdiv, Hin. }
  assert (Hsum : sumLoads (map (fun s => L * capacity s / C) l) = L).
  { pose proof (sum_exact_shares L C l ltac:(lia) Hdiv) as H. fold C in H. nia. }
  assert (Hbody :
    (if Qle_bool (totalEffectiveCapacity l) 0 then Some (l, NoEffectiveCapacity)
     else
       match remainderLoop
               (Z.to_nat (L - sumLoads (map (idealLoad (totalEffectiveCapacity l) L) l)))
               l (map (idealLoad (totalEffectiveCapacity l) L) l)
               (L - sumLoads (map (idealLoad (totalEffectiveCapacity l) L) l)) with
       | Some (idealLoads', remainingLoad') =>
           Some (applyLoads l idealLoads',
                 if 0 <? remainingLoad' then InsufficientCapacity remainingLoad'
                 else Distributed)
       | None => None
       end)
    = Some (map (fun s => (if 0 <? L * capacity s / C
                           then setCurrentLoad s (currentLoad s + L * capacity s / C)
                           else s)) l,
            Distributed)).
  { rewrite Hpos, Hideal, Hsum, Z.sub_diag. simpl remainderLoop.
    unfold applyLoads. rewrite zip_with_map_r. reflexivity. }
  unfold distributeLoadWeightedOptimization.
  destruct l as [|s0 l0]; [done|]. exact Hbody.
Qed.

Lemma sumQ_acc (f : Monolith.Server -> Q) (l : list Monolith.Server) (acc : Q) :
  (fold_left (fun t s => t + f s) l acc == acc + Monolith.sumQ f l)%Q.
Proof.
  unfold Monolith.sumQ. revert acc.
  induction l as [|s l IH]; intros acc; simpl; [ring|].
  rewrite IH, (IH (0 + f s)%Q). ring.
Qed.

Lemma sumQ_cons (f : Monolith.Server -> Q) (s : Monolith.Server)
    (l : list Monolith.Server) :
  (Monolith.sumQ f (s :: l) == f s + Monolith.sumQ f l)%Q.
Proof. unfold Monolith.sumQ at 1. simpl. rewrite sumQ_acc. ring. Qed.

Lemma sumQ_capacity_toMonolith (l : list Server) :
  (Monolith.sumQ Monolith.capacity (map toMonolith l)
   == inject_Z (sumCapacity l))%Q.
Proof.
  induction l as [|s l IH]; [reflexivity|].
  simpl map. rewrite sumQ_cons, IH, sumCapacity_cons, inject_Z_plus.
  reflexivity.
Qed.

Lemma sumQ_load_toMonolith (l : list Server) :
  Forall fresh l ->
  (Monolith.sumQ Monolith.currentLoad (map toMonolith l) == 0)%Q.
Proof.
  induction 1 as [|s l (_ & _ & Hload & _) _ IH]; [reflexivity|].
  simpl map. rewrite sumQ_cons, IH. simpl. rewrite Hload. reflexivity.
Qed.

Lemma sumPositive_acc (ds : list Q) (acc : Q) :
  Forall (fun d => (0 < d)%Q) ds ->
  (fold_left (fun t d => if Qltb 0 d then t + d else t) ds acc
   == acc + fold_right Qplus 0 ds)%Q.
Proof.
  intros H. revert acc. induction H as [|d ds Hd _ IH]; intros acc; simpl.
  - ring.
  - apply Qltb_lt in Hd. rewrite Hd, IH. ring.
Qed.

Lemma sum_scaled (u : Q) (l : list Server) :
  (fold_right Qplus 0
     (map (fun s => u * inject_Z (capacity s) - inject_Z 0) l)
   == u * inject_Z (sumCapacity l))%Q.
Proof.
  induction l as [|s l IH]; simpl.
  - unfold sumCapacity. simpl. ring.
  - rewrite IH, sumCapacity_cons, inject_Z_plus. ring.
Qed.

(** The first branch of [Monolith.distributeLoadOptimization], with its
    two [zip_with] loops written as one map. *)
Lemma monolith_optimization_positive (ml : list Monolith.Server) (newLoad : Q) :
  ml <> [] ->
  let u := ((Monolith.sumQ Monolith.currentLoad ml + newLoad)
            / Monolith.sumQ Monolith.capacity ml)%Q in
  let diff := fun m : Monolith.Server =>
                (u * Monolith.capacity m - Monolith.currentLoad m)%Q in
  let P := Monolith.sumPositive (map diff ml) in
  Qltb 0 P = true ->
  Monolith.distributeLoadOptimization ml newLoad
  = map (fun m => if Qltb 0 (diff m)
                  then Monolith.addLoad (newLoad * (diff m / P)) m
                  else m) ml.
Proof.
  intros Hne u diff P HP.
  assert (Hbody :
    (let totalCapacity := Monolith.sumQ Monolith.capacity ml in
     let totalCurrentLoad := Monolith.sumQ Monolith.currentLoad ml in
     let targetUtilization := ((totalCurrentLoad + newLoad) / totalCapacity)%Q in
     let targetLoads :=
       map (fun s => (targetUtilization * Monolith.capacity s)%Q) ml in
     let loadDifferences :=
       zip_with (fun t s => (t - Monolith.currentLoad s)%Q) targetLoads ml in
     let totalPositiveDifference := Monolith.sumPositive loadDifferences in
     if Qltb 0 totalPositiveDifference then
       zip_with (fun s d =>
                   if Qltb 0 d
                   then Monolith.addLoad (newLoad * (d / totalPositiveDifference))%Q s
                   else s)
                ml loadDifferences
     else Monolith.distributeLoadLeastLoaded ml newLoad)
    = map (fun m => if Qltb 0 (diff m)
                    then Monolith.addLoad (newLoad * (diff m / P)) m
                    else m) ml).
  { cbv zeta. rewrite zip_with_map_l. fold u. fold diff. fold P. rewrite HP.
    apply zip_with_map_r. }
  unfold Monolith.distributeLoadOptimization.
  destruct ml as [|m0 ml0]; [done|]. exact Hbody.
Qed.

(** C4, amended.  On a non-empty registry of fresh servers (online, full
    performance, no load, positive capacity) whose total capacity is a
    power of two, at most 2^30, for a positive request that fits the total
    capacity and splits into whole shares
    loadAmount * capacity / totalCapacity, the Weighted Optimization of
    load_balancer.cpp places everything, and it and the one of the
    single-file simulator leave the same load on every server: that
    share.

    The power of two is what makes the statement one about the doubles of
    the two programs and not only about exact quotients.  A quotient of a
    whole number below 2^31 by a power of two is a binary fraction, and the
    values both programs compute on the way ([capacity / total], its
    product with the request, [targetUtilization], the target loads, their
    sum, each [difference / totalPositiveDifference] and the load to add)
    are such fractions or whole numbers below 2^31; a double holds each of
    them exactly, and an operation on doubles whose exact result is a
    double returns it.  For another total capacity a double product can
    fall just below the whole share (see [double_product_below_share]);
    load_balancer.cpp truncates it and hands the missing unit to another
    server, and the two programs part. *)
Theorem weighted_formulations_agree_on_fresh (l : list Server) (L : Z) :
  l <> [] -> Forall fresh l ->
  (exists m, 0 <= m <= 30 /\ sumCapacity l = 2 ^ m) ->
  0 < L <= sumCapacity l ->
  Forall (fun s => (sumCapacity l | L * capacity s)) l ->
  exists l1,
    distributeLoadWeightedOptimization l L = Some (l1, Distributed) /\
    sameLoads l1
      (Monolith.distributeLoadOptimization (map toMonolith l) (inject_Z L)) /\
    Forall2 (fun s s1 => currentLoad s1 = L * capacity s / sumCapacity l) l l1.
Proof.
  intros Hne Hfresh _ HL Hdiv.
  eexists. split; [apply weighted_fresh; [done|done|lia|done]|].
  set (C := sumCapacity l) in *.
  assert (HC : 0 < C) by lia.
  assert (Hshare : forall s, s ∈ l ->
            currentLoad (if 0 <? L * capacity s / C
                         then setCurrentLoad s (currentLoad s + L * capacity s / C)
                         else s) = L * capacity s / C).
  { intros s Hin. rewrite Forall_forall in Hfresh.
    destruct (Hfresh s Hin) as (_ & _ & Hload & Hcap).
    destruct (Z.ltb_spec 0 (L * capacity s / C)) as [Hlt|Hge].
    - simpl. rewrite Hload. destruct (Z.ltb_spec (0 + L * capacity s / C) 0); lia.
    - rewrite Hload. assert (0 <= L * capacity s / C); [|lia].
      apply Z.div_pos; nia. }
  split.
  2:{ rewrite <- (map_id l) at 1. apply Forall2_map_both.
      apply Forall_forall. intros s Hin. apply Hshare, Hin. }
  set (ml := map toMonolith l).
  set (u := ((Monolith.sumQ Monolith.currentLoad ml + inject_Z L)
             / Monolith.sumQ Monolith.capacity ml)%Q).
  assert (HCq : ~ (inject_Z C == 0)%Q) by (unfold Qeq; simpl; lia).
  assert (Hu : (u == inject_Z L / inject_Z C)%Q).
  { unfold u, ml. rewrite sumQ_capacity_toMonolith, sumQ_load_toMonolith by done.
    fold C. field. exact HCq. }
  assert (Hupos : (0 < u)%Q).
  { rewrite Hu. apply Qlt_shift_div_l.
    - unfold Qlt. simpl. lia.
    - unfold Qlt. simpl. lia. }
  set (diff := fun m : Monolith.Server =>
                 (u * Monolith.capacity m - Monolith.currentLoad m)%Q).
  assert (Hdiff : forall s, s ∈ l ->
            (diff (toMonolith s) == u * inject_Z (capacity s))%Q).
  { intros s Hin. rewrite Forall_forall in Hfresh.
    destruct (Hfresh s Hin) as (_ & _ & Hload & _).
    unfold diff. simpl. rewrite Hload. unfold inject_Z at 2. ring. }
  assert (Hdpos : forall s, s ∈ l -> (0 < diff (toMonolith s))%Q).
  { intros s Hin. rewrite (Hdiff s Hin). rewrite Forall_forall in Hfresh.
    destruct (Hfresh s Hin) as (_ & _ & _ & Hcap).
    apply Qmult_lt_0_compat; [exact Hupos|]. unfold Qlt. simpl. lia. }
  set (P := Monolith.sumPositive (map diff ml)).
  assert (HP : (P == inject_Z L)%Q).
  { unfold P, Monolith.sumPositive, ml. rewrite map_map, sumPositive_acc.
    - assert (Hsum : forall l0, (forall s, s ∈ l0 -> s ∈ l) ->
                (fold_right Qplus 0 (map (fun s => diff (toMonolith s)) l0)
                 == u * inject_Z (sumCapacity l0))%Q).
      { induction l0 as [|s l0 IH]; intros Hsub; simpl.
        - unfold sumCapacity. simpl. ring.
        - rewrite IH, sumCapacity_cons, inject_Z_plus, Hdiff.
          + ring.
          + apply Hsub. left.
          + intros s' Hs'. apply Hsub. right. exact Hs'. }
      rewrite Hsum by done. fold C. rewrite Hu. field. exact HCq.
    - apply Forall_forall. intros d Hd.
      apply list_elem_of_fmap in Hd as (s & -> & Hin). apply Hdpos, Hin. }
  assert (HPpos : Qltb 0 P = true).
  { apply Qltb_lt. rewrite HP. unfold Qlt. simpl. lia. }
  rewrite (monolith_optimization_positive ml (inject_Z L));
    [|unfold ml; destruct l; [done|discriminate]|exact HPpos].
  fold u diff P. unfold ml. rewrite map_map.
  apply Forall2_map_both. apply Forall_forall. intros s Hin.
  rewrite (Hshare s Hin).
  assert (Hd := Hdpos s Hin). apply Qltb_lt in Hd.
  change (u * Monolith.capacity (toMonolith s)
          - Monolith.currentLoad (toMonolith s))%Q with (diff (toMonolith s)).
  rewrite Hd. unfold Monolith.addLoad. cbn [Monolith.currentLoad toMonolith].
  rewrite Forall_forall in Hfresh, Hdiv.
  destruct (Hfresh s Hin) as (_ & _ & Hload & _).
  rewrite Hload, (Hdiff s Hin), HP, Hu.
  rewrite <- (exact_share L (capacity s) C HC (Hdiv s Hin)).
  change (inject_Z 0) with 0%Q. field. split; [exact HCq|].
  unfold Qeq. simpl. lia.
Qed.

Lemma weighted_formulations_agree_on_fresh_witness :
  exists l1,
    distributeLoadWeightedOptimization
      [srv 1 96 0 true; srv 2 32 0 true] 24 = Some (l1, Distributed) /\
    sameLoads l1
      (Monolith.distributeLoadOptimization
         (map toMonolith [srv 1 96 0 true; srv 2 32 0 true]) (inject_Z 24)) /\
    Forall2 (fun s s1 => currentLoad s1
                         = 24 * capacity s
                           / sumCapacity [srv 1 96 0 true; srv 2 32 0 true])
            [srv 1 96 0 true; srv 2 32 0 true] l1.
Proof.
  apply weighted_formulations_agree_on_fresh.
  - discriminate.
  - repeat constructor.
  - exists 7. split; [lia|reflexivity].
  - vm_compute. split; [reflexivity|discriminate].
  - repeat constructor.
    + exists 18. reflexivity.
    + exists 6. reflexivity.
Defined.

End WeightedOptimization.

(** ** Conservation of load *)

Section Conservation.

Lemma getTotalLoad_acc (l : list Server) (acc : Z) :
  fold_left (fun total s => total + currentLoad s) l acc = acc + getTotalLoad l.
Proof.
  unfold getTotalLoad. revert acc.
  induction l as [|s l IH]; intros acc; simpl; [lia|].
  rewrite IH, (IH (0 + currentLoad s)). lia.
Qed.

Lemma getTotalLoad_cons (s : Server) (l : list Server) :
  getTotalLoad (s :: l) = currentLoad s + getTotalLoad l.
Proof. unfold getTotalLoad at 1. simpl. rewrite getTotalLoad_acc. lia. Qed.

Lemma getTotalLoad_insert (l : list Server) (i : nat) (s s' : Server) :
  l !! i = Some s ->
  getTotalLoad (<[i := s']> l) = getTotalLoad l - currentLoad s + currentLoad s'.
Proof.
  revert i. induction l as [|a l IH]; intros [|i] Hi; simpl in *; try done.
  - injection Hi as ->. rewrite !getTotalLoad_cons. lia.
  - rewrite !getTotalLoad_cons, (IH i Hi). lia.
Qed.

Lemma getTotalLoad_addLoadAt (l : list Server) (i : nat) (s : Server) (a : Z) :
  l !! i = Some s -> 0 <= currentLoad s + a ->
  getTotalLoad (addLoadAt i a l) = getTotalLoad l + a.
Proof.
  intros Hi Ha. unfold addLoadAt.
  rewrite (list_alter_ext _ (fun _ => setCurrentLoad s (currentLoad s + a)) l l i).
  - rewrite <- list_insert_alter, (getTotalLoad_insert l i s _ Hi).
    simpl. destruct (Z.ltb_spec (currentLoad s + a) 0); lia.
  - intros x Hx. rewrite Hi in Hx. injection Hx as <-. reflexivity.
  - reflexivity.
Qed.

Lemma sum_perServerDelta (before after : list Server) :
  length before = length after ->
  sumLoads (perServerDelta before after)
  = getTotalLoad after - getTotalLoad before.
Proof.
  unfold perServerDelta. revert after.
  induction before as [|a before IH]; intros [|b after] Hlen; simpl in *;
    try lia; [reflexivity|].
  rewrite sumLoads_cons, !getTotalLoad_cons, IH by lia. lia.
Qed.

Lemma zeroLoads_length (l l' : list Server) :
  zeroLoads l' = zeroLoads l -> length l' = length l.
Proof.
  intros H. apply (f_equal length) in H. unfold zeroLoads in H.
  rewrite !length_map in H. exact H.
Qed.

(** Least Loaded places or reports every unit, whatever the registry. *)
Lemma leastLoadedLoop_conserves (fuel : nat) :
  forall l r l' rep,
  Forall (fun s => 0 <= currentLoad s) l -> 0 <= r ->
  leastLoadedLoop fuel l r = Some (l', rep) ->
  exists u, (forall L, undistributed L rep = u) /\
            getTotalLoad l' + u = getTotalLoad l + r.
Proof.
  induction fuel as [|fuel IH]; intros l r l' rep Hnn Hr; cbn [leastLoadedLoop].
  - destruct (Z.leb_spec r 0); [|done]. intros [= <- <-]. exists 0.
    split; [reflexivity|lia].
  - destruct (Z.leb_spec r 0).
    { intros [= <- <-]. exists 0. split; [reflexivity|lia]. }
    pose proof (selectBest_spec l) as Hb.
    destruct (selectBest 0 l None (-1)) as [[k|] ba]; simpl in Hb.
    + destruct Hb as (Hpos & s & Hk & Hon & Hav & _).
      destruct (Z.leb_spec ba 0).
      { intros [= <- <-]. exists r. split; [reflexivity|lia]. }
      intros Hloop. apply IH in Hloop as (u & Hu & Htotal).
      * exists u. split; [exact Hu|]. rewrite Htotal.
        rewrite (getTotalLoad_addLoadAt l k s _ Hk); [lia|].
        pose proof (Forall_lookup_1 _ _ _ _ Hnn Hk). simpl in *. lia.
      * apply nonneg_addLoadAt, Hnn.
      * lia.
    + intros [= <- <-]. exists r. split; [reflexivity|lia].
Qed.

Lemma distributeLoadLeastLoaded_conserves (l : list Server) (loadAmount : Z)
    (l' : list Server) (rep : report) :
  Forall (fun s => 0 <= currentLoad s) l -> 0 <= loadAmount ->
  distributeLoadLeastLoaded l loadAmount = Some (l', rep) ->
  sumLoads (perServerDelta l l') + undistributed loadAmount rep = loadAmount.
Proof.
  intros Hnn HL Hd.
  rewrite sum_perServerDelta
    by (symmetry; apply zeroLoads_length,
          (distribute_frame LEAST_LOADED l loadAmount l' rep Hd)).
  unfold distributeLoadLeastLoaded in Hd. destruct l as [|s0 l0].
  - injection Hd as <- <-. simpl. unfold getTotalLoad. simpl. lia.
  - apply leastLoadedLoop_conserves in Hd as (u & Hu & Htotal); [|done..].
    rewrite Hu. lia.
Qed.

End Conservation.

(** ** Round Robin when every server is online *)

Lemma to_size_t_small (z : Z) : 0 <= z <= INT_MAX -> to_size_t z = z.
Proof.
  unfold to_size_t, INT_MAX. intros H. apply Z.mod_small. lia.
Qed.

Lemma to_int_small (z : Z) : 0 <= z <= INT_MAX -> to_int z = z.
Proof.
  unfold to_int, INT_MAX. intros H. rewrite Z.mod_small; lia.
Qed.

Lemma firstOnline_head (s : Server) (l : list Server) :
  online s = true -> firstOnline (s :: l) = 0%nat.
Proof. intros H. simpl. rewrite H. reflexivity. Qed.

Lemma sumLoads_app (a b : list Z) : sumLoads (a ++ b) = sumLoads a + sumLoads b.
Proof.
  induction a as [|x a IH]; simpl.
  - unfold sumLoads at 2. simpl. lia.
  - rewrite !sumLoads_cons, IH. lia.
Qed.

Lemma sum_roundRobinShare (n loadAmount : Z) (k : nat) :
  0 <= loadAmount mod n ->
  sumLoads (map (roundRobinShare n loadAmount) (seq 0 k))
  = Z.of_nat k * (loadAmount / n) + Z.min (Z.of_nat k) (loadAmount mod n).
Proof.
  intros Hmod. induction k as [|k IH].
  - simpl. unfold sumLoads. simpl. lia.
  - rewrite seq_S, map_app, sumLoads_app, IH. simpl.
    rewrite sumLoads_cons. unfold sumLoads at 1. simpl.
    unfold roundRobinShare.
    destruct (Z.ltb_spec (Z.of_nat k) (loadAmount mod n)); lia.
Qed.

Lemma getTotalLoad_imap_shares (sh : nat -> Z) (l : list Server) :
  (forall i, 0 <= sh i) ->
  Forall (fun s => 0 <= currentLoad s) l ->
  forall k0,
  getTotalLoad (imap (fun i s => setCurrentLoad s (currentLoad s + sh (k0 + i)%nat)) l)
  = getTotalLoad l + sumLoads (map sh (seq k0 (length l))).
Proof.
  intros Hsh. induction 1 as [|s l Hs _ IH]; intros k0.
  - simpl. unfold getTotalLoad, sumLoads. simpl. lia.
  - rewrite imap_cons. simpl length. simpl seq. simpl map.
    rewrite !getTotalLoad_cons, sumLoads_cons.
    rewrite (imap_ext _ (fun i s => setCurrentLoad s
                                      (currentLoad s + sh (S k0 + i)%nat)) l).
    + rewrite IH. simpl. rewrite Nat.add_0_r. specialize (Hsh k0).
      destruct (Z.ltb_spec (currentLoad s + sh k0) 0); lia.
    + intros i x _. simpl. do 3 f_equal. lia.
Qed.

Lemma roundRobinShare_nonneg (n loadAmount : Z) (i : nat) :
  0 < n -> 0 <= loadAmount -> 0 <= roundRobinShare n loadAmount i.
Proof.
  intros Hn HL. unfold roundRobinShare.
  pose proof (Z.div_pos loadAmount n HL Hn).
  destruct (_ <? _); lia.
Qed.

Lemma onlineCount_all (l : list Server) :
  Forall (fun s => online s = true) l -> onlineCount l = Z.of_nat (length l).
Proof.
  intros Hon. unfold onlineCount. do 2 f_equal.
  induction Hon as [|x l0 Hx _ IH]; [reflexivity|].
  rewrite filter_cons. destruct (decide (online x = true)); [|done].
  f_equal. exact IH.
Qed.

Section RoundRobinAllOnline.

Variable l : list Server.
Variable loadAmount : Z.
Hypothesis Hne : l <> [].
Hypothesis Hon : Forall (fun s => online s = true) l.
Hypothesis HL : 0 <= loadAmount <= INT_MAX.

Lemma length_pos : (0 < length l)%nat.
Proof using Hne.
  clear -Hne. destruct l; [congruence|simpl; lia].
Qed.

Lemma roundRobin_fold_online (base rem0 : Z) :
  0 <= rem0 ->
  forall k, (k <= length l)%nat ->
  fold_left (fun st i => roundRobinVisit base ((0 + i) mod length l)%nat st)
            (seq 0 k) (l, rem0)
  = (imap (fun i s =>
             if (i <? k)%nat
             then setCurrentLoad s
                    (currentLoad s
                     + (base + (if Z.of_nat i <? rem0 then 1 else 0)))
             else s) l,
     Z.max 0 (rem0 - Z.of_nat k)).
Proof using Hon.
  intros Hrem. induction k as [|k IH]; intros Hk.
  - simpl. f_equal; [|lia]. apply list_eq. intros i.
    rewrite list_lookup_imap. destruct (l !! i); reflexivity.
  - rewrite seq_S, fold_left_app, IH by lia. simpl fold_left.
    rewrite Nat.mod_small by lia. unfold roundRobinVisit.
    destruct (lookup_lt_is_Some_2 l k ltac:(lia)) as [s Hs].
    rewrite list_lookup_imap, Hs. simpl. rewrite Nat.ltb_irrefl.
    rewrite (Forall_lookup_1 _ _ _ _ Hon Hs).
    f_equal.
    + apply list_eq. intros i. rewrite list_lookup_imap.
      destruct (decide (i = k)) as [->|Hik].
      * rewrite list_lookup_insert_eq by (rewrite length_imap; lia).
        rewrite Hs. simpl.
        destruct (Nat.ltb_spec k (S k)); [|lia]. do 2 f_equal.
        destruct (Z.ltb_spec 0 (Z.max 0 (rem0 - Z.of_nat k)));
          destruct (Z.ltb_spec (Z.of_nat k) rem0); lia.
      * rewrite list_lookup_insert_ne by done. rewrite list_lookup_imap.
        destruct (l !! i) as [x|]; [|reflexivity]. simpl.
        destruct (Nat.ltb_spec i k), (Nat.ltb_spec i (S k)); try lia; reflexivity.
    + destruct (Z.ltb_spec 0 (Z.max 0 (rem0 - Z.of_nat k))); lia.
Qed.

(** Server [i] receives [roundRobinShare n loadAmount i]. *)
Lemma distributeLoadRoundRobin_all_online :
  distributeLoadRoundRobin l loadAmount
  = (imap (fun i s =>
             setCurrentLoad s
               (currentLoad s
                + roundRobinShare (Z.of_nat (length l)) loadAmount i)) l,
     Distributed).
Proof using Hne Hon HL.
  pose proof length_pos as Hn.
  assert (Hfirst : firstOnline l = 0%nat).
  { destruct Hon as [|s0 l0 Hs0 _]; [done|]. apply firstOnline_head, Hs0. }
  assert (Hbody :
    (let n := length l in
     let startIdx := firstOnline l in
     if (n <=? startIdx)%nat then (l, NoOnlineServers)
     else
       (fst (fold_left
               (fun st i =>
                  roundRobinVisit
                    (to_int (to_size_t loadAmount / Z.of_nat n))
                    ((startIdx + i) mod n)%nat st)
               (seq 0 n)
               (l, to_int (to_size_t loadAmount mod Z.of_nat n))),
        Distributed))
    = (imap (fun i s =>
               setCurrentLoad s
                 (currentLoad s
                  + roundRobinShare (Z.of_nat (length l)) loadAmount i)) l,
       Distributed)).
  { cbv zeta. rewrite Hfirst.
    destruct (Nat.leb_spec (length l) 0); [lia|].
    rewrite to_size_t_small by done.
    set (n := Z.of_nat (length l)).
    assert (Hdiv : 0 <= loadAmount / n <= INT_MAX).
    { split; [apply Z.div_pos; lia|].
      transitivity loadAmount; [|lia].
      apply Z.div_le_upper_bound; [lia|]. nia. }
    assert (Hmod : 0 <= loadAmount mod n <= INT_MAX).
    { pose proof (Z.mod_pos_bound loadAmount n ltac:(lia)).
      pose proof (Z.mod_le loadAmount n ltac:(lia) ltac:(lia)). lia. }
    rewrite !to_int_small by done.
    rewrite roundRobin_fold_online by (done || lia). cbn [fst]. f_equal.
    apply imap_ext. intros i x Hi. simpl.
    destruct (Nat.ltb_spec i (length l)) as [|Hge]; [reflexivity|].
    apply lookup_lt_Some in Hi. lia. }
  unfold distributeLoadRoundRobin. destruct l; [done|exact Hbody].
Qed.

Hypothesis Hnn : Forall (fun s => 0 <= currentLoad s) l.

(** Round Robin places the whole request. *)
Lemma distributeLoadRoundRobin_conserves :
  let '(l', rep) := distributeLoadRoundRobin l loadAmount in
  sumLoads (perServerDelta l l') + undistributed loadAmount rep = loadAmount.
Proof using Hne Hon HL Hnn.
  rewrite distributeLoadRoundRobin_all_online.
  pose proof length_pos as Hn.
  rewrite sum_perServerDelta by (rewrite length_imap; reflexivity).
  pose proof (getTotalLoad_imap_shares
                (roundRobinShare (Z.of_nat (length l)) loadAmount) l
                ltac:(intros; apply roundRobinShare_nonneg; lia) Hnn 0%nat)
    as Htotal.
  cbn [Nat.add] in Htotal. rewrite Htotal.
  pose proof (Z.mod_pos_bound loadAmount (Z.of_nat (length l)) ltac:(lia)).
  rewrite sum_roundRobinShare by lia. simpl.
  pose proof (Z.div_mod loadAmount (Z.of_nat (length l)) ltac:(lia)). lia.
Qed.

(** When [loadAmount] is divisible by the number of servers, every server
    receives [loadAmount / onlineCount]. *)
Lemma distributeLoadRoundRobin_even_split :
  loadAmount mod onlineCount l = 0 ->
  forall i s, l !! i = Some s ->
  (distributeLoadRoundRobin l loadAmount).1 !! i
  = Some (withLoad s (currentLoad s + loadAmount / onlineCount l)).
Proof using Hne Hon HL Hnn.
  intros Hmod i s Hi. rewrite (onlineCount_all l Hon) in *.
  rewrite distributeLoadRoundRobin_all_online. cbn [fst].
  rewrite list_lookup_imap, Hi. simpl. f_equal.
  rewrite setCurrentLoad_max. f_equal.
  unfold roundRobinShare. rewrite Hmod.
  pose proof length_pos as Hn.
  assert (0 <= loadAmount / Z.of_nat (length l)) by (apply Z.div_pos; lia).
  pose proof (Forall_lookup_1 _ _ _ _ Hnn Hi) as Hs. simpl in Hs.
  destruct (Z.ltb_spec (Z.of_nat i) 0); lia.
Qed.

End RoundRobinAllOnline.

(** ** Weighted Optimization places or reports every unit *)

Section WeightedConservation.

Lemma static_cast_int_nonneg (q : Q) :
  (0 <= q)%Q -> 0 <= static_cast_int q /\ (inject_Z (static_cast_int q) <= q)%Q.
Proof.
  destruct q as [n d]. unfold Qle, static_cast_int. simpl.
  rewrite !Z.mul_1_r. intros Hn.
  rewrite Z.quot_div_nonneg by lia. split.
  - apply Z.div_pos; lia.
  - rewrite Z.mul_comm. apply Z.mul_div_le. lia.
Qed.

Lemma totalEffectiveCapacity_onlineEffective (l : list Server) :
  (totalEffectiveCapacity l == onlineEffective l)%Q.
Proof.
  unfold totalEffectiveCapacity.
  assert (H : forall acc,
            (fold_left (fun total s =>
                          if online s then total + getEffectiveCapacity s else total)
                       l acc == acc + onlineEffective l)%Q).
  { induction l as [|s l IH]; intros acc; simpl; [ring|].
    rewrite IH. destruct (online s); ring. }
  rewrite H. ring.
Qed.

Lemma getEffectiveCapacity_nonneg (s : Server) :
  withinCapacity s -> (0 <= getEffectiveCapacity s)%Q.
Proof.
  intros [Hload Hpm]. unfold getEffectiveCapacity.
  destruct (online s); [|apply Qle_refl].
  apply Qmult_le_0_compat; [|exact Hpm]. unfold Qle. simpl. lia.
Qed.

Lemma idealLoad_bounds (total : Q) (L : Z) (s : Server) :
  (0 < total)%Q -> 0 <= L -> withinCapacity s ->
  0 <= idealLoad total L s /\
  (inject_Z (idealLoad total L s)
   <= (if online s then getEffectiveCapacity s else 0) / total * inject_Z L)%Q.
Proof.
  intros Htotal HL Hwf. pose proof (getEffectiveCapacity_nonneg s Hwf) as Heff.
  destruct Hwf as [Hload Hpm]. unfold idealLoad, getAvailableCapacity.
  destruct (online s) eqn:Hon.
  - assert (Hq : (0 <= getEffectiveCapacity s / total * inject_Z L)%Q).
    { apply Qmult_le_0_compat.
      - apply Qle_shift_div_l; [exact Htotal|]. rewrite Qmult_0_l. exact Heff.
      - unfold Qle. simpl. lia. }
    destruct (static_cast_int_nonneg _ Hq) as [H0 Hle].
    destruct (Z.ltb_spec (capacity s - currentLoad s)
                (static_cast_int (getEffectiveCapacity s / total * inject_Z L)))
      as [Hlt|Hge].
    + split; [lia|]. eapply Qle_trans; [|exact Hle].
      rewrite <- Zle_Qle. lia.
    + split; [exact H0|exact Hle].
  - split; [lia|]. unfold Qdiv. rewrite !Qmult_0_l. apply Qle_refl.
Qed.

Lemma sum_idealLoad_le (total : Q) (L : Z) (l : list Server) :
  (0 < total)%Q -> 0 <= L -> Forall withinCapacity l ->
  Forall (fun d => 0 <= d) (map (idealLoad total L) l) /\
  (inject_Z (sumLoads (map (idealLoad total L) l))
   <= onlineEffective l / total * inject_Z L)%Q.
Proof.
  intros Htotal HL. induction 1 as [|s l Hs _ [IHnn IHle]]; simpl.
  - split; [constructor|]. unfold sumLoads, Qdiv. simpl.
    rewrite !Qmult_0_l. apply Qle_refl.
  - destruct (idealLoad_bounds total L s Htotal HL Hs) as [H0 Hle].
    split; [constructor; assumption|].
    rewrite sumLoads_cons, inject_Z_plus.
    assert (Hsplit :
      (((if online s then getEffectiveCapacity s else 0) + onlineEffective l)
       / total * inject_Z L
       == (if online s then getEffectiveCapacity s else 0) / total * inject_Z L
          + onlineEffective l / total * inject_Z L)%Q).
    { field. intros H. rewrite H in Htotal. exact (Qlt_irrefl _ Htotal). }
    rewrite Hsplit. apply Qplus_le_compat; assumption.
Qed.

Lemma remainderPass_nonneg (l : list Server) :
  forall idealLoads r b,
  Forall (fun d => 0 <= d) idealLoads ->
  Forall (fun d => 0 <= d) (remainderPass l idealLoads r b).1.1.
Proof.
  induction l as [|s l IH]; intros idealLoads r b Hnn; simpl; [exact Hnn|].
  destruct idealLoads as [|d idealLoads]; [exact Hnn|].
  apply Forall_cons in Hnn as [Hd Hnn].
  destruct (0 <? r); [|constructor; assumption].
  destruct (online s && (0 <? getAvailableCapacity s - d)).
  - specialize (IH idealLoads (r - 1) true Hnn).
    destruct (remainderPass l idealLoads (r - 1) true) as [[rest r'] b'].
    simpl in *. constructor; [lia|exact IH].
  - specialize (IH idealLoads r b Hnn).
    destruct (remainderPass l idealLoads r b) as [[rest r'] b'].
    simpl in *. constructor; assumption.
Qed.

Lemma remainderLoop_conserves (fuel : nat) :
  forall l idealLoads r idealLoads' r',
  Forall (fun d => 0 <= d) idealLoads -> 0 <= r ->
  remainderLoop fuel l idealLoads r = Some (idealLoads', r') ->
  Forall (fun d => 0 <= d) idealLoads' /\ 0 <= r' /\
  sumLoads idealLoads' + r' = sumLoads idealLoads + r.
Proof.
  induction fuel as [|fuel IH]; intros l idealLoads r idealLoads' r' Hnn Hr;
    cbn [remainderLoop].
  - destruct (r <=? 0); [|done]. intros [= <- <-]. auto.
  - destruct (r <=? 0); [intros [= <- <-]; auto|].
    pose proof (remainderPass_spec l idealLoads r false) as Hpass.
    pose proof (remainderPass_nonneg l idealLoads r false Hnn) as Hnn'.
    destruct (remainderPass l idealLoads r false) as [[i1 r1] b1].
    destruct Hpass as (_ & Hsum & _ & Hr1 & _). simpl in Hnn'.
    destruct b1.
    + intros H. apply IH in H as (? & ? & ?); [|done|lia].
      repeat split; [done|done|lia].
    + intros [= <- <-]. repeat split; [done|lia|lia].
Qed.

Lemma getTotalLoad_applyLoads (l : list Server) :
  forall idealLoads,
  length idealLoads = length l ->
  Forall (fun s => 0 <= currentLoad s) l ->
  Forall (fun d => 0 <= d) idealLoads ->
  getTotalLoad (applyLoads l idealLoads) = getTotalLoad l + sumLoads idealLoads.
Proof.
  unfold applyLoads.
  induction l as [|s l IH]; intros [|d idealLoads] Hlen Hl Hd; simpl in *;
    try lia.
  - unfold getTotalLoad, sumLoads. simpl. lia.
  - apply Forall_cons in Hl as [Hs Hl]. apply Forall_cons in Hd as [Hd0 Hd].
    rewrite !getTotalLoad_cons, sumLoads_cons, IH by (done || lia).
    destruct (Z.ltb_spec 0 d); simpl.
    + destruct (Z.ltb_spec (currentLoad s + d) 0); lia.
    + lia.
Qed.

(** On servers within their capacity Weighted Optimization places or
    reports every unit. *)
Lemma distributeLoadWeightedOptimization_conserves (l : list Server)
    (loadAmount : Z) (l' : list Server) (rep : report) :
  Forall withinCapacity l -> 0 <= loadAmount ->
  distributeLoadWeightedOptimization l loadAmount = Some (l', rep) ->
  sumLoads (perServerDelta l l') + undistributed loadAmount rep = loadAmount.
Proof.
  intros Hwf HL Hd.
  rewrite sum_perServerDelta
    by (symmetry; apply zeroLoads_length,
          (distribute_frame WEIGHTED_OPTIMIZATION l loadAmount l' rep Hd)).
  assert (Hbody :
    (if Qle_bool (totalEffectiveCapacity l) 0 then Some (l, NoEffectiveCapacity)
     else
       match remainderLoop
               (Z.to_nat (loadAmount
                          - sumLoads (map (idealLoad (totalEffectiveCapacity l) loadAmount) l)))
               l (map (idealLoad (totalEffectiveCapacity l) loadAmount) l)
               (loadAmount
                - sumLoads (map (idealLoad (totalEffectiveCapacity l) loadAmount) l)) with
       | Some (idealLoads', remainingLoad') =>
           Some (applyLoads l idealLoads',
                 if 0 <? remainingLoad' then InsufficientCapacity remainingLoad'
                 else Distributed)
       | None => None
       end) = Some (l', rep) ->
    getTotalLoad l' - getTotalLoad l + undistributed loadAmount rep = loadAmount).
  { destruct (Qle_bool (totalEffectiveCapacity l) 0) eqn:Htot.
    { intros [= <- <-]. simpl. lia. }
    assert (Htotal : (0 < totalEffectiveCapacity l)%Q).
    { apply Qnot_le_lt. intros Hle. apply Qle_bool_iff in Hle. congruence. }
    destruct (sum_idealLoad_le (totalEffectiveCapacity l) loadAmount l Htotal HL Hwf)
      as [Hnn Hle].
    assert (Hr0 : sumLoads (map (idealLoad (totalEffectiveCapacity l) loadAmount) l)
                  <= loadAmount).
    { rewrite Zle_Qle. eapply Qle_trans; [exact Hle|].
      rewrite <- totalEffectiveCapacity_onlineEffective.
      apply Qle_lteq. right. field.
      intros H. rewrite H in Htotal. exact (Qlt_irrefl _ Htotal). }
    destruct (remainderLoop _ _ _ _) as [[i' r']|] eqn:Hloop; [|done].
    intros [= <- <-].
    pose proof (remainderLoop_length _ _ _ _ _ _ Hloop) as Hlen.
    apply remainderLoop_conserves in Hloop as (Hnn' & Hr' & Hsum); [|done|lia].
    rewrite getTotalLoad_applyLoads.
    - destruct (Z.ltb_spec 0 r'); simpl; lia.
    - rewrite Hlen, length_map. reflexivity.
    - eapply Forall_impl; [exact Hwf|]. intros s [? _]. lia.
    - exact Hnn'. }
  unfold distributeLoadWeightedOptimization in Hd. destruct l as [|s0 l0].
  - injection Hd as <- <-. simpl. unfold getTotalLoad. simpl. lia.
  - apply Hbody, Hd.
Qed.

(** Every policy places or reports every unit when all servers are online
    and within their capacity. *)
Lemma distribute_conserves (algorithm : BalancingAlgorithm) (l : list Server)
    (loadAmount : Z) (l' : list Server) (rep : report) :
  Forall (fun s => online s = true) l -> Forall withinCapacity l ->
  0 <= loadAmount <= INT_MAX ->
  distribute algorithm l loadAmount = Some (l', rep) ->
  sumLoads (perServerDelta l l') + undistributed loadAmount rep = loadAmount.
Proof.
  intros Hon Hwf HL Hd.
  assert (Hnn : Forall (fun s => 0 <= currentLoad s) l).
  { eapply Forall_impl; [exact Hwf|]. intros s [? _]. lia. }
  destruct algorithm; simpl in Hd.
  - injection Hd as Hd. destruct l as [|s0 l0].
    + simpl in Hd. injection Hd as <- <-. simpl. unfold sumLoads. simpl. lia.
    + pose proof (distributeLoadRoundRobin_conserves (s0 :: l0) loadAmount
                    ltac:(done) Hon HL Hnn) as H.
      rewrite Hd in H. exact H.
  - apply distributeLoadLeastLoaded_conserves; [done|lia|done].
  - apply distributeLoadWeightedOptimization_conserves; [done|lia|done].
Qed.

(** With an online server above its capacity the available capacity is
    negative and enters the sum of the ideal loads: a request of 10 adds
    60 units to the other server, and nothing is reported. *)
Example weighted_optimization_overloaded_server :
  exists l', distributeLoadWeightedOptimization overloaded 10
             = Some (l', Distributed) /\
             perServerDelta overloaded l' = [0; 60].
Proof. eexists. split; vm_compute; reflexivity. Qed.

End WeightedConservation.

(** ** Round Robin with an offline server *)

(** C1.  Round Robin on a registry with an offline server: the request is
    for 10 units, the only online server receives 5, and nothing is
    reported as undistributed; per-server increases plus the reported
    shortfall add up to 5, not to the 10 requested. *)
Theorem round_robin_loses_offline_share :
  let '(after, r) := distributeLoadRoundRobin oneOffline 10 in
  r = Distributed /\
  perServerDelta oneOffline after = [5; 0] /\
  sumLoads (perServerDelta oneOffline after) + undistributed 10 r = 5.
Proof. vm_compute. auto. Qed.

(** C2.  One server of two is online and 10 is divisible by the online
    count 1, so every online server should receive 10/1 = 10; the code
    divides by the size of the registry and the online server receives 5. *)
Theorem round_robin_divides_by_registry_size :
  onlineCount oneOffline = 1 /\
  (10 mod onlineCount oneOffline = 0) /\
  perServerDelta oneOffline (fst (distributeLoadRoundRobin oneOffline 10))
  = [5; 0].
Proof. vm_compute. auto. Qed.

(** ** The registry invariant and removal *)

Section Registry.

Lemma getTotalLoad_delete (l : list Server) (i : nat) (s : Server) :
  l !! i = Some s -> getTotalLoad (delete i l) = getTotalLoad l - currentLoad s.
Proof.
  revert i. induction l as [|a l IH]; intros [|i] Hi; simpl in *; try done.
  - injection Hi as ->. rewrite getTotalLoad_cons. lia.
  - rewrite !getTotalLoad_cons, (IH i Hi). lia.
Qed.

(** Removing a server keeps the total load, up to what the policy reports
    as undistributed, when the remaining servers are online and within
    their capacity. *)
Lemma removeServer_conserves (lb : LoadBalancer) (serverId : Z) (i : nat)
    (s : Server) :
  firstWithId serverId (servers lb) i s ->
  delete i (servers lb) <> [] ->
  Forall (fun x => online x = true) (delete i (servers lb)) ->
  Forall withinCapacity (delete i (servers lb)) ->
  0 < currentLoad s <= INT_MAX ->
  exists lb' rep,
    removeServer lb serverId = Some (lb', true) /\
    distribute (currentAlgorithm lb) (delete i (servers lb)) (currentLoad s)
    = Some (servers lb', rep) /\
    getTotalLoad (servers lb') + undistributed (currentLoad s) rep
    = getTotalLoad (servers lb).
Proof.
  intros Hfirst Hne Hon Hwf Hload.
  assert (Hi : servers lb !! i = Some s) by apply Hfirst.
  apply findServer_Some in Hfirst.
  destruct (distribute_total (currentAlgorithm lb) (delete i (servers lb))
              (currentLoad s)) as [[l' rep] Hd].
  exists (withServers (withServers lb (delete i (servers lb))) l'), rep.
  split; [|split; [exact Hd|]].
  - unfold removeServer. rewrite Hfirst. simpl.
    destruct (delete i (servers lb)) as [|x rest] eqn:Hdel; [done|].
    destruct (Z.ltb_spec 0 (currentLoad s)); [|lia].
    unfold addSystemLoad. simpl. rewrite Hd. reflexivity.
  - simpl.
    pose proof (distribute_conserves (currentAlgorithm lb) (delete i (servers lb))
                  (currentLoad s) l' rep Hon Hwf ltac:(lia) Hd) as Hc.
    rewrite sum_perServerDelta in Hc
      by (symmetry; apply zeroLoads_length, (distribute_frame _ _ _ _ _ Hd)).
    rewrite (getTotalLoad_delete _ _ _ Hi) in Hc. lia.
Qed.

(** C6.  With an offline server among the remaining ones the load of the
    removed server is not all re-injected.  Server 3, which carries 10
    units, is removed from a Round Robin balancer whose remaining servers
    are one online server with 100 free units and one offline server: the
    total load falls from 10 to 5. *)
Theorem remove_server_loses_load :
  getTotalLoad (servers threeServers) = 10 /\
  exists lb', removeServer threeServers 3 = Some (lb', true) /\
    map currentLoad (servers lb') = [5; 0] /\
    getTotalLoad (servers lb') = 5.
Proof. split; [reflexivity|]. eexists. vm_compute. auto. Qed.

(** In the single-file simulator the Round Robin cursor is not moved when
    the last server is removed: with the cursor on that server, the
    re-injection indexes the vector past its end. *)
Example monolith_remove_server_cursor_past_end :
  Monolith.removeServer
    (Monolith.mkLoadBalancer
       [Monolith.mkServer 1 100 0; Monolith.mkServer 2 100 10] 0 1)
  = None.
Proof. reflexivity. Qed.

Lemma map_id_zeroLoads (l : list Server) : map id (zeroLoads l) = map id l.
Proof. unfold zeroLoads. rewrite map_map. reflexivity. Qed.

Lemma frame_ids (l l' : list Server) :
  zeroLoads l' = zeroLoads l -> map id l' = map id l.
Proof.
  intros H. rewrite <- (map_id_zeroLoads l'), H. apply map_id_zeroLoads.
Qed.

Lemma setCurrentLoad_nonneg (s : Server) (load : Z) :
  0 <= currentLoad (setCurrentLoad s load).
Proof. simpl. destruct (Z.ltb_spec load 0); lia. Qed.

Lemma roundRobin_fold_nonneg (base : Z) (g : nat -> nat) (steps : list nat) :
  forall st,
  Forall (fun s => 0 <= currentLoad s) st.1 ->
  Forall (fun s => 0 <= currentLoad s)
         (fold_left (fun st i => roundRobinVisit base (g i) st) steps st).1.
Proof.
  induction steps as [|i steps IH]; intros st Hnn; simpl; [exact Hnn|].
  apply IH. destruct st as [l r]. unfold roundRobinVisit.
  destruct (l !! g i) as [s|]; [|exact Hnn].
  destruct (online s); [|exact Hnn]. simpl.
  apply Forall_insert; [exact Hnn|]. apply setCurrentLoad_nonneg.
Qed.

Lemma distributeLoadRoundRobin_nonneg (l : list Server) (loadAmount : Z) :
  Forall (fun s => 0 <= currentLoad s) l ->
  Forall (fun s => 0 <= currentLoad s) (distributeLoadRoundRobin l loadAmount).1.
Proof.
  intros Hnn. unfold distributeLoadRoundRobin.
  destruct l as [|s0 l0]; [exact Hnn|].
  destruct (_ <=? _)%nat; [exact Hnn|]. cbn [fst].
  apply (roundRobin_fold_nonneg _
           (fun i => ((firstOnline (s0 :: l0) + i) mod length (s0 :: l0))%nat)).
  exact Hnn.
Qed.

Lemma applyLoads_nonneg (l : list Server) (idealLoads : list Z) :
  Forall (fun s => 0 <= currentLoad s) l ->
  Forall (fun s => 0 <= currentLoad s) (applyLoads l idealLoads).
Proof.
  unfold applyLoads. intros H. revert idealLoads.
  induction H as [|s l Hs _ IH]; intros [|d idealLoads]; simpl;
    try constructor; [|apply IH].
  destruct (0 <? d); [|exact Hs]. apply setCurrentLoad_nonneg.
Qed.

Lemma leastLoadedLoop_nonneg (fuel : nat) :
  forall l r l' rep,
  Forall (fun s => 0 <= currentLoad s) l ->
  leastLoadedLoop fuel l r = Some (l', rep) ->
  Forall (fun s => 0 <= currentLoad s) l'.
Proof.
  induction fuel as [|fuel IH]; intros l r l' rep Hnn; cbn [leastLoadedLoop].
  - destruct (r <=? 0); [|done]. intros [= <- _]. exact Hnn.
  - destruct (r <=? 0); [intros [= <- _]; exact Hnn|].
    destruct (selectBest 0 l None (-1)) as [[k|] ba];
      [|intros [= <- _]; exact Hnn].
    destruct (ba <=? 0); [intros [= <- _]; exact Hnn|].
    apply IH, nonneg_addLoadAt, Hnn.
Qed.

Lemma distribute_nonneg (algorithm : BalancingAlgorithm) (l : list Server)
    (loadAmount : Z) (l' : list Server) (rep : report) :
  Forall (fun s => 0 <= currentLoad s) l ->
  distribute algorithm l loadAmount = Some (l', rep) ->
  Forall (fun s => 0 <= currentLoad s) l'.
Proof.
  intros Hnn. destruct algorithm; simpl.
  - intros [= H]. apply (f_equal fst) in H. simpl in H. subst l'.
    apply distributeLoadRoundRobin_nonneg, Hnn.
  - unfold distributeLoadLeastLoaded. destruct l as [|s0 l0].
    + intros [= <- _]. exact Hnn.
    + apply leastLoadedLoop_nonneg, Hnn.
  - unfold distributeLoadWeightedOptimization. destruct l as [|s0 l0].
    + intros [= <- _]. exact Hnn.
    + destruct (Qle_bool _ 0); [intros [= <- _]; exact Hnn|].
      destruct (remainderLoop _ _ _ _) as [[i' r']|]; [|done].
      intros [= <- _]. apply (applyLoads_nonneg (s0 :: l0)), Hnn.
Qed.

Lemma StronglySorted_delete {A : Type} (R : A -> A -> Prop) (l : list A) :
  StronglySorted R l -> forall i, StronglySorted R (delete i l).
Proof.
  induction 1 as [|a l Hs IH Hhd]; intros [|i]; simpl; try constructor; auto.
  apply Forall_delete, Hhd.
Qed.

Lemma map_delete {A B : Type} (f : A -> B) (l : list A) (i : nat) :
  map f (delete i l) = delete i (map f l).
Proof.
  revert i. induction l as [|a l IH]; intros [|i]; simpl; try reflexivity.
  f_equal. apply IH.
Qed.

Lemma ascendingIds_delete (l : list Server) (i : nat) :
  ascendingIds l -> ascendingIds (delete i l).
Proof.
  unfold ascendingIds. intros Hs. rewrite map_delete.
  apply StronglySorted_delete, Hs.
Qed.

Lemma registryInvariant_distribute (lb : LoadBalancer) (l' : list Server) :
  registryInvariant lb ->
  zeroLoads l' = zeroLoads (servers lb) ->
  Forall (fun s => 0 <= currentLoad s) l' ->
  registryInvariant (withServers lb l').
Proof.
  intros (Hasc & Hlt & _) Hframe Hnn. unfold registryInvariant, ascendingIds.
  simpl. pose proof (frame_ids _ _ Hframe) as Hids.
  split; [rewrite Hids; exact Hasc|]. split; [|exact Hnn].
  apply Forall_forall. intros s Hin.
  assert (Hid : id s ∈ map id (servers lb)).
  { rewrite <- Hids. apply list_elem_of_fmap. eauto. }
  apply list_elem_of_fmap in Hid as (s0 & -> & Hin0).
  rewrite Forall_forall in Hlt. apply Hlt, Hin0.
Qed.

(** The operations of the balancer keep the registry invariant. *)
Lemma registryInvariant_addServer (lb : LoadBalancer) (cap : Z) :
  registryInvariant lb -> registryInvariant (addServer lb cap).
Proof.
  intros (Hasc & Hlt & Hnn). unfold registryInvariant, ascendingIds. simpl.
  split; [|split].
  - rewrite map_app. apply StronglySorted_app_2.
    + intros x y Hx Hy. apply list_elem_of_fmap in Hx as (s & -> & Hin).
      apply list_elem_of_singleton in Hy as ->. simpl.
      rewrite Forall_forall in Hlt. apply Hlt, Hin.
    + exact Hasc.
    + simpl. repeat constructor.
  - apply Forall_app. split.
    + eapply Forall_impl; [exact Hlt|]. simpl. intros; lia.
    + repeat constructor. simpl. lia.
  - apply Forall_app. split; [exact Hnn|]. repeat constructor. simpl. lia.
Qed.

Lemma registryInvariant_addSystemLoad (lb : LoadBalancer) (loadAmount : Z)
    (lb' : LoadBalancer) (rep : report) :
  registryInvariant lb ->
  addSystemLoad lb loadAmount = Some (lb', rep) ->
  registryInvariant lb'.
Proof.
  intros Hinv. unfold addSystemLoad.
  destruct (distribute _ _ _) as [[l r]|] eqn:Hd; [|done].
  intros [= <- _]. apply registryInvariant_distribute; [exact Hinv| |].
  - apply (distribute_frame _ _ _ _ _ Hd).
  - apply (distribute_nonneg _ _ _ _ _ (proj2 (proj2 Hinv)) Hd).
Qed.

Lemma registryInvariant_removeServer (lb : LoadBalancer) (serverId : Z)
    (lb' : LoadBalancer) (b : bool) :
  registryInvariant lb ->
  removeServer lb serverId = Some (lb', b) ->
  registryInvariant lb'.
Proof.
  intros Hinv. pose proof Hinv as (Hasc & Hlt & Hnn). unfold removeServer.
  destruct (findServer _ _) as [[i s]|]; [|intros [= <- _]; exact Hinv].
  set (lb1 := withServers lb (delete i (servers lb))).
  assert (Hinv1 : registryInvariant lb1).
  { split; [apply ascendingIds_delete, Hasc|].
    split; apply Forall_delete; assumption. }
  destruct (servers lb1); [intros [= <- _]; exact Hinv1|].
  destruct (0 <? currentLoad s); [|intros [= <- _]; exact Hinv1].
  destruct (addSystemLoad lb1 (currentLoad s)) as [[lb2 r]|] eqn:Hd; [|done].
  intros [= <- _]. apply (registryInvariant_addSystemLoad _ _ _ _ Hinv1 Hd).
Qed.

Lemma registryInvariant_rebalanceLoads (lb lb' : LoadBalancer) (rep : report) :
  registryInvariant lb ->
  rebalanceLoads lb = Some (lb', rep) ->
  registryInvariant lb'.
Proof.
  intros (Hasc & Hlt & Hnn). unfold rebalanceLoads.
  apply registryInvariant_addSystemLoad.
  fold (zeroLoads (servers lb)).
  apply (registryInvariant_distribute lb (zeroLoads (servers lb))).
  - repeat split; assumption.
  - apply zeroLoads_idemp.
  - unfold zeroLoads. apply Forall_forall. intros s Hin.
    apply list_elem_of_fmap in Hin as (s0 & -> & _). simpl. lia.
Qed.

Lemma registryInvariant_addLoadToServer (lb : LoadBalancer)
    (serverId loadAmount : Z) :
  registryInvariant lb ->
  registryInvariant (addLoadToServer lb serverId loadAmount).
Proof.
  intros Hinv. unfold addLoadToServer.
  destruct (findServer _ _) as [[i s]|] eqn:Hfind; [|exact Hinv].
  destruct (online s); [|exact Hinv].
  apply findServer_Some in Hfind as (Hi & _).
  apply registryInvariant_distribute; [exact Hinv| |].
  - apply zeroLoads_insert, Hi.
  - apply Forall_insert; [apply Hinv|]. apply setCurrentLoad_nonneg.
Qed.

Lemma getTotalLoad_zeroLoads (l : list Server) : getTotalLoad (zeroLoads l) = 0.
Proof.
  induction l as [|s l IH]; [reflexivity|].
  unfold zeroLoads in *. simpl map. rewrite getTotalLoad_cons, IH. reflexivity.
Qed.

(** Under Round Robin with every server online the first rebalance keeps
    the total load, so the second one changes nothing. *)
Lemma rebalanceLoads_round_robin_idempotent (lb : LoadBalancer) :
  currentAlgorithm lb = ROUND_ROBIN ->
  servers lb <> [] ->
  Forall (fun s => online s = true) (servers lb) ->
  0 <= getTotalLoad (servers lb) <= INT_MAX ->
  exists lb1 r1,
    rebalanceLoads lb = Some (lb1, r1) /\
    getTotalLoad (servers lb1) = getTotalLoad (servers lb) /\
    rebalanceLoads lb1 = Some (lb1, r1).
Proof.
  intros Halg Hne Hon HT.
  set (T := getTotalLoad (servers lb)) in *.
  set (Z0 := zeroLoads (servers lb)).
  assert (HZne : Z0 <> []).
  { unfold Z0. destruct (servers lb); [done|discriminate]. }
  assert (HZon : Forall (fun s => online s = true) Z0).
  { unfold Z0, zeroLoads. apply Forall_forall. intros s Hin.
    apply list_elem_of_fmap in Hin as (s0 & -> & Hin0). simpl.
    rewrite Forall_forall in Hon. apply Hon, Hin0. }
  assert (HZnn : Forall (fun s => 0 <= currentLoad s) Z0).
  { unfold Z0, zeroLoads. apply Forall_forall. intros s Hin.
    apply list_elem_of_fmap in Hin as (s0 & -> & _). simpl. lia. }
  pose proof (distributeLoadRoundRobin_conserves Z0 T HZne HZon HT HZnn) as Hc.
  pose proof (distributeLoadRoundRobin_all_online Z0 T HZne HZon HT) as Hshape.
  pose proof (distributeLoadRoundRobin_frame Z0 T) as Hframe.
  destruct (distributeLoadRoundRobin Z0 T) as [l' rep] eqn:Hd.
  injection Hshape as _ Hrep. simpl in Hframe.
  assert (Hr : rebalanceLoads lb = Some (withServers lb l', rep)).
  { unfold rebalanceLoads, addSystemLoad.
    cbn [currentAlgorithm servers withServers]. rewrite Halg.
    cbn [distribute]. fold (zeroLoads (servers lb)). fold Z0. fold T.
    rewrite Hd. reflexivity. }
  exists (withServers lb l'), rep. split; [exact Hr|].
  assert (Htotal : getTotalLoad l' = T).
  { rewrite sum_perServerDelta in Hc
      by (symmetry; apply zeroLoads_length, Hframe).
    unfold Z0 in Hc. rewrite getTotalLoad_zeroLoads in Hc.
    subst rep. simpl in Hc. lia. }
  split; [exact Htotal|]. apply (rebalanceLoads_twice lb _ _ Hr Htotal).
Qed.

(** With an offline server the first rebalance under Round Robin loses
    load, and so does the second: 10 units become 5, then 3. *)
Example rebalance_round_robin_offline_loses_load :
  let lb := mkLoadBalancer [srv 1 100 10 true; srv 2 100 0 false]
                           ROUND_ROBIN 3 10 in
  exists lb1 lb2 r1 r2,
    rebalanceLoads lb = Some (lb1, r1) /\
    rebalanceLoads lb1 = Some (lb2, r2) /\
    map currentLoad (servers lb1) = [5; 0] /\
    map currentLoad (servers lb2) = [3; 0].
Proof. do 4 eexists. repeat split; vm_compute; reflexivity. Qed.

End Registry.

(** * Further properties of the code *)

Section Commands.

Lemma addSystemLoad_total (lb : LoadBalancer) (loadAmount : Z) :
  is_Some (addSystemLoad lb loadAmount).
Proof.
  unfold addSystemLoad.
  destruct (distribute_total (currentAlgorithm lb) (servers lb) loadAmount)
    as [[l r] ->]. eauto.
Qed.

Lemma removeServer_total (lb : LoadBalancer) (serverId : Z) :
  is_Some (removeServer lb serverId).
Proof.
  unfold removeServer. destruct (findServer _ _) as [[i s]|]; [|eauto].
  cbv zeta. destruct (servers (withServers lb (delete i (servers lb)))); [eauto|].
  destruct (0 <? currentLoad s); [|eauto].
  destruct (addSystemLoad_total (withServers lb (delete i (servers lb)))
              (currentLoad s)) as [[lb' r] ->]. eauto.
Qed.

Lemma processCommand_total (lb : LoadBalancer) (command : ascii) :
  is_Some (processCommand lb command).
Proof.
  unfold processCommand.
  repeat match goal with
         | |- context [Ascii.eqb ?a ?b] => destruct (Ascii.eqb a b)
         end; eauto.
  - unfold addRandomLoad.
    destruct (addSystemLoad_total lb (randomLoadAmount lb)) as [[lb' r] ->]. eauto.
  - destruct (servers lb); [eauto|].
    destruct (removeServer_total lb (highestId (s :: l))) as [[lb' r] ->]. eauto.
  - destruct (rebalanceLoads_total lb) as [[lb' r] ->]. eauto.
  - destruct (5 <? randomLoadAmount lb); eauto.
  - cbv zeta. destruct (_ && _); eauto.
Qed.

Lemma forEach_total {A : Type} (body : nat -> A -> option A) :
  (forall i a, is_Some (body i a)) ->
  forall range a, is_Some (forEach body range a).
Proof.
  intros Hbody range. induction range as [|i range IH]; intros a; simpl; [eauto|].
  destruct (Hbody i a) as [a' ->]. apply IH.
Qed.

Lemma scaleUp_total (i : nat) (lb : LoadBalancer) : is_Some (scaleUp i lb).
Proof.
  unfold scaleUp.
  destruct (addSystemLoad_total (addServer lb 100) 30) as [[lb1 r1] ->].
  destruct (Z.of_nat i mod 2 =? 0).
  - destruct (rebalanceLoads_total (setBalancingAlgorithm lb1 LEAST_LOADED))
      as [[lb2 r2] ->]. eauto.
  - destruct (rebalanceLoads_total (setBalancingAlgorithm lb1 WEIGHTED_OPTIMIZATION))
      as [[lb2 r2] ->]. eauto.
Qed.

Lemma runScalabilityDemo_total (lb : LoadBalancer) :
  is_Some (runScalabilityDemo lb).
Proof.
  unfold runScalabilityDemo. cbv zeta.
  match goal with
  | |- context [forEach ?f ?r ?a] =>
      assert (Hfirst : is_Some (forEach f r a))
  end.
  { apply forEach_total. intros _ b.
    destruct (addSystemLoad_total b 20) as [[b' r] ->]. simpl. eauto. }
  destruct Hfirst as [lb5 ->].
  apply forEach_total. apply scaleUp_total.
Qed.

(** X1.  Every operation of the balancer returns.  The [while] loops of
    Least Loaded and of Weighted Optimization end on every registry and for
    every amount, with or without capacity left: an iteration that does not
    leave the loop places at least one unit.  So adding load, rebalancing,
    removing a server, every interactive command and the scalability demo
    all return. *)
Theorem every_operation_returns (lb : LoadBalancer) :
  (forall loadAmount, is_Some (addSystemLoad lb loadAmount)) /\
  is_Some (rebalanceLoads lb) /\
  (forall serverId, is_Some (removeServer lb serverId)) /\
  (forall command, is_Some (processCommand lb command)) /\
  is_Some (runScalabilityDemo lb).
Proof.
  split; [apply addSystemLoad_total|].
  split; [apply rebalanceLoads_total|].
  split; [apply removeServer_total|].
  split; [apply processCommand_total|apply runScalabilityDemo_total].
Qed.

End Commands.

(** ** What a distribution call can change *)

Section Stepwise.

(** A relation between a server before and after a call that every single
    assignment of an amount satisfying [ok] establishes. *)
Variable R : Server -> Server -> Prop.
Variable ok : Z -> Prop.
Hypothesis R_refl : forall s, R s s.
Hypothesis R_trans : forall a b c, R a b -> R b c -> R a c.
Hypothesis R_step :
  forall s a, online s = true -> ok a ->
  R s (setCurrentLoad s (currentLoad s + a)).

Lemma stepwise_refl (l : list Server) : Forall2 R l l.
Proof using R_refl. induction l; constructor; auto. Qed.

Lemma stepwise_trans (a b c : list Server) :
  Forall2 R a b -> Forall2 R b c -> Forall2 R a c.
Proof using R_trans.
  intros Hab. revert c. induction Hab; intros c Hbc; inversion Hbc; subst;
    constructor; eauto.
Qed.

Lemma stepwise_insert (l : list Server) (i : nat) (s : Server) (a : Z) :
  l !! i = Some s -> online s = true -> ok a ->
  Forall2 R l (<[i := setCurrentLoad s (currentLoad s + a)]> l).
Proof using R_refl R_step.
  revert i. induction l as [|x l IH]; intros [|i] Hi Hon Ha; simpl in *; try done.
  - injection Hi as ->. constructor; [apply R_step; assumption|apply stepwise_refl].
  - constructor; [apply R_refl|apply IH; assumption].
Qed.

Lemma stepwise_addLoadAt (l : list Server) (i : nat) (s : Server) (a : Z) :
  l !! i = Some s -> online s = true -> ok a ->
  Forall2 R l (addLoadAt i a l).
Proof using R_refl R_step.
  unfold addLoadAt.
  revert i. induction l as [|x l IH]; intros [|i] Hi Hon Ha; simpl in *; try done.
  - injection Hi as ->. constructor; [apply R_step; assumption|apply stepwise_refl].
  - constructor; [apply R_refl|apply IH; assumption].
Qed.

Lemma stepwise_roundRobinVisit (base : Z) (idx : nat) (st : list Server * Z) :
  ok base -> ok (base + 1) ->
  Forall2 R st.1 (roundRobinVisit base idx st).1.
Proof using R_refl R_step.
  intros Hb Hb1. destruct st as [l r]. unfold roundRobinVisit.
  destruct (l !! idx) as [s|] eqn:Hi; [|apply stepwise_refl].
  destruct (online s) eqn:Hon; [|apply stepwise_refl]. cbn [fst].
  apply stepwise_insert; [exact Hi|exact Hon|]. destruct (0 <? r); assumption.
Qed.

Lemma stepwise_roundRobin_fold (base : Z) (g : nat -> nat) (steps : list nat) :
  ok base -> ok (base + 1) ->
  forall st,
  Forall2 R st.1
    (fold_left (fun st i => roundRobinVisit base (g i) st) steps st).1.
Proof using R_refl R_trans R_step.
  intros Hb Hb1. induction steps as [|i steps IH]; intros st; simpl.
  - apply stepwise_refl.
  - eapply stepwise_trans; [|apply IH].
    apply stepwise_roundRobinVisit; assumption.
Qed.

Lemma stepwise_distributeLoadRoundRobin (l : list Server) (loadAmount : Z) :
  let base := to_int (to_size_t loadAmount / Z.of_nat (length l)) in
  ok base -> ok (base + 1) ->
  Forall2 R l (distributeLoadRoundRobin l loadAmount).1.
Proof using R_refl R_trans R_step.
  intros base Hb Hb1. unfold distributeLoadRoundRobin.
  destruct l as [|s0 l0]; [constructor|].
  destruct (_ <=? _)%nat; [apply stepwise_refl|]. cbn [fst].
  apply (stepwise_roundRobin_fold base
           (fun i => ((firstOnline (s0 :: l0) + i) mod length (s0 :: l0))%nat)
           _ Hb Hb1 (s0 :: l0, _)).
Qed.

Hypothesis ok_pos : forall a, 0 < a -> ok a.

Lemma stepwise_leastLoadedLoop (fuel : nat) :
  forall l r l' rep,
  leastLoadedLoop fuel l r = Some (l', rep) -> Forall2 R l l'.
Proof using R_refl R_trans R_step ok_pos.
  induction fuel as [|fuel IH]; intros l r l' rep; cbn [leastLoadedLoop].
  - destruct (r <=? 0); [|done]. intros [= <- _]. apply stepwise_refl.
  - destruct (Z.leb_spec r 0); [intros [= <- _]; apply stepwise_refl|].
    pose proof (selectBest_spec l) as Hbest.
    destruct (selectBest 0 l None (-1)) as [[k|] ba];
      [|intros [= <- _]; apply stepwise_refl].
    destruct (Z.leb_spec ba 0); [intros [= <- _]; apply stepwise_refl|].
    intros Hloop. apply IH in Hloop.
    destruct Hbest as (_ & s & Hk & Hon & _).
    eapply stepwise_trans; [|exact Hloop].
    apply (stepwise_addLoadAt l k s); [exact Hk|exact Hon|]. apply ok_pos. lia.
Qed.

Lemma stepwise_applyLoads (l : list Server) :
  forall idealLoads,
  Forall2 (fun s d => online s = false -> d <= 0) l idealLoads ->
  Forall2 R l (applyLoads l idealLoads).
Proof using R_refl R_step ok_pos.
  unfold applyLoads. induction 1 as [|s d l ds Hsd _ IH]; simpl; constructor.
  - destruct (Z.ltb_spec 0 d); [|apply R_refl].
    apply R_step; [|apply ok_pos; assumption].
    destruct (online s); [reflexivity|]. specialize (Hsd eq_refl). lia.
  - exact IH.
Qed.

End Stepwise.

Lemma remainderPass_offline (l : list Server) :
  forall idealLoads r b,
  Forall2 (fun s d => online s = false -> d <= 0) l idealLoads ->
  Forall2 (fun s d => online s = false -> d <= 0) l
          (remainderPass l idealLoads r b).1.1.
Proof.
  induction l as [|s l IH]; intros idealLoads r b H; simpl; [exact H|].
  destruct idealLoads as [|d idealLoads]; [exact H|].
  apply Forall2_cons in H as [Hd H].
  destruct (0 <? r); [|constructor; assumption].
  destruct (online s) eqn:Hon; simpl.
  - destruct (0 <? getAvailableCapacity s - d).
    + specialize (IH idealLoads (r - 1) true H).
      destruct (remainderPass l idealLoads (r - 1) true) as [[rest r'] b'].
      simpl in *. constructor; [intros; congruence|exact IH].
    + specialize (IH idealLoads r b H).
      destruct (remainderPass l idealLoads r b) as [[rest r'] b'].
      simpl in *. constructor; [intros; congruence|exact IH].
  - specialize (IH idealLoads r b H).
    destruct (remainderPass l idealLoads r b) as [[rest r'] b'].
    simpl in *. constructor; [intros _; apply Hd; reflexivity|exact IH].
Qed.

Lemma remainderLoop_offline (fuel : nat) :
  forall l idealLoads r idealLoads' r',
  Forall2 (fun s d => online s = false -> d <= 0) l idealLoads ->
  remainderLoop fuel l idealLoads r = Some (idealLoads', r') ->
  Forall2 (fun s d => online s = false -> d <= 0) l idealLoads'.
Proof.
  induction fuel as [|fuel IH]; intros l idealLoads r idealLoads' r' H;
    cbn [remainderLoop].
  - destruct (r <=? 0); [|done]. intros [= <- _]. exact H.
  - destruct (r <=? 0); [intros [= <- _]; exact H|].
    pose proof (remainderPass_offline l idealLoads r false H) as Hpass.
    destruct (remainderPass l idealLoads r false) as [[i1 r1] b1].
    simpl in Hpass. destruct b1.
    + apply IH. exact Hpass.
    + intros [= <- _]. exact Hpass.
Qed.

Lemma idealLoad_offline (total : Q) (L : Z) (l : list Server) :
  Forall2 (fun s d => online s = false -> d <= 0) l (map (idealLoad total L) l).
Proof.
  induction l as [|s l IH]; simpl; constructor; [|exact IH].
  intros Hoff. unfold idealLoad. rewrite Hoff. lia.
Qed.

Section StepwiseDistribute.

Variable R : Server -> Server -> Prop.
Variable ok : Z -> Prop.
Hypothesis R_refl : forall s, R s s.
Hypothesis R_trans : forall a b c, R a b -> R b c -> R a c.
Hypothesis R_step :
  forall s a, online s = true -> ok a ->
  R s (setCurrentLoad s (currentLoad s + a)).
Hypothesis ok_pos : forall a, 0 < a -> ok a.

Lemma stepwise_distribute (algorithm : BalancingAlgorithm) (l : list Server)
    (loadAmount : Z) (l' : list Server) (rep : report) :
  (algorithm = ROUND_ROBIN ->
   ok (to_int (to_size_t loadAmount / Z.of_nat (length l))) /\
   ok (to_int (to_size_t loadAmount / Z.of_nat (length l)) + 1)) ->
  distribute algorithm l loadAmount = Some (l', rep) ->
  Forall2 R l l'.
Proof using R_refl R_trans R_step ok_pos.
  intros Hrr. destruct algorithm; simpl.
  - intros [= H]. destruct (Hrr eq_refl) as [Hb Hb1].
    pose proof (stepwise_distributeLoadRoundRobin R ok R_refl R_trans R_step
                  l loadAmount Hb Hb1) as HR.
    rewrite H in HR. exact HR.
  - unfold distributeLoadLeastLoaded. destruct l as [|s0 l0].
    + intros [= <- _]. constructor.
    + apply (stepwise_leastLoadedLoop R ok R_refl R_trans R_step ok_pos).
  - unfold distributeLoadWeightedOptimization. destruct l as [|s0 l0].
    + intros [= <- _]. constructor.
    + destruct (Qle_bool _ 0);
        [intros [= <- _]; apply (stepwise_refl R R_refl)|].
      destruct (remainderLoop _ _ _ _) as [[i' r']|] eqn:Hloop; [|done].
      intros [= <- _].
      apply (stepwise_applyLoads R ok R_refl R_step ok_pos (s0 :: l0) i').
      eapply remainderLoop_offline; [|exact Hloop]. apply idealLoad_offline.
Qed.

End StepwiseDistribute.

Lemma withLoad_currentLoad (s : Server) : withLoad s (currentLoad s) = s.
Proof. destruct s; reflexivity. Qed.

(** X2.  A distribution call of any of the three policies keeps the
    servers and their order, and changes nothing but the [currentLoad] of
    online servers: ids, capacities, performance multipliers, online flags
    and status texts stay, and an offline server is left exactly as it
    was. *)
Theorem distribute_changes_loads_of_online_servers_only
    (algorithm : BalancingAlgorithm) (l : list Server) (loadAmount : Z)
    (l' : list Server) (rep : report) :
  distribute algorithm l loadAmount = Some (l', rep) ->
  onlyLoadsOfOnline l l'.
Proof.
  apply (stepwise_distribute
           (fun s s' => s' = withLoad s (currentLoad s') /\
                        (online s = false -> s' = s))
           (fun _ => True)).
  - intros s. split; [symmetry; apply withLoad_currentLoad|reflexivity].
  - intros a b c [Hab Hoff] [Hbc Hoff']. split.
    + rewrite Hbc, Hab. reflexivity.
    + intros Ha. rewrite Hoff' by (rewrite Hoff; assumption). apply Hoff, Ha.
  - intros s a Hon _. split; [reflexivity|congruence].
  - done.
  - done.
Qed.

Lemma distribute_changes_loads_of_online_servers_only_witness :
  onlyLoadsOfOnline oneOffline [srv 1 100 5 true; srv 2 100 0 false].
Proof.
  apply (distribute_changes_loads_of_online_servers_only
           ROUND_ROBIN oneOffline 10 _ Distributed).
  reflexivity.
Defined.

(** X3.  No policy takes load away from a server: after a distribution
    call every server carries at least what it carried before.  For Round
    Robin this needs a request that is not negative (it adds the computed
    share, whatever its sign); Least Loaded and Weighted Optimization only
    ever add positive amounts. *)
Theorem distribute_takes_no_load_away
    (algorithm : BalancingAlgorithm) (l : list Server) (loadAmount : Z)
    (l' : list Server) (rep : report) :
  (algorithm = ROUND_ROBIN -> 0 <= loadAmount <= INT_MAX) ->
  distribute algorithm l loadAmount = Some (l', rep) ->
  noLoadTakenAway l l'.
Proof.
  intros HL.
  apply (stepwise_distribute (fun s s' => currentLoad s <= currentLoad s')
                             (fun a => 0 <= a)).
  - intros; lia.
  - intros; lia.
  - intros s a _ Ha. simpl. destruct (Z.ltb_spec (currentLoad s + a) 0); lia.
  - intros; lia.
  - intros Halg. specialize (HL Halg).
    rewrite to_size_t_small by exact HL.
    assert (Hq : 0 <= loadAmount / Z.of_nat (length l) <= INT_MAX).
    { destruct l as [|s0 l0].
      - simpl. rewrite Z.div_0_r. unfold INT_MAX. lia.
      - split; [apply Z.div_pos; simpl length; lia|].
        apply Z.le_trans with loadAmount; [|lia].
        apply Z.div_le_upper_bound; [simpl length; lia|].
        simpl length. nia. }
    rewrite to_int_small by exact Hq. lia.
Qed.

Lemma distribute_takes_no_load_away_witness :
  noLoadTakenAway halfLoaded [srv 1 100 50 true; srv 2 100 10 true].
Proof.
  apply (distribute_takes_no_load_away LEAST_LOADED halfLoaded 10 _ Distributed).
  - discriminate.
  - reflexivity.
Defined.

(** ** Least Loaded and Weighted Optimization fill the free capacity *)

Section FreeCapacity.

Lemma getAvailableCapacity_nonneg (s : Server) :
  withinCapacity s -> 0 <= getAvailableCapacity s.
Proof.
  intros [Hload _]. unfold getAvailableCapacity. destruct (online s); lia.
Qed.

Lemma totalAvailable_nonneg (l : list Server) :
  Forall withinCapacity l -> 0 <= totalAvailable l.
Proof.
  induction 1 as [|s l Hs _ IH]; simpl; [lia|].
  pose proof (getAvailableCapacity_nonneg s Hs). lia.
Qed.

Lemma totalAvailable_full (l : list Server) :
  Forall withinCapacity l ->
  (forall s, s ∈ l -> online s = true -> getAvailableCapacity s <= 0) ->
  totalAvailable l = 0.
Proof.
  induction 1 as [|s l Hs _ IH]; intros Hfull; simpl; [reflexivity|].
  rewrite IH by (intros x Hx; apply Hfull; right; exact Hx).
  pose proof (getAvailableCapacity_nonneg s Hs) as H0.
  destruct (online s) eqn:Hon.
  - pose proof (Hfull s ltac:(left) Hon). lia.
  - unfold getAvailableCapacity. rewrite Hon. reflexivity.
Qed.

Lemma totalAvailable_addLoadAt (l : list Server) :
  forall i s a,
  l !! i = Some s -> online s = true -> 0 <= currentLoad s + a ->
  totalAvailable (addLoadAt i a l) = totalAvailable l - a.
Proof.
  unfold addLoadAt.
  induction l as [|x l IH]; intros [|i] s a Hi Hon Ha; simpl in Hi; try done.
  - injection Hi as ->. simpl. unfold getAvailableCapacity. simpl. rewrite Hon.
    destruct (Z.ltb_spec (currentLoad s + a) 0); lia.
  - change (getAvailableCapacity x
            + totalAvailable
                (alter (fun s => setCurrentLoad s (currentLoad s + a)) i l)
            = getAvailableCapacity x + totalAvailable l - a).
    rewrite (IH i s a Hi Hon Ha). lia.
Qed.

Lemma withinCapacity_addLoadAt (l : list Server) (i : nat) (s : Server) (a : Z) :
  Forall withinCapacity l ->
  l !! i = Some s -> 0 <= a <= capacity s - currentLoad s ->
  Forall withinCapacity (addLoadAt i a l).
Proof.
  intros Hwf Hi Ha. unfold addLoadAt. apply Forall_alter; [exact Hwf|].
  intros x Hx. rewrite Hi in Hx. injection Hx as <-.
  intros [Hload Hpm]. split; [|exact Hpm]. simpl.
  destruct (Z.ltb_spec (currentLoad s + a) 0); lia.
Qed.

Lemma leastLoadedLoop_fills (fuel : nat) :
  forall l r l' rep,
  Forall withinCapacity l -> 0 <= r ->
  leastLoadedLoop fuel l r = Some (l', rep) ->
  Forall withinCapacity l' /\
  getTotalLoad l' = getTotalLoad l + Z.min r (totalAvailable l) /\
  rep = fillReport r (totalAvailable l).
Proof.
  unfold fillReport.
  induction fuel as [|fuel IH]; intros l r l' rep Hwf Hr; cbn [leastLoadedLoop];
    pose proof (totalAvailable_nonneg l Hwf) as HA.
  - destruct (Z.leb_spec r 0); [|done]. intros [= <- <-].
    split; [exact Hwf|].
    destruct (Z.leb_spec r (totalAvailable l)); [|lia]. split; [lia|reflexivity].
  - destruct (Z.leb_spec r 0).
    { intros [= <- <-]. split; [exact Hwf|].
      destruct (Z.leb_spec r (totalAvailable l)); [|lia].
      split; [lia|reflexivity]. }
    pose proof (selectBest_spec l) as Hb.
    assert (Hstuck :
      (forall s, s ∈ l -> online s = true -> getAvailableCapacity s <= 0) ->
      Forall withinCapacity l /\
      getTotalLoad l = getTotalLoad l + Z.min r (totalAvailable l) /\
      InsufficientCapacity r
      = (if r <=? totalAvailable l then Distributed
         else InsufficientCapacity (r - totalAvailable l))).
    { intros Hfull. rewrite (totalAvailable_full l Hwf Hfull).
      split; [exact Hwf|]. split; [lia|].
      destruct (Z.leb_spec r 0); [lia|]. rewrite Z.sub_0_r. reflexivity. }
    destruct (selectBest 0 l None (-1)) as [[k|] ba]; simpl in Hb.
    + destruct Hb as (Hpos & s & Hk & Hon & Hav & Hall).
      destruct (Z.leb_spec ba 0).
      { intros [= <- <-]. apply Hstuck. intros x Hx Hxon.
        apply list_elem_of_lookup in Hx as [j Hj].
        destruct (Hall j x Hj Hxon). lia. }
      pose proof (Forall_lookup_1 _ _ _ _ Hwf Hk) as [Hload _].
      assert (Hcap : ba = capacity s - currentLoad s).
      { rewrite <- Hav. unfold getAvailableCapacity. rewrite Hon. reflexivity. }
      intros Hloop. apply IH in Hloop as (Hwf' & Htotal & Hrep).
      * split; [exact Hwf'|].
        rewrite (totalAvailable_addLoadAt l k s _ Hk Hon) in Htotal, Hrep by lia.
        rewrite (getTotalLoad_addLoadAt l k s _ Hk) in Htotal by lia.
        split; [lia|]. rewrite Hrep.
        destruct (Z.leb_spec (r - Z.min r ba) (totalAvailable l - Z.min r ba));
          destruct (Z.leb_spec r (totalAvailable l)); try lia;
          [reflexivity|f_equal; lia].
      * apply (withinCapacity_addLoadAt l k s); [exact Hwf|exact Hk|lia].
      * lia.
    + destruct Hb as (_ & Hall). intros [= <- <-]. apply Hstuck.
      intros x Hx Hxon. specialize (Hall x Hx Hxon). lia.
Qed.

(** X4.  Least Loaded fills free capacity before it gives up.  On a
    non-empty registry whose servers are within their capacity, a request
    that is not negative raises the total load by the smaller of the request
    and the free capacity of the online servers, leaves every server within
    its capacity, and reports a shortfall exactly when the request exceeds
    the free capacity, with the excess as the reported figure. *)
Theorem least_loaded_fills_free_capacity (l : list Server) (loadAmount : Z)
    (l' : list Server) (rep : report) :
  l <> [] -> Forall withinCapacity l -> 0 <= loadAmount ->
  distributeLoadLeastLoaded l loadAmount = Some (l', rep) ->
  Forall withinCapacity l' /\
  getTotalLoad l' = getTotalLoad l + Z.min loadAmount (totalAvailable l) /\
  rep = fillReport loadAmount (totalAvailable l).
Proof.
  intros Hne Hwf HL. unfold distributeLoadLeastLoaded.
  destruct l as [|s0 l0]; [done|].
  apply leastLoadedLoop_fills; assumption.
Qed.

Lemma least_loaded_fills_free_capacity_witness :
  let l := [srv 1 100 95 true; srv 2 50 50 true; srv 3 80 0 false] in
  exists l', distributeLoadLeastLoaded l 12 = Some (l', InsufficientCapacity 7) /\
             getTotalLoad l' = 150.
Proof.
  intros l.
  destruct (distributeLoadLeastLoaded l 12) as [[l' rep]|] eqn:Hd;
    [|vm_compute in Hd; discriminate].
  destruct (least_loaded_fills_free_capacity l 12 l' rep) as (_ & Htotal & Hrep).
  - discriminate.
  - repeat constructor; vm_compute; congruence.
  - lia.
  - exact Hd.
  - exists l'. rewrite Hrep. split; [reflexivity|exact Htotal].
Defined.

End FreeCapacity.

Section WeightedFreeCapacity.

Lemma idealLoad_fits (total : Q) (L : Z) (l : list Server) :
  (0 < total)%Q -> 0 <= L -> Forall withinCapacity l ->
  Forall2 fits l (map (idealLoad total L) l).
Proof.
  intros Htotal HL. induction 1 as [|s l Hs _ IH]; simpl; constructor; [|exact IH].
  destruct (idealLoad_bounds total L s Htotal HL Hs) as [H0 _].
  split; [exact H0|]. pose proof (getAvailableCapacity_nonneg s Hs) as Hav.
  unfold idealLoad. destruct (online s) eqn:Hon; [|lia].
  destruct (Z.ltb_spec (getAvailableCapacity s)
              (static_cast_int (getEffectiveCapacity s / total * inject_Z L))); lia.
Qed.

Lemma remainderPass_fits (l : list Server) :
  forall idealLoads r b,
  Forall2 fits l idealLoads ->
  Forall2 fits l (remainderPass l idealLoads r b).1.1.
Proof.
  induction l as [|s l IH]; intros idealLoads r b H; simpl; [exact H|].
  destruct idealLoads as [|d idealLoads]; [exact H|].
  apply Forall2_cons in H as [Hd H].
  destruct (0 <? r); [|constructor; assumption].
  destruct (online s); simpl.
  - destruct (Z.ltb_spec 0 (getAvailableCapacity s - d)).
    + specialize (IH idealLoads (r - 1) true H).
      destruct (remainderPass l idealLoads (r - 1) true) as [[rest r'] b'].
      simpl in *. constructor; [unfold fits in *; lia|exact IH].
    + specialize (IH idealLoads r b H).
      destruct (remainderPass l idealLoads r b) as [[rest r'] b'].
      simpl in *. constructor; [exact Hd|exact IH].
  - specialize (IH idealLoads r b H).
    destruct (remainderPass l idealLoads r b) as [[rest r'] b'].
    simpl in *. constructor; [exact Hd|exact IH].
Qed.

Lemma remainderPass_flag (l : list Server) :
  forall idealLoads r, (remainderPass l idealLoads r true).2 = true.
Proof.
  induction l as [|s l IH]; intros idealLoads r; simpl; [reflexivity|].
  destruct idealLoads as [|d idealLoads]; [reflexivity|].
  destruct (0 <? r); [|reflexivity].
  destruct (online s && (0 <? getAvailableCapacity s - d)).
  - specialize (IH idealLoads (r - 1)).
    destruct (remainderPass l idealLoads (r - 1) true) as [[rest r'] b'].
    exact IH.
  - specialize (IH idealLoads r).
    destruct (remainderPass l idealLoads r true) as [[rest r'] b'].
    exact IH.
Qed.

(** A pass that hands out nothing has seen every server full. *)
Lemma remainderPass_stuck (l : list Server) :
  forall idealLoads r b idealLoads' r',
  length idealLoads = length l -> 0 < r ->
  remainderPass l idealLoads r b = (idealLoads', r', false) ->
  idealLoads' = idealLoads /\ r' = r /\ Forall2 full l idealLoads.
Proof.
  induction l as [|s l IH]; intros idealLoads r b idealLoads' r' Hlen Hr;
    destruct idealLoads as [|d idealLoads]; simpl in Hlen; try lia.
  - simpl. intros [= <- <- _]. repeat split. constructor.
  - simpl. destruct (Z.ltb_spec 0 r); [|lia].
    destruct (online s && (0 <? getAvailableCapacity s - d)) eqn:Hfull.
    + pose proof (remainderPass_flag l idealLoads (r - 1)) as Hflag.
      destruct (remainderPass l idealLoads (r - 1) true) as [[rest r1] b1].
      simpl in Hflag. intros [= _ _ ->]. discriminate.
    + destruct (remainderPass l idealLoads r b) as [[rest r1] b1] eqn:Hrest.
      intros [= <- <- ->].
      destruct (IH idealLoads r b rest r1 ltac:(lia) Hr Hrest) as (-> & -> & Hall).
      repeat split. constructor; assumption.
Qed.

Lemma remainderLoop_fills (fuel : nat) :
  forall l idealLoads r idealLoads' r',
  Forall2 fits l idealLoads -> 0 <= r ->
  remainderLoop fuel l idealLoads r = Some (idealLoads', r') ->
  Forall2 fits l idealLoads' /\ 0 <= r' /\
  sumLoads idealLoads' + r' = sumLoads idealLoads + r /\
  (0 < r' -> Forall2 full l idealLoads').
Proof.
  induction fuel as [|fuel IH]; intros l idealLoads r idealLoads' r' Hfits Hr;
    cbn [remainderLoop].
  - destruct (Z.leb_spec r 0); [|done]. intros [= <- <-].
    repeat split; auto with lia.
  - destruct (Z.leb_spec r 0).
    { intros [= <- <-]. repeat split; auto with lia. }
    pose proof (remainderPass_spec l idealLoads r false) as Hpass.
    pose proof (remainderPass_fits l idealLoads r false Hfits) as Hfits'.
    pose proof (remainderPass_stuck l idealLoads r false) as Hstuck.
    destruct (remainderPass l idealLoads r false) as [[i1 r1] b1].
    destruct Hpass as (_ & Hsum & _ & Hr1 & _). simpl in Hfits'.
    destruct b1.
    + intros Hloop. apply IH in Hloop as (? & ? & ? & ?); [|done|lia].
      split; [done|]. split; [done|]. split; [lia|done].
    + intros [= <- <-].
      destruct (Hstuck i1 r1) as (-> & -> & Hfull);
        [symmetry; eapply Forall2_length, Hfits|lia|reflexivity|].
      split; [done|]. split; [lia|]. split; [lia|done].
Qed.

Lemma fits_sum_le (l : list Server) (idealLoads : list Z) :
  Forall2 fits l idealLoads ->
  Forall (fun d => 0 <= d) idealLoads /\ sumLoads idealLoads <= totalAvailable l.
Proof.
  induction 1 as [|s d l ds [H0 Hd] _ [IHnn IH]]; simpl.
  - split; [constructor|]. unfold sumLoads. simpl. lia.
  - split; [constructor; assumption|]. rewrite sumLoads_cons. lia.
Qed.

Lemma fits_full_sum (l : list Server) (idealLoads : list Z) :
  Forall2 fits l idealLoads -> Forall2 full l idealLoads ->
  sumLoads idealLoads = totalAvailable l.
Proof.
  induction 1 as [|s d l ds [H0 Hd] _ IH]; intros Hfull; simpl.
  - reflexivity.
  - apply Forall2_cons in Hfull as [Hs Hfull]. rewrite sumLoads_cons, (IH Hfull).
    unfold full in Hs. unfold getAvailableCapacity in *.
    destruct (online s); simpl in Hs; [|lia].
    destruct (Z.ltb_spec 0 (capacity s - currentLoad s - d)); [done|lia].
Qed.

Lemma withinCapacity_applyLoads (l : list Server) (idealLoads : list Z) :
  Forall withinCapacity l -> Forall2 fits l idealLoads ->
  Forall withinCapacity (applyLoads l idealLoads).
Proof.
  unfold applyLoads. intros Hwf Hfits. revert Hwf.
  induction Hfits as [|s d l ds [H0 Hd] _ IH]; intros Hwf; simpl; [constructor|].
  apply Forall_cons in Hwf as [[Hload Hpm] Hwf].
  constructor; [|apply IH, Hwf].
  destruct (Z.ltb_spec 0 d); [|split; assumption].
  split; [|exact Hpm]. simpl. unfold getAvailableCapacity in Hd.
  destruct (online s); [|lia].
  destruct (Z.ltb_spec (currentLoad s + d) 0); lia.
Qed.

(** X5.  Weighted Optimization fills free capacity before it gives up.
    On a registry whose servers are within their capacity and whose online
    servers have some effective capacity, a request that is not negative
    raises the total load by the smaller of the request and the free
    capacity of the online servers, leaves every server within its capacity,
    and reports a shortfall exactly when the request exceeds the free
    capacity, with the excess as the reported figure. *)
Theorem weighted_optimization_fills_free_capacity (l : list Server)
    (loadAmount : Z) (l' : list Server) (rep : report) :
  Forall withinCapacity l -> 0 <= loadAmount ->
  (0 < totalEffectiveCapacity l)%Q ->
  distributeLoadWeightedOptimization l loadAmount = Some (l', rep) ->
  Forall withinCapacity l' /\
  getTotalLoad l' = getTotalLoad l + Z.min loadAmount (totalAvailable l) /\
  rep = fillReport loadAmount (totalAvailable l).
Proof.
  intros Hwf HL Htotal. unfold distributeLoadWeightedOptimization, fillReport.
  destruct l as [|s0 l0]; [vm_compute in Htotal; discriminate|].
  set (l := s0 :: l0) in *. cbv zeta.
  destruct (Qle_bool (totalEffectiveCapacity l) 0) eqn:Hle.
  { apply Qle_bool_iff in Hle. exfalso. apply (Qlt_not_le _ _ Htotal Hle). }
  destruct (sum_idealLoad_le (totalEffectiveCapacity l) loadAmount l Htotal HL Hwf)
    as [Hnn Hsum0].
  assert (Hr0 : sumLoads (map (idealLoad (totalEffectiveCapacity l) loadAmount) l)
                <= loadAmount).
  { rewrite Zle_Qle. eapply Qle_trans; [exact Hsum0|].
    rewrite <- totalEffectiveCapacity_onlineEffective.
    apply Qle_lteq. right. field.
    intros H. rewrite H in Htotal. exact (Qlt_irrefl _ Htotal). }
  pose proof (idealLoad_fits (totalEffectiveCapacity l) loadAmount l Htotal HL Hwf)
    as Hfits0.
  destruct (remainderLoop _ _ _ _) as [[i' r']|] eqn:Hloop; [|done].
  intros Heq. injection Heq as Hl' Hrep. subst l' rep.
  apply remainderLoop_fills in Hloop as (Hfits & Hr' & Hsum & Hfull);
    [|exact Hfits0|lia].
  destruct (fits_sum_le l i' Hfits) as [Hnn' Hle'].
  change (Forall withinCapacity (applyLoads l i') /\
          getTotalLoad (applyLoads l i')
          = getTotalLoad l + Z.min loadAmount (totalAvailable l) /\
          (if 0 <? r' then InsufficientCapacity r' else Distributed)
          = (if loadAmount <=? totalAvailable l then Distributed
             else InsufficientCapacity (loadAmount - totalAvailable l))).
  split; [apply withinCapacity_applyLoads; assumption|].
  rewrite getTotalLoad_applyLoads;
    [|symmetry; eapply Forall2_length, Hfits
     |eapply Forall_impl; [exact Hwf|]; intros s [? _]; lia
     |exact Hnn'].
  destruct (Z.ltb_spec 0 r') as [Hpos|Hzero].
  - rewrite (fits_full_sum l i' Hfits (Hfull Hpos)) in *.
    destruct (Z.leb_spec loadAmount (totalAvailable l)); [lia|].
    split; [lia|f_equal; lia].
  - destruct (Z.leb_spec loadAmount (totalAvailable l)); [|lia].
    split; [lia|reflexivity].
Qed.

Lemma weighted_optimization_fills_free_capacity_witness :
  let l := [srv 1 100 95 true; srv 2 50 50 true; srv 3 80 0 false] in
  exists l', distributeLoadWeightedOptimization l 12
             = Some (l', InsufficientCapacity 7) /\
             getTotalLoad l' = 150.
Proof.
  intros l.
  destruct (distributeLoadWeightedOptimization l 12) as [[l' rep]|] eqn:Hd;
    [|vm_compute in Hd; discriminate].
  destruct (weighted_optimization_fills_free_capacity l 12 l' rep)
    as (_ & Htotal & Hrep).
  - repeat constructor; vm_compute; congruence.
  - lia.
  - reflexivity.
  - exact Hd.
  - exists l'. rewrite Hrep. split; [reflexivity|exact Htotal].
Defined.

End WeightedFreeCapacity.

Section RegistryLookup.

(** X6.  With every server online Round Robin gives the server at
    position [i] of [n] the share [loadAmount / n], plus one unit for the
    first [loadAmount mod n] servers, whatever its capacity and its load;
    it never reports a shortfall, and the total load grows by exactly the
    request. *)
Theorem round_robin_shares_when_all_online (l : list Server) (loadAmount : Z) :
  l <> [] ->
  Forall (fun s => online s = true) l ->
  Forall (fun s => 0 <= currentLoad s) l ->
  0 <= loadAmount <= INT_MAX ->
  exists l',
    distributeLoadRoundRobin l loadAmount = (l', Distributed) /\
    (forall i s, l !! i = Some s ->
       l' !! i
       = Some (withLoad s (currentLoad s
                           + roundRobinShare (Z.of_nat (length l)) loadAmount i))) /\
    getTotalLoad l' = getTotalLoad l + loadAmount.
Proof.
  intros Hne Hon Hnn HL.
  pose proof (distributeLoadRoundRobin_all_online l loadAmount Hne Hon HL) as Hrr.
  pose proof (distributeLoadRoundRobin_conserves l loadAmount Hne Hon HL Hnn)
    as Hsum.
  rewrite Hrr in Hsum. eexists. split; [exact Hrr|]. split.
  - intros i s Hi. rewrite list_lookup_imap, Hi. simpl. f_equal.
    rewrite setCurrentLoad_max. f_equal.
    pose proof (Forall_lookup_1 _ _ _ _ Hnn Hi) as Hs. simpl in Hs.
    assert (0 <= roundRobinShare (Z.of_nat (length l)) loadAmount i).
    { apply roundRobinShare_nonneg; [|lia]. destruct l; [done|simpl; lia]. }
    lia.
  - rewrite sum_perServerDelta in Hsum by (rewrite length_imap; reflexivity).
    simpl in Hsum. lia.
Qed.

Lemma round_robin_shares_when_all_online_witness :
  exists l',
    distributeLoadRoundRobin [srv 1 10 8 true; srv 2 100 0 true] 7
    = (l', Distributed) /\
    l' !! 0%nat = Some (srv 1 10 12 true) /\ getTotalLoad l' = 15.
Proof.
  destruct (round_robin_shares_when_all_online
              [srv 1 10 8 true; srv 2 100 0 true] 7)
    as (l' & Hrr & Hshare & Htotal).
  - discriminate.
  - repeat constructor.
  - repeat constructor; simpl; lia.
  - unfold INT_MAX. lia.
  - exists l'. split; [exact Hrr|]. split; [|exact Htotal].
    apply (Hshare 0%nat (srv 1 10 8 true)). reflexivity.
Defined.

Lemma idsP_frame (P : Z -> Prop) (l l' : list Server) :
  map id l' = map id l ->
  Forall (fun s => P (id s)) l -> Forall (fun s => P (id s)) l'.
Proof.
  intros Hids H.
  apply (Forall_fmap id P l'). apply (Forall_fmap id P l) in H.
  change (Forall P (map id l')). rewrite Hids. exact H.
Qed.

Lemma addSystemLoad_fields (lb : LoadBalancer) (loadAmount : Z)
    (lb' : LoadBalancer) (rep : report) :
  addSystemLoad lb loadAmount = Some (lb', rep) ->
  zeroLoads (servers lb') = zeroLoads (servers lb) /\
  currentAlgorithm lb' = currentAlgorithm lb /\
  nextServerId lb' = nextServerId lb /\
  randomLoadAmount lb' = randomLoadAmount lb.
Proof.
  unfold addSystemLoad.
  destruct (distribute _ _ _) as [[l r]|] eqn:Hd; [|done].
  intros [= <- _]. simpl. split; [|done].
  apply (distribute_frame _ _ _ _ _ Hd).
Qed.

Lemma rebalanceLoads_fields (lb lb' : LoadBalancer) (rep : report) :
  rebalanceLoads lb = Some (lb', rep) ->
  zeroLoads (servers lb') = zeroLoads (servers lb) /\
  currentAlgorithm lb' = currentAlgorithm lb /\
  nextServerId lb' = nextServerId lb /\
  randomLoadAmount lb' = randomLoadAmount lb.
Proof.
  unfold rebalanceLoads. intros H.
  apply addSystemLoad_fields in H as (Hz & Ha & Hn & Hr). simpl in *.
  split; [|done]. rewrite Hz. apply zeroLoads_idemp.
Qed.

Lemma removeServer_fields (lb : LoadBalancer) (serverId : Z)
    (lb' : LoadBalancer) (b : bool) :
  removeServer lb serverId = Some (lb', b) ->
  (match findServer serverId (servers lb) with
   | Some (i, _) =>
       b = true /\ zeroLoads (servers lb') = zeroLoads (delete i (servers lb))
   | None => b = false /\ lb' = lb
   end) /\
  currentAlgorithm lb' = currentAlgorithm lb /\
  nextServerId lb' = nextServerId lb /\
  randomLoadAmount lb' = randomLoadAmount lb.
Proof.
  unfold removeServer.
  destruct (findServer _ _) as [[i s]|]; [|intros [= <- <-]; done].
  cbv zeta.
  destruct (servers (withServers lb (delete i (servers lb)))) eqn:Hrest;
    [intros [= <- <-]; simpl in *; rewrite Hrest; done|].
  destruct (0 <? currentLoad s); [|intros [= <- <-]; done].
  destruct (addSystemLoad _ _) as [[lb2 r]|] eqn:Hadd; [|done].
  intros [= <- <-]. apply addSystemLoad_fields in Hadd as (Hz & Ha & Hn & Hr).
  simpl in *. done.
Qed.

Lemma addLoadToServer_fields (lb : LoadBalancer) (serverId loadAmount : Z) :
  let lb' := addLoadToServer lb serverId loadAmount in
  zeroLoads (servers lb') = zeroLoads (servers lb) /\
  currentAlgorithm lb' = currentAlgorithm lb /\
  nextServerId lb' = nextServerId lb /\
  randomLoadAmount lb' = randomLoadAmount lb.
Proof.
  unfold addLoadToServer.
  destruct (findServer _ _) as [[i s]|] eqn:Hfind; [|done].
  destruct (online s); [|done]. simpl. split; [|done].
  apply findServer_Some in Hfind as (Hi & _). apply zeroLoads_insert, Hi.
Qed.

Lemma registryInvariant_fields (lb lb' : LoadBalancer) :
  servers lb' = servers lb -> nextServerId lb' = nextServerId lb ->
  registryInvariant lb -> registryInvariant lb'.
Proof. unfold registryInvariant. intros -> ->. done. Qed.

Lemma positiveIds_frame (l l' : list Server) :
  zeroLoads l' = zeroLoads l ->
  Forall (fun s => 0 < id s) l -> Forall (fun s => 0 < id s) l'.
Proof.
  intros H. apply (idsP_frame (fun i => 0 < i)), frame_ids, H.
Qed.

Lemma simulatorInvariant_addServer (lb : LoadBalancer) (cap : Z) :
  simulatorInvariant lb -> simulatorInvariant (addServer lb cap).
Proof.
  intros (Hreg & Hpos & Hnext & Hamount).
  split; [apply registryInvariant_addServer, Hreg|]. simpl.
  split; [|lia]. apply Forall_app. split; [exact Hpos|].
  repeat constructor. simpl. lia.
Qed.

Lemma simulatorInvariant_addSystemLoad (lb : LoadBalancer) (loadAmount : Z)
    (lb' : LoadBalancer) (rep : report) :
  simulatorInvariant lb -> addSystemLoad lb loadAmount = Some (lb', rep) ->
  simulatorInvariant lb'.
Proof.
  intros (Hreg & Hpos & Hnext & Hamount) Hadd.
  split; [apply (registryInvariant_addSystemLoad _ _ _ _ Hreg Hadd)|].
  apply addSystemLoad_fields in Hadd as (Hz & _ & -> & ->).
  split; [apply (positiveIds_frame _ _ Hz Hpos)|done].
Qed.

Lemma simulatorInvariant_rebalanceLoads (lb lb' : LoadBalancer) (rep : report) :
  simulatorInvariant lb -> rebalanceLoads lb = Some (lb', rep) ->
  simulatorInvariant lb'.
Proof.
  intros (Hreg & Hpos & Hnext & Hamount) Hr.
  split; [apply (registryInvariant_rebalanceLoads _ _ _ Hreg Hr)|].
  apply rebalanceLoads_fields in Hr as (Hz & _ & -> & ->).
  split; [apply (positiveIds_frame _ _ Hz Hpos)|done].
Qed.

Lemma simulatorInvariant_removeServer (lb : LoadBalancer) (serverId : Z)
    (lb' : LoadBalancer) (b : bool) :
  simulatorInvariant lb -> removeServer lb serverId = Some (lb', b) ->
  simulatorInvariant lb'.
Proof.
  intros (Hreg & Hpos & Hnext & Hamount) Hr.
  split; [apply (registryInvariant_removeServer _ _ _ _ Hreg Hr)|].
  apply removeServer_fields in Hr as (Hfind & _ & -> & ->).
  split; [|done].
  destruct (findServer _ _) as [[i s]|].
  - destruct Hfind as [_ Hz]. apply (positiveIds_frame _ _ Hz).
    apply Forall_delete, Hpos.
  - destruct Hfind as [_ ->]. exact Hpos.
Qed.

Lemma simulatorInvariant_addLoadToServer (lb : LoadBalancer)
    (serverId loadAmount : Z) :
  simulatorInvariant lb ->
  simulatorInvariant (addLoadToServer lb serverId loadAmount).
Proof.
  intros (Hreg & Hpos & Hnext & Hamount).
  split; [apply registryInvariant_addLoadToServer, Hreg|].
  destruct (addLoadToServer_fields lb serverId loadAmount) as (Hz & _ & -> & ->).
  split; [apply (positiveIds_frame _ _ Hz Hpos)|done].
Qed.

Lemma simulatorInvariant_processCommand (lb : LoadBalancer) (command : ascii)
    (lb' : LoadBalancer) (b : bool) :
  simulatorInvariant lb -> processCommand lb command = Some (lb', b) ->
  simulatorInvariant lb'.
Proof.
  intros Hinv. pose proof Hinv as (Hreg & Hpos & Hnext & Hamount).
  unfold processCommand.
  repeat match goal with
         | |- context [Ascii.eqb ?a ?b] => destruct (Ascii.eqb a b)
         end.
  - unfold addRandomLoad.
    destruct (addSystemLoad _ _) as [[lb1 r]|] eqn:Hadd; [|done].
    intros [= <- _]. apply (simulatorInvariant_addSystemLoad _ _ _ _ Hinv Hadd).
  - intros [= <- _]. apply simulatorInvariant_addServer, Hinv.
  - destruct (servers lb) eqn:Hl; [intros [= <- _]; exact Hinv|].
    destruct (removeServer _ _) as [[lb1 r]|] eqn:Hrm; [|done].
    intros [= <- _]. apply (simulatorInvariant_removeServer _ _ _ _ Hinv Hrm).
  - destruct (rebalanceLoads lb) as [[lb1 r]|] eqn:Hr; [|done].
    intros [= <- _]. apply (simulatorInvariant_rebalanceLoads _ _ _ Hinv Hr).
  - intros [= <- _]. exact Hinv.
  - intros [= <- _]. split; [exact Hreg|]. simpl. split; [exact Hpos|lia].
  - destruct (Z.ltb_spec 5 (randomLoadAmount lb)); intros [= <- _];
      [|exact Hinv].
    split; [exact Hreg|]. simpl. split; [exact Hpos|lia].
  - intros [= <- _]. exact Hinv.
  - intros [= <- _]. exact Hinv.
  - cbv zeta. destruct (_ && _); intros [= <- _]; [|exact Hinv].
    apply simulatorInvariant_addLoadToServer, Hinv.
Qed.

Lemma simulatorInvariant_new : simulatorInvariant newLoadBalancer.
Proof.
  unfold newLoadBalancer. simpl Nat.iter.
  do 3 apply simulatorInvariant_addServer.
  split; [|split; [constructor|simpl; lia]].
  split; [constructor|]. split; constructor.
Qed.

End RegistryLookup.

Section CommandProperties.

(** X7.  The constructor establishes, and every interactive command keeps,
    the state the simulator relies on: server ids are positive, strictly
    ascending along the registry (so unique) and below [nextServerId], no
    load is negative, and the load step [randomLoadAmount] is positive. *)
Theorem commands_keep_the_simulator_invariant :
  simulatorInvariant newLoadBalancer /\
  forall lb command lb' b,
    simulatorInvariant lb ->
    processCommand lb command = Some (lb', b) ->
    simulatorInvariant lb'.
Proof.
  split; [exact simulatorInvariant_new|].
  intros lb command lb' b. apply simulatorInvariant_processCommand.
Qed.

Lemma commands_keep_the_simulator_invariant_witness :
  exists lb', processCommand newLoadBalancer "d" = Some (lb', true) /\
              simulatorInvariant lb'.
Proof.
  destruct commands_keep_the_simulator_invariant as [Hnew Hkeep].
  eexists. split; [reflexivity|].
  apply (Hkeep newLoadBalancer "d"%char _ true Hnew). reflexivity.
Defined.

Lemma ascendingIds_lookup_lt (l : list Server) :
  ascendingIds l ->
  forall k j s s', l !! k = Some s -> l !! j = Some s' -> (k < j)%nat ->
  id s < id s'.
Proof.
  unfold ascendingIds. induction l as [|a l IH]; intros Hs k j s s' Hk Hj Hlt.
  - rewrite lookup_nil in Hk. done.
  - simpl in Hs. apply StronglySorted_inv in Hs as [Hs Hhd].
    destruct k as [|k], j as [|j]; simpl in *; try lia.
    + injection Hk as <-. rewrite List.Forall_forall in Hhd. apply Hhd.
      apply list_elem_of_In. apply list_elem_of_fmap. exists s'.
      split; [reflexivity|]. eapply list_elem_of_lookup_2, Hj.
    + apply (IH Hs k j); [done..|lia].
Qed.

Lemma findServer_unique (l : list Server) (i : nat) (s : Server) :
  ascendingIds l -> l !! i = Some s -> findServer (id s) l = Some (i, s).
Proof.
  intros Hasc Hi. apply findServer_Some. split; [exact Hi|]. split; [reflexivity|].
  intros j s' Hj Hid. destruct (Nat.le_gt_cases i j) as [|Hlt]; [done|].
  pose proof (ascendingIds_lookup_lt l Hasc j i s' s Hj Hi Hlt). lia.
Qed.

Lemma findServer_delete_None (l : list Server) (i : nat) (s : Server) :
  ascendingIds l -> l !! i = Some s -> findServer (id s) (delete i l) = None.
Proof.
  intros Hasc Hi. apply findServer_None. intros x Hx Hid.
  apply list_elem_of_lookup in Hx as [j Hj].
  destruct (Nat.lt_ge_cases j i) as [Hlt|Hge].
  - rewrite list_lookup_delete_lt in Hj by exact Hlt.
    pose proof (ascendingIds_lookup_lt l Hasc j i x s Hj Hi Hlt). lia.
  - rewrite list_lookup_delete_ge in Hj by exact Hge.
    pose proof (ascendingIds_lookup_lt l Hasc i (S j) s x Hi Hj ltac:(lia)). lia.
Qed.

Lemma findServer_frame (serverId : Z) (l l' : list Server) :
  zeroLoads l' = zeroLoads l ->
  findServer serverId l = None -> findServer serverId l' = None.
Proof.
  intros Hz Hnone. apply findServer_None. intros x Hx Hid.
  assert (Hin : id x ∈ map id l).
  { rewrite <- (frame_ids _ _ Hz). apply list_elem_of_fmap. eauto. }
  apply list_elem_of_fmap in Hin as (y & Hy & Hyin).
  rewrite findServer_None in Hnone. apply (Hnone y Hyin). congruence.
Qed.

(** X8.  Adding a server and looking it up.  In a registry that satisfies
    the invariant, [addServer] hands out [nextServerId]: a lookup of that id
    afterwards finds the new server (online, without load, at full
    performance, with the requested capacity), and the lookup of every other
    id answers as before. *)
Theorem addServer_then_getServer (lb : LoadBalancer) (cap : Z) :
  registryInvariant lb ->
  getServer (addServer lb cap) (nextServerId lb)
  = Some (newServer (nextServerId lb) cap) /\
  forall serverId, serverId <> nextServerId lb ->
    getServer (addServer lb cap) serverId = getServer lb serverId.
Proof.
  intros (_ & Hlt & _). unfold getServer, findServer, addServer. simpl. split.
  - rewrite list_find_app_r.
    + simpl. destruct (decide (nextServerId lb = nextServerId lb)); [|done].
      reflexivity.
    + apply list_find_None. eapply Forall_impl; [exact Hlt|]. simpl. intros; lia.
  - intros serverId Hne.
    destruct (list_find (fun s => id s = serverId) (servers lb)) as [[i s]|] eqn:Hf.
    + rewrite (list_find_app_l _ _ _ _ _ Hf). reflexivity.
    + rewrite list_find_app_r by exact Hf. simpl.
      destruct (decide (nextServerId lb = serverId)); [congruence|]. reflexivity.
Qed.

Lemma addServer_then_getServer_witness :
  getServer (addServer newLoadBalancer 250) 4 = Some (newServer 4 250) /\
  getServer (addServer newLoadBalancer 250) 2 = getServer newLoadBalancer 2.
Proof.
  destruct (addServer_then_getServer newLoadBalancer 250) as [Hnew Hold].
  - apply simulatorInvariant_new.
  - split; [exact Hnew|]. apply Hold. discriminate.
Defined.

(** X9.  Removing a server.  With an id that no server carries,
    [removeServer] returns [false] and changes nothing.  Otherwise, in a
    registry that satisfies the invariant, it returns [true], the id can no
    longer be found, and the other servers stay in their order with their
    ids, capacities, multipliers, flags and status texts (only loads move,
    by the redistribution). *)
Theorem removeServer_then_getServer (lb : LoadBalancer) (serverId : Z) :
  registryInvariant lb ->
  match findServer serverId (servers lb) with
  | None => removeServer lb serverId = Some (lb, false)
  | Some (i, s) =>
      exists lb',
        removeServer lb serverId = Some (lb', true) /\
        getServer lb' serverId = None /\
        zeroLoads (servers lb') = zeroLoads (delete i (servers lb)) /\
        nextServerId lb' = nextServerId lb
  end.
Proof.
  intros (Hasc & _ & _).
  destruct (removeServer_total lb serverId) as [[lb' b] Hrm].
  pose proof (removeServer_fields _ _ _ _ Hrm) as (Hfind & _ & Hnext & _).
  destruct (findServer serverId (servers lb)) as [[i s]|] eqn:Hf.
  - destruct Hfind as [-> Hz]. exists lb'. split; [exact Hrm|].
    split; [|split; assumption].
    apply findServer_Some in Hf as (Hi & <- & _).
    unfold getServer. rewrite (findServer_frame (id s) _ _ Hz); [reflexivity|].
    apply findServer_delete_None; assumption.
  - destruct Hfind as [-> ->]. exact Hrm.
Qed.

Lemma removeServer_then_getServer_witness :
  exists lb', removeServer newLoadBalancer 2 = Some (lb', true) /\
              getServer lb' 2 = None.
Proof.
  pose proof (removeServer_then_getServer newLoadBalancer 2
                (proj1 simulatorInvariant_new)) as H.
  change (findServer 2 (servers newLoadBalancer))
    with (Some (1%nat, newServer 2 100)) in H.
  destruct H as (lb' & Hrm & Hget & _). exists lb'. split; assumption.
Defined.

Lemma highestId_app (l : list Server) (s : Server) :
  highestId (l ++ [s])
  = if highestId l <? id s then id s else highestId l.
Proof. unfold highestId. rewrite fold_left_app. reflexivity. Qed.

Lemma highestId_elem (l : list Server) :
  highestId l = 0 \/ exists s, s ∈ l /\ highestId l = id s.
Proof.
  induction l as [|s l IH] using rev_ind; [left; reflexivity|].
  rewrite highestId_app. destruct (highestId l <? id s).
  - right. exists s. split; [|reflexivity]. apply elem_of_app. right. left.
  - destruct IH as [H0|(x & Hx & Hid)]; [left; exact H0|].
    right. exists x. split; [|exact Hid]. apply elem_of_app. left. exact Hx.
Qed.

Lemma highestId_last (l : list Server) (s : Server) :
  ascendingIds (l ++ [s]) -> 0 < id s -> highestId (l ++ [s]) = id s.
Proof.
  intros Hasc Hpos. rewrite highestId_app.
  destruct (Z.ltb_spec (highestId l) (id s)) as [|Hge]; [reflexivity|].
  destruct (highestId_elem l) as [H0|(x & Hx & Hid)]; [lia|].
  apply list_elem_of_lookup in Hx as [j Hj].
  pose proof (ascendingIds_lookup_lt (l ++ [s]) Hasc j (length l) x s
                ltac:(apply lookup_app_l_Some; exact Hj)
                ltac:(apply list_lookup_middle; reflexivity)
                ltac:(apply lookup_lt_Some in Hj; exact Hj)).
  lia.
Qed.

Lemma delete_last {A : Type} (l : list A) (x : A) :
  delete (length l) (l ++ [x]) = l.
Proof. induction l as [|a l IH]; simpl; [reflexivity|]. f_equal. exact IH. Qed.

(** X10.  Command ['d'] removes the last server of the registry: under the
    invariant the highest id is the id of the last server, so afterwards
    the registry holds the servers before it, in order, unchanged up to
    their loads.  On an empty registry the command does nothing. *)
Theorem command_d_removes_the_last_server (lb : LoadBalancer) :
  simulatorInvariant lb ->
  exists lb',
    processCommand lb "d" = Some (lb', true) /\
    zeroLoads (servers lb') = zeroLoads (removelast (servers lb)) /\
    (servers lb = [] -> lb' = lb).
Proof.
  intros ((Hasc & Hreg) & Hpos & _).
  change (processCommand lb "d")
    with (match servers lb with
          | [] => Some (lb, true)
          | _ => match removeServer lb (highestId (servers lb)) with
                 | Some (lb', _) => Some (lb', true)
                 | None => None
                 end
          end).
  destruct (servers lb) as [|s0 l0] eqn:Hl; [exists lb; rewrite Hl; done|].
  destruct (exists_last (l := s0 :: l0) ltac:(done)) as (pre & s & Hlast).
  rewrite Hlast in *. rewrite removelast_last.
  rewrite highestId_last;
    [|exact Hasc
     |rewrite Forall_app, Forall_singleton in Hpos; apply Hpos].
  destruct (removeServer_total lb (id s)) as [[lb' b] Hrm]. rewrite Hrm.
  exists lb'. split; [reflexivity|]. split; [|destruct pre; done].
  apply removeServer_fields in Hrm as (Hfind & _). rewrite Hl in Hfind.
  rewrite (findServer_unique (pre ++ [s]) (length pre) s Hasc) in Hfind
    by (apply list_lookup_middle; reflexivity).
  destruct Hfind as [_ Hz]. rewrite Hz, delete_last. reflexivity.
Qed.

Lemma command_d_removes_the_last_server_witness :
  exists lb',
    processCommand newLoadBalancer "d" = Some (lb', true) /\
    map id (servers lb') = [1; 2].
Proof.
  destruct (command_d_removes_the_last_server newLoadBalancer
              simulatorInvariant_new) as (lb' & Hd & Hz & _).
  exists lb'. split; [exact Hd|]. apply frame_ids in Hz. exact Hz.
Defined.

(** X11.  The configuration keys.  ['m'] steps through Round Robin, Least
    Loaded and Weighted Optimization and changes nothing else, so that three
    presses restore the balancer; ['+'] followed by ['-'] restores a
    balancer whose load step is positive; ['-'] lowers a load step above 5
    by 5, which leaves it positive, and leaves a step of 5 or less as it
    is. *)
Theorem configuration_keys (lb : LoadBalancer) :
  (exists lb1 lb2,
     processCommand lb "m" = Some (lb1, true) /\
     processCommand lb1 "m" = Some (lb2, true) /\
     processCommand lb2 "m" = Some (lb, true) /\
     servers lb1 = servers lb /\ servers lb2 = servers lb /\
     currentAlgorithm lb1 <> currentAlgorithm lb /\
     currentAlgorithm lb2 <> currentAlgorithm lb /\
     currentAlgorithm lb1 <> currentAlgorithm lb2) /\
  (0 < randomLoadAmount lb ->
   exists lb1,
     processCommand lb "+" = Some (lb1, true) /\
     randomLoadAmount lb1 = randomLoadAmount lb + 5 /\
     processCommand lb1 "-" = Some (lb, true)) /\
  (exists lb1,
     processCommand lb "-" = Some (lb1, true) /\
     (randomLoadAmount lb <= 5 -> lb1 = lb) /\
     (5 < randomLoadAmount lb ->
      randomLoadAmount lb1 = randomLoadAmount lb - 5 /\ 0 < randomLoadAmount lb1)).
Proof.
  destruct lb as [l alg next amount]. split; [|split].
  - destruct alg; do 2 eexists; repeat split; try reflexivity; discriminate.
  - simpl. intros Hpos. eexists. split; [reflexivity|]. split; [reflexivity|].
    cbn. destruct (Z.ltb_spec 5 (amount + 5)); [|lia].
    unfold setRandomLoadAmount. simpl. do 3 f_equal. lia.
  - cbn. destruct (Z.ltb_spec 5 amount); eexists; (split; [reflexivity|]);
      simpl; split; intros; try lia; reflexivity.
Qed.

Lemma configuration_keys_witness :
  exists lb1,
    processCommand newLoadBalancer "+" = Some (lb1, true) /\
    randomLoadAmount lb1 = 15 /\
    processCommand lb1 "-" = Some (newLoadBalancer, true).
Proof.
  apply (proj1 (proj2 (configuration_keys newLoadBalancer))). reflexivity.
Defined.

End CommandProperties.

Section ScalabilityDemo.

Lemma forEach_invariant {A : Type} (body : nat -> A -> option A)
    (J : nat -> A -> Prop) (start : nat) :
  forall n k a a',
  (forall i x x', J i x -> body (start + i)%nat x = Some x' -> J (S i) x') ->
  J k a ->
  forEach body (seq (start + k) n) a = Some a' ->
  J (k + n)%nat a'.
Proof.
  induction n as [|n IH]; intros k a a' Hstep Hk; simpl.
  - intros [= <-]. rewrite Nat.add_0_r. exact Hk.
  - destruct (body (start + k)%nat a) as [a1|] eqn:Hbody; [|done].
    intros Hrest. replace (k + S n)%nat with (S k + n)%nat by lia.
    apply (IH (S k) a1 a' Hstep); [apply (Hstep k a a1 Hk Hbody)|].
    replace (start + S k)%nat with (S (start + k)) by lia. exact Hrest.
Qed.

Lemma simulatorInvariant_take (lb : LoadBalancer) (n : nat) :
  simulatorInvariant lb ->
  simulatorInvariant (withServers lb (take n (servers lb))).
Proof.
  intros ((Hasc & Hlt & Hnn) & Hpos & Hnext & Hamount).
  split; [|split; [apply Forall_take, Hpos|done]].
  split; [|split; apply Forall_take; assumption].
  unfold ascendingIds in *. simpl.
  rewrite <- (firstn_skipn n (map id (servers lb))) in Hasc.
  apply StronglySorted_app_1_l in Hasc. rewrite firstn_map in Hasc. exact Hasc.
Qed.

Lemma simulatorInvariant_iter_addServer (n : nat) (lb : LoadBalancer) :
  simulatorInvariant lb ->
  simulatorInvariant (Nat.iter n (fun lb => addServer lb 100) lb) /\
  length (servers (Nat.iter n (fun lb => addServer lb 100) lb))
  = (length (servers lb) + n)%nat.
Proof.
  intros Hinv. induction n as [|n [IH Hlen]]; simpl.
  - split; [exact Hinv|lia].
  - split; [apply simulatorInvariant_addServer, IH|].
    rewrite length_app, Hlen. simpl. lia.
Qed.

Lemma simulatorInvariant_reset (lb : LoadBalancer) :
  simulatorInvariant lb ->
  simulatorInvariant
    (withServers lb (map (fun s => setCurrentLoad s 0) (servers lb))).
Proof.
  intros (Hreg & Hpos & Hnext & Hamount).
  fold (zeroLoads (servers lb)). split; [|split; [|done]].
  - apply registryInvariant_distribute; [exact Hreg|apply zeroLoads_idemp|].
    unfold zeroLoads. apply Forall_forall. intros s Hin.
    apply list_elem_of_fmap in Hin as (s0 & -> & _). simpl. lia.
  - simpl. apply (positiveIds_frame (servers lb)); [apply zeroLoads_idemp|].
    exact Hpos.
Qed.

Lemma scaleUp_spec (i : nat) (lb lb' : LoadBalancer) :
  simulatorInvariant lb -> scaleUp i lb = Some lb' ->
  simulatorInvariant lb' /\
  length (servers lb') = S (length (servers lb)) /\
  currentAlgorithm lb'
  = (if Z.of_nat i mod 2 =? 0 then LEAST_LOADED else WEIGHTED_OPTIMIZATION).
Proof.
  intros Hinv. unfold scaleUp.
  pose proof (simulatorInvariant_addServer lb 100 Hinv) as Hinv1.
  destruct (addSystemLoad (addServer lb 100) 30) as [[lb2 r2]|] eqn:Hadd; [|done].
  pose proof (simulatorInvariant_addSystemLoad _ _ _ _ Hinv1 Hadd) as Hinv2.
  apply addSystemLoad_fields in Hadd as (Hz2 & _).
  apply zeroLoads_length in Hz2. simpl in Hz2. rewrite length_app in Hz2.
  simpl in Hz2.
  set (alg := if Z.of_nat i mod 2 =? 0 then LEAST_LOADED
              else WEIGHTED_OPTIMIZATION).
  replace (if Z.of_nat i mod 2 =? 0 then setBalancingAlgorithm lb2 LEAST_LOADED
           else setBalancingAlgorithm lb2 WEIGHTED_OPTIMIZATION)
    with (setBalancingAlgorithm lb2 alg)
    by (unfold alg; destruct (_ =? _); reflexivity).
  destruct (rebalanceLoads (setBalancingAlgorithm lb2 alg)) as [[lb4 r4]|] eqn:Hr;
    [|done].
  intros [= <-].
  assert (Hinv3 : simulatorInvariant (setBalancingAlgorithm lb2 alg)) by exact Hinv2.
  split; [apply (simulatorInvariant_rebalanceLoads _ _ _ Hinv3 Hr)|].
  apply rebalanceLoads_fields in Hr as (Hz4 & Halg & _).
  apply zeroLoads_length in Hz4. simpl in *. split; [lia|exact Halg].
Qed.

(** X12.  The scalability demo.  From every state that satisfies the
    invariant, whatever the number of servers and the algorithm it starts
    from, [runScalabilityDemo] runs to its end and leaves exactly eight
    servers with Least Loaded selected; the invariant holds again
    afterwards. *)
Theorem scalability_demo_ends_with_eight_servers (lb : LoadBalancer) :
  simulatorInvariant lb ->
  exists lb',
    runScalabilityDemo lb = Some lb' /\
    length (servers lb') = 8%nat /\
    currentAlgorithm lb' = LEAST_LOADED /\
    simulatorInvariant lb'.
Proof.
  intros Hinv. destruct (runScalabilityDemo_total lb) as [lb' Hrun].
  exists lb'. split; [exact Hrun|]. revert Hrun.
  unfold runScalabilityDemo. cbv zeta.
  set (lb1 := withServers lb (take 3 (servers lb))).
  set (lb2 := Nat.iter (3 - length (servers lb1)) (fun b => addServer b 100) lb1).
  set (lb3 := withServers lb2 (map (fun s => setCurrentLoad s 0) (servers lb2))).
  set (lb4 := setBalancingAlgorithm lb3 ROUND_ROBIN).
  assert (Hinv1 : simulatorInvariant lb1) by apply simulatorInvariant_take, Hinv.
  destruct (simulatorInvariant_iter_addServer (3 - length (servers lb1)) lb1 Hinv1)
    as [Hinv2 Hlen2]. fold lb2 in Hinv2, Hlen2.
  assert (Hlen1 : (length (servers lb1) <= 3)%nat).
  { unfold lb1. simpl. rewrite length_take. lia. }
  assert (Hinv4 : simulatorInvariant lb4).
  { apply (simulatorInvariant_reset lb2 Hinv2). }
  assert (Hlen4 : length (servers lb4) = 3%nat).
  { unfold lb4, lb3. simpl. rewrite length_map. lia. }
  destruct (forEach _ (seq 0 5) lb4) as [lb5|] eqn:Hfirst; [|done].
  apply (forEach_invariant _
           (fun _ x => simulatorInvariant x /\ length (servers x) = 3%nat)
           0 5 0 lb4 lb5) in Hfirst as [Hinv5 Hlen5]; [| |split; assumption].
  2:{ intros i x x' [Hx Hlenx] Hbody.
      destruct (addSystemLoad x 20) as [[x1 r]|] eqn:Hadd; [|done].
      injection Hbody as <-.
      split; [apply (simulatorInvariant_addSystemLoad _ _ _ _ Hx Hadd)|].
      apply addSystemLoad_fields in Hadd as (Hz & _).
      apply zeroLoads_length in Hz. lia. }
  intros Hsecond.
  apply (forEach_invariant _
           (fun k x => simulatorInvariant x /\
                       length (servers x) = (3 + k)%nat /\
                       (k = 5%nat -> currentAlgorithm x = LEAST_LOADED))
           0 5 0 lb5 lb') in Hsecond as (Hinv' & Hlen' & Halg').
  - split; [exact Hlen'|]. split; [apply Halg'; reflexivity|exact Hinv'].
  - intros i x x' (Hx & Hlenx & _) Hbody.
    apply scaleUp_spec in Hbody as (Hx' & Hlenx' & Halgx'); [|exact Hx].
    split; [exact Hx'|]. split; [lia|].
    intros Hi. injection Hi as ->. rewrite Halgx'. reflexivity.
  - split; [exact Hinv5|]. split; [lia|]. discriminate.
Qed.

Lemma scalability_demo_ends_with_eight_servers_witness :
  exists lb',
    runScalabilityDemo newLoadBalancer = Some lb' /\
    length (servers lb') = 8%nat /\
    currentAlgorithm lb' = LEAST_LOADED.
Proof.
  destruct (scalability_demo_ends_with_eight_servers newLoadBalancer
              simulatorInvariant_new) as (lb' & Hrun & Hlen & Halg & _).
  exists lb'. split; [exact Hrun|]. split; assumption.
Defined.

End ScalabilityDemo.

(** ** Degenerate registries *)

Section Degenerate.

Lemma firstOnline_all_offline (l : list Server) :
  Forall (fun s => online s = false) l -> firstOnline l = length l.
Proof.
  induction 1 as [|s l Hs _ IH]; simpl; [reflexivity|]. rewrite Hs, IH. reflexivity.
Qed.

Lemma selectBest_all_offline (l : list Server) :
  Forall (fun s => online s = false) l ->
  forall i best ba, selectBest i l best ba = (best, ba).
Proof.
  induction 1 as [|s l Hs _ IH]; intros i best ba; simpl; [reflexivity|].
  rewrite Hs. apply IH.
Qed.

Lemma totalEffectiveCapacity_none (l : list Server) :
  Forall (fun s => online s = true -> (performanceMultiplier s == 0)%Q) l ->
  (totalEffectiveCapacity l == 0)%Q.
Proof.
  intros H. rewrite totalEffectiveCapacity_onlineEffective.
  induction H as [|s l Hs _ IH]; simpl; [reflexivity|]. rewrite IH.
  unfold getEffectiveCapacity. destruct (online s); [|ring].
  rewrite (Hs eq_refl). ring.
Qed.

Lemma weighted_none (l : list Server) (loadAmount : Z) :
  l <> [] ->
  Forall (fun s => online s = true -> (performanceMultiplier s == 0)%Q) l ->
  distributeLoadWeightedOptimization l loadAmount = Some (l, NoEffectiveCapacity).
Proof.
  intros Hne H. unfold distributeLoadWeightedOptimization.
  destruct l as [|s0 l0]; [done|]. cbv zeta.
  replace (Qle_bool (totalEffectiveCapacity (s0 :: l0)) 0) with true; [reflexivity|].
  symmetry. apply Qle_bool_iff. rewrite (totalEffectiveCapacity_none _ H).
  apply Qle_refl.
Qed.

(** X28.  Degenerate registries.  On an empty registry every policy leaves
    things as they are and reports that there are no servers.  On a registry
    whose servers are all offline nothing changes either: Round Robin
    reports that no server is online, Least Loaded reports the whole
    (positive) request as the shortfall, Weighted Optimization reports that
    there is no effective capacity.  Weighted Optimization gives the same
    report, and places nothing, whenever every online server has a
    performance multiplier of 0, whatever capacity is free. *)
Theorem degenerate_registries_place_nothing (loadAmount : Z) :
  (forall algorithm, distribute algorithm [] loadAmount = Some ([], NoServers)) /\
  (forall l, l <> [] -> Forall (fun s => online s = false) l ->
     distribute ROUND_ROBIN l loadAmount = Some (l, NoOnlineServers) /\
     (0 < loadAmount ->
      distribute LEAST_LOADED l loadAmount
      = Some (l, InsufficientCapacity loadAmount)) /\
     distribute WEIGHTED_OPTIMIZATION l loadAmount
     = Some (l, NoEffectiveCapacity)) /\
  (forall l, l <> [] ->
     Forall (fun s => online s = true -> (performanceMultiplier s == 0)%Q) l ->
     distribute WEIGHTED_OPTIMIZATION l loadAmount
     = Some (l, NoEffectiveCapacity)).
Proof.
  split; [intros []; reflexivity|]. split.
  - intros l Hne Hoff. split; [|split].
    + simpl. unfold distributeLoadRoundRobin. destruct l as [|s0 l0]; [done|].
      rewrite (firstOnline_all_offline _ Hoff).
      rewrite (proj2 (Nat.leb_le _ _)) by lia. reflexivity.
    + intros Hpos. simpl. unfold distributeLoadLeastLoaded.
      destruct l as [|s0 l0]; [done|].
      destruct (Z.to_nat loadAmount) as [|fuel] eqn:Hfuel; [lia|].
      cbn [leastLoadedLoop]. destruct (Z.leb_spec loadAmount 0); [lia|].
      rewrite (selectBest_all_offline _ Hoff). reflexivity.
    + apply weighted_none; [exact Hne|].
      eapply Forall_impl; [exact Hoff|]. simpl. intros s Hs Hon. congruence.
  - intros l Hne H. apply weighted_none; assumption.
Qed.

End Degenerate.

(** ** The health simulator: lookups, forced states and simulated events *)

Section HealthOperations.
Import Health HealthSpec.

Lemma recordOf_cons (sid : Z) (x : ServerHealth) (l : list ServerHealth) :
  recordOf sid (x :: l)
  = if decide (serverId x = sid) then Some x else recordOf sid l.
Proof.
  unfold recordOf. simpl. destruct (decide (serverId x = sid)); [reflexivity|].
  destruct (list_find _ l) as [[i r]|]; reflexivity.
Qed.

Lemma updateFirst_cons (g : ServerHealth -> ServerHealth) (sid : Z)
    (x : ServerHealth) (l : list ServerHealth) :
  updateFirst g sid (x :: l)
  = if decide (serverId x = sid) then g x :: l else x :: updateFirst g sid l.
Proof.
  unfold updateFirst. simpl. destruct (decide (serverId x = sid)); [reflexivity|].
  destruct (list_find _ l) as [[i r]|]; reflexivity.
Qed.

Lemma getters_recordOf (l : list ServerHealth) (sid : Z) :
  getServerState l sid = from_option state HEALTHY (recordOf sid l) /\
  getServerHealthScore l sid = from_option healthScore 1%Q (recordOf sid l) /\
  getServerPerformanceMultiplier l sid
  = from_option performanceMultiplier 1%Q (recordOf sid l).
Proof.
  unfold getServerState, getServerHealthScore, getServerPerformanceMultiplier,
    recordOf.
  destruct (list_find _ l) as [[i r]|]; simpl; done.
Qed.

Lemma recordOf_None (sid : Z) (l : list ServerHealth) :
  recordOf sid l = None <-> (forall server, server ∈ l -> serverId server <> sid).
Proof.
  unfold recordOf. rewrite fmap_None, list_find_None, Forall_forall. reflexivity.
Qed.

Lemma recordOf_Some (sid : Z) (l : list ServerHealth) (server : ServerHealth) :
  recordOf sid l = Some server <-> exists i, firstRecord sid l i server.
Proof.
  unfold recordOf. split.
  - destruct (list_find _ l) as [[i r]|] eqn:Hf; [|done]. simpl. intros [= ->].
    exists i. apply findRecord_Some, Hf.
  - intros [i Hi]. apply findRecord_Some in Hi. rewrite Hi. reflexivity.
Qed.

Section UpdateFirst.

Variable g : ServerHealth -> ServerHealth.
Hypothesis g_id : forall server, serverId (g server) = serverId server.

Lemma updateFirst_recordOf (sid : Z) (l : list ServerHealth) :
  recordOf sid (updateFirst g sid l) = g <$> recordOf sid l.
Proof using g_id.
  induction l as [|x l IH]; [reflexivity|].
  rewrite updateFirst_cons, recordOf_cons.
  destruct (decide (serverId x = sid)) as [Hx|Hx].
  - rewrite recordOf_cons, g_id. destruct (decide (serverId x = sid)); done.
  - rewrite recordOf_cons. destruct (decide (serverId x = sid)); [done|]. exact IH.
Qed.

Lemma updateFirst_recordOf_other (sid other : Z) (l : list ServerHealth) :
  other <> sid -> recordOf other (updateFirst g sid l) = recordOf other l.
Proof using g_id.
  intros Hne. induction l as [|x l IH]; [reflexivity|].
  rewrite updateFirst_cons, (recordOf_cons other x l).
  destruct (decide (serverId x = sid)) as [Hx|Hx].
  - rewrite recordOf_cons, g_id.
    destruct (decide (serverId x = other)); [congruence|reflexivity].
  - rewrite recordOf_cons. destruct (decide (serverId x = other)); [done|exact IH].
Qed.

Lemma updateFirst_ids (sid : Z) (l : list ServerHealth) :
  map serverId (updateFirst g sid l) = map serverId l.
Proof using g_id.
  induction l as [|x l IH]; [reflexivity|]. rewrite updateFirst_cons.
  destruct (decide (serverId x = sid)); simpl; [rewrite g_id|rewrite IH];
    reflexivity.
Qed.

End UpdateFirst.

Lemma updateFirst_Forall (P : ServerHealth -> Prop)
    (g : ServerHealth -> ServerHealth) (sid : Z) (l : list ServerHealth) :
  (forall server, P server -> P (g server)) ->
  Forall P l -> Forall P (updateFirst g sid l).
Proof.
  intros Hg. induction 1 as [|x l Hx Hl IH]; [constructor|].
  rewrite updateFirst_cons. destruct (decide (serverId x = sid)); constructor; auto.
Qed.

Lemma updateFirst_missing (g : ServerHealth -> ServerHealth) (sid : Z)
    (l : list ServerHealth) :
  recordOf sid l = None -> updateFirst g sid l = l.
Proof.
  unfold recordOf, updateFirst.
  destruct (list_find _ l) as [[i r]|]; [done|reflexivity].
Qed.

Lemma degradeServerPerformance_updateFirst (l : list ServerHealth) (sid : Z)
    (f now : Q) :
  degradeServerPerformance l sid f now
  = updateFirst (fun server => if decide (state server = OFFLINE) then server
                               else degrade f now server) sid l.
Proof.
  unfold degradeServerPerformance, updateFirst.
  destruct (list_find _ l) as [[i r]|] eqn:Hf; [|reflexivity].
  destruct (decide (state r = OFFLINE)); [|reflexivity].
  symmetry. apply list_insert_id. apply list_find_Some in Hf. apply Hf.
Qed.

Lemma simulateHighLoad_degrade (l : list ServerHealth) (sid : Z) (f now : Q) :
  simulateHighLoad l sid f now = degradeServerPerformance l sid f now.
Proof.
  unfold simulateHighLoad, degradeServerPerformance.
  destruct (list_find _ l) as [[i r]|]; [|reflexivity].
  destruct (decide (state r = OFFLINE)); reflexivity.
Qed.

Lemma force_id (st : ServerState) (now : Q) (server : ServerHealth) :
  serverId (force st now server) = serverId server.
Proof. destruct st; reflexivity. Qed.

Lemma degrade_id (f now : Q) (server : ServerHealth) :
  serverId (if decide (state server = OFFLINE) then server
            else degrade f now server) = serverId server.
Proof.
  destruct (decide _); [reflexivity|]. unfold degrade.
  repeat case_Qltb; reflexivity.
Qed.

(** *** Consistency of state, multiplier and score *)

Lemma consistent_force (st : ServerState) (now : Q) (server : ServerHealth) :
  consistent (force st now server).
Proof. destruct st; unfold consistent; simpl; repeat split; lra. Qed.

Lemma consistent_transition (now rand : Q) (server : ServerHealth) :
  consistent server -> consistent (transition now rand server).
Proof.
  unfold transition, consistent. intros H.
  destruct (state server) eqn:Hst; repeat case_Qltb; simpl; rewrite ?Hst;
    first [exact H | repeat split; lra].
Qed.

Lemma consistent_bounds (server : ServerHealth) :
  consistent server -> (0 <= performanceMultiplier server <= 1)%Q.
Proof. unfold consistent. destruct (state server); intros H; lra. Qed.

Lemma consistent_degrade (f now : Q) (server : ServerHealth) :
  consistent server -> state server <> OFFLINE ->
  consistent (degrade f now server).
Proof.
  intros Hc Hon. pose proof (consistent_bounds server Hc) as Hpm.
  unfold degrade. rewrite clampFactor_eq. pose proof (clamp_bounds f) as Hcl.
  set (c := Qmax 0 (Qmin 1 f)) in *.
  assert (Hm : (0 <= performanceMultiplier server * c
                <= performanceMultiplier server)%Q) by nra.
  destruct (Qltb _ (1 # 10)) eqn:H1.
  { unfold consistent. simpl. split; reflexivity. }
  apply Qltb_ge in H1.
  destruct (Qltb _ (5 # 10)) eqn:H5.
  { apply Qltb_lt in H5. unfold consistent. simpl. split; assumption. }
  apply Qltb_ge in H5.
  destruct (Qltb _ (9 # 10)) eqn:H9.
  { apply Qltb_lt in H9. unfold consistent. simpl. split; assumption. }
  apply Qltb_ge in H9. unfold consistent in *. simpl.
  destruct (state server); [|lra|lra|done].
  destruct Hc as (? & ? & ?). repeat split; [lra|lra|assumption].
Qed.

Lemma consistent_updateServerStates (clock draws : nat -> Q) (l : list ServerHealth) :
  Forall consistent l ->
  forall i pos, Forall consistent (updateServerStates clock draws i pos l).1.
Proof.
  induction 1 as [|x l Hx _ IH]; intros i pos; simpl; [constructor|].
  destruct (Qltb _ 5).
  - specialize (IH (S i) pos).
    destruct (updateServerStates clock draws (S i) pos l) as [rest pos'].
    simpl in *. constructor; assumption.
  - specialize (IH (S i) (S pos)).
    destruct (updateServerStates clock draws (S i) (S pos) l) as [rest pos'].
    simpl in *. constructor; [apply consistent_transition, Hx|exact IH].
Qed.

Lemma consistent_setServerState (l : list ServerHealth) (sid : Z)
    (st : ServerState) (now : Q) :
  Forall consistent l -> Forall consistent (setServerState l sid st now).
Proof.
  apply (updateFirst_Forall consistent (force st now)).
  intros server _. apply consistent_force.
Qed.

Lemma consistent_degradeServerPerformance (l : list ServerHealth) (sid : Z)
    (f now : Q) :
  Forall consistent l -> Forall consistent (degradeServerPerformance l sid f now).
Proof.
  rewrite degradeServerPerformance_updateFirst. apply updateFirst_Forall.
  intros server Hc. destruct (decide _); [exact Hc|].
  apply consistent_degrade; assumption.
Qed.

Lemma consistent_simulateNetworkPartition (clock : nat -> Q)
    (affectedServers : list Z) :
  forall k l,
  Forall consistent l ->
  Forall consistent (simulateNetworkPartition clock k l affectedServers).
Proof.
  induction affectedServers as [|sid rest IH]; intros k l Hl; simpl; [exact Hl|].
  apply IH, consistent_setServerState, Hl.
Qed.

(** X13.  State, performance multiplier and health score stay consistent.
    If every record has its multiplier in the band of its state (Healthy:
    0.9 to 1, Degraded: 0.5 to 0.9, Critical: 0.1 to 0.5, Offline: 0) and a
    Healthy or Offline record its score 1 or 0, then the same holds after
    each operation of the simulator: a periodic update, a forced state, a
    degradation by any factor, a recovery, the registration or removal of a
    server, a random failure, a network partition, a high-load episode. *)
Theorem health_operations_keep_records_consistent (l : list ServerHealth) :
  Forall consistent l ->
  (forall clock draws i pos,
     Forall consistent (updateServerStates clock draws i pos l).1) /\
  (forall sid st now, Forall consistent (setServerState l sid st now)) /\
  (forall sid f now, Forall consistent (degradeServerPerformance l sid f now)) /\
  (forall sid now, Forall consistent (recoverServer l sid now)) /\
  (forall sid now, Forall consistent (addServer l sid now)) /\
  (forall sid, Forall consistent (removeServer l sid)) /\
  (forall index severity now,
     Forall consistent (simulateRandomFailure l index severity now)) /\
  (forall clock k affectedServers,
     Forall consistent (simulateNetworkPartition clock k l affectedServers)) /\
  (forall sid f now, Forall consistent (simulateHighLoad l sid f now)).
Proof.
  intros Hl.
  split; [intros; apply consistent_updateServerStates, Hl|].
  split; [intros; apply consistent_setServerState, Hl|].
  split; [intros; apply consistent_degradeServerPerformance, Hl|].
  split.
  { intros sid now. apply (consistent_setServerState l sid HEALTHY now Hl). }
  split.
  { intros sid now. unfold addServer.
    destruct (list_find _ l); [exact Hl|]. apply Forall_app. split; [exact Hl|].
    repeat constructor; unfold consistent; simpl; lra. }
  split.
  { intros sid. unfold removeServer. apply Forall_forall. intros x Hx.
    apply list_elem_of_filter in Hx as [_ Hx].
    rewrite Forall_forall in Hl. apply Hl, Hx. }
  split.
  { intros index severity now. unfold simulateRandomFailure.
    destruct l as [|x0 l0]; [exact Hl|].
    destruct (_ !! index); [|exact Hl].
    repeat case_Qltb; apply consistent_setServerState, Hl. }
  split; [intros; apply consistent_simulateNetworkPartition, Hl|].
  intros sid f now. rewrite simulateHighLoad_degrade.
  apply consistent_degradeServerPerformance, Hl.
Qed.

Lemma health_operations_keep_records_consistent_witness :
  Forall consistent (degradeServerPerformance oneHealthy 1 (3 # 10) 7).
Proof.
  apply (health_operations_keep_records_consistent oneHealthy).
  repeat constructor; unfold consistent; simpl; lra.
Defined.


(** *** Unknown and removed servers *)

Lemma recordOf_removeServer (l : list ServerHealth) (sid other : Z) :
  recordOf other (removeServer l sid)
  = if decide (other = sid) then None else recordOf other l.
Proof.
  unfold removeServer. induction l as [|x l IH].
  - destruct (decide (other = sid)); reflexivity.
  - rewrite filter_cons, (recordOf_cons other x l).
    destruct (decide (serverId x <> sid)) as [Hx|Hx].
    + rewrite recordOf_cons.
      destruct (decide (serverId x = other)) as [Hxo|Hxo]; [|exact IH].
      destruct (decide (other = sid)); [congruence|reflexivity].
    + rewrite IH. destruct (decide (other = sid)); [reflexivity|].
      destruct (decide (serverId x = other)); [|reflexivity].
      exfalso. apply Hx. congruence.
Qed.

(** X14.  A server the simulator does not know reads as healthy.  For an
    id without a record the three getters answer Healthy, score 1.0 and
    multiplier 1.0, and forcing a state, degrading, recovering and a
    high-load episode change nothing.  That is also what a removed server
    reads as: [removeServer] drops every record of the id and leaves the
    records of all other ids, in their order. *)
Theorem unknown_server_reads_as_healthy (l : list ServerHealth) (sid : Z) :
  (recordOf sid l = None ->
   getServerState l sid = HEALTHY /\
   getServerHealthScore l sid = 1%Q /\
   getServerPerformanceMultiplier l sid = 1%Q /\
   getServerStateLabel l sid = "HEALTHY"%string /\
   (forall st now, setServerState l sid st now = l) /\
   (forall f now, degradeServerPerformance l sid f now = l) /\
   (forall now, recoverServer l sid now = l) /\
   (forall f now, simulateHighLoad l sid f now = l)) /\
  recordOf sid (removeServer l sid) = None /\
  (forall other, other <> sid ->
     recordOf other (removeServer l sid) = recordOf other l) /\
  (forall server, server ∈ removeServer l sid <->
                  server ∈ l /\ serverId server <> sid).
Proof.
  split; [|split; [|split]].
  - intros Hnone. destruct (getters_recordOf l sid) as (Hst & Hsc & Hpm).
    unfold getServerStateLabel. rewrite Hst, Hsc, Hpm, Hnone. simpl.
    repeat split; try reflexivity.
    + intros st now. apply (updateFirst_missing _ _ _ Hnone).
    + intros f now. rewrite degradeServerPerformance_updateFirst.
      apply (updateFirst_missing _ _ _ Hnone).
    + intros now. apply (updateFirst_missing (enter HEALTHY 1 1 now) _ _ Hnone).
    + intros f now. rewrite simulateHighLoad_degrade,
        degradeServerPerformance_updateFirst.
      apply (updateFirst_missing _ _ _ Hnone).
  - rewrite recordOf_removeServer. destruct (decide (sid = sid)); done.
  - intros other Hne. rewrite recordOf_removeServer.
    destruct (decide (other = sid)); done.
  - intros server. unfold removeServer. rewrite list_elem_of_filter. tauto.
Qed.

Lemma unknown_server_reads_as_healthy_witness :
  getServerState oneHealthy 2 = HEALTHY /\
  setServerState oneHealthy 2 OFFLINE 9 = oneHealthy.
Proof.
  destruct (proj1 (unknown_server_reads_as_healthy oneHealthy 2) eq_refl)
    as (Hst & _ & _ & _ & Hset & _).
  split; [exact Hst|apply Hset].
Defined.

(** X15.  Registering a server.  [addServer] with an id that has a record
    changes nothing; with a new id it appends one record that reads Healthy
    with score 1.0 and multiplier 1.0.  In both cases every other id reads
    as before, and ids that were unique stay unique. *)
Theorem health_addServer_registers_once (l : list ServerHealth) (sid : Z)
    (now : Q) :
  (is_Some (recordOf sid l) -> addServer l sid now = l) /\
  (recordOf sid l = None ->
   addServer l sid now = l ++ [mkServerHealth sid HEALTHY 1 (1 # 100) (2 # 10) now 1] /\
   getServerState (addServer l sid now) sid = HEALTHY /\
   getServerHealthScore (addServer l sid now) sid = 1%Q /\
   getServerPerformanceMultiplier (addServer l sid now) sid = 1%Q) /\
  (forall other, other <> sid ->
     recordOf other (addServer l sid now) = recordOf other l) /\
  (NoDup (map serverId l) -> NoDup (map serverId (addServer l sid now))).
Proof.
  unfold addServer, recordOf at 1 2.
  destruct (list_find (fun sh => serverId sh = sid) l) as [[i r]|] eqn:Hf; simpl.
  - split; [reflexivity|]. split; [done|]. split; [reflexivity|]. done.
  - split; [intros [x Hx]; discriminate|].
    assert (Hnew : recordOf sid (l ++ [mkServerHealth sid HEALTHY 1 (1 # 100)
                                                      (2 # 10) now 1])
                   = Some (mkServerHealth sid HEALTHY 1 (1 # 100) (2 # 10) now 1)).
    { unfold recordOf. rewrite list_find_app_r by exact Hf. simpl.
      destruct (decide (sid = sid)); done. }
    split.
    { intros _. split; [reflexivity|].
      destruct (getters_recordOf
                  (l ++ [mkServerHealth sid HEALTHY 1 (1 # 100) (2 # 10) now 1])
                  sid) as (-> & -> & ->).
      rewrite Hnew. done. }
    split.
    { intros other Hne. unfold recordOf.
      destruct (list_find (fun sh => serverId sh = other) l) as [[j x]|] eqn:Ho.
      - rewrite (list_find_app_l _ _ _ _ _ Ho). reflexivity.
      - rewrite list_find_app_r by exact Ho. simpl.
        destruct (decide (sid = other)); [congruence|reflexivity]. }
    intros Hnd. rewrite map_app. simpl. apply NoDup_app. split; [exact Hnd|].
    split; [|apply NoDup_singleton].
    intros x Hx Hx'. apply list_elem_of_singleton in Hx' as ->.
    apply list_elem_of_fmap in Hx as (r & Hr & Hin).
    apply list_find_None in Hf. rewrite Forall_forall in Hf.
    apply (Hf r Hin). congruence.
Qed.

Lemma health_addServer_registers_once_witness :
  addServer oneHealthy 1 5 = oneHealthy /\
  getServerState (addServer oneHealthy 2 5) 2 = HEALTHY.
Proof.
  destruct (health_addServer_registers_once oneHealthy 1 5) as (Hsame & _).
  destruct (health_addServer_registers_once oneHealthy 2 5) as (_ & Hnew & _).
  split; [apply Hsame; eexists; reflexivity|].
  apply (Hnew eq_refl).
Defined.

(** *** Forced states *)

(** X16.  Forcing a state and reading it back.  For an id that has a
    record, [setServerState] makes the getters answer the forced state with
    the score and the multiplier of that state (1.0/1.0, 0.7/0.7, 0.3/0.4,
    0.0/0.0); the id and the two probabilities of the record stay, every
    other id reads as before and no record is added or dropped.
    [recoverServer] is [setServerState] to Healthy. *)
Theorem setServerState_then_get (l : list ServerHealth) (sid : Z)
    (st : ServerState) (now : Q) (server : ServerHealth) :
  recordOf sid l = Some server ->
  recordOf sid (setServerState l sid st now) = Some (force st now server) /\
  getServerState (setServerState l sid st now) sid = st /\
  getServerHealthScore (setServerState l sid st now) sid
  = match st with
    | HEALTHY => 1 | DEGRADED => 7 # 10 | CRITICAL => 3 # 10 | OFFLINE => 0
    end%Q /\
  getServerPerformanceMultiplier (setServerState l sid st now) sid
  = match st with
    | HEALTHY => 1 | DEGRADED => 7 # 10 | CRITICAL => 4 # 10 | OFFLINE => 0
    end%Q /\
  (forall other, other <> sid ->
     recordOf other (setServerState l sid st now) = recordOf other l) /\
  map serverId (setServerState l sid st now) = map serverId l /\
  recoverServer l sid now = setServerState l sid HEALTHY now.
Proof.
  intros Hrec.
  assert (Hnew : recordOf sid (setServerState l sid st now)
                 = Some (force st now server)).
  { change (setServerState l sid st now) with (updateFirst (force st now) sid l).
    rewrite (updateFirst_recordOf _ (force_id st now)), Hrec. reflexivity. }
  split; [exact Hnew|].
  destruct (getters_recordOf (setServerState l sid st now) sid) as (-> & -> & ->).
  rewrite Hnew. simpl.
  split; [destruct st; reflexivity|]. split; [destruct st; reflexivity|].
  split; [destruct st; reflexivity|]. split; [|split; [|reflexivity]].
  - intros other Hne.
    apply (updateFirst_recordOf_other _ (force_id st now) sid other l Hne).
  - apply (updateFirst_ids _ (force_id st now)).
Qed.

Lemma setServerState_then_get_witness :
  getServerState (setServerState oneHealthy 1 CRITICAL 9) 1 = CRITICAL /\
  getServerPerformanceMultiplier (setServerState oneHealthy 1 CRITICAL 9) 1
  = (4 # 10)%Q.
Proof.
  destruct (setServerState_then_get oneHealthy 1 CRITICAL 9 _ eq_refl)
    as (_ & Hst & _ & Hpm & _).
  split; assumption.
Defined.


(** *** Simulated events *)

Lemma force_force (st : ServerState) (now now' : Q) (x : option ServerHealth) :
  force st now' <$> (force st now <$> x) = force st now' <$> x.
Proof. destruct x as [r|]; [|reflexivity]. destruct st; reflexivity. Qed.

Lemma simulateNetworkPartition_recordOf (clock : nat -> Q)
    (affectedServers : list Z) (sid : Z) :
  forall k l,
  (sid ∉ affectedServers ->
   recordOf sid (simulateNetworkPartition clock k l affectedServers)
   = recordOf sid l) /\
  (sid ∈ affectedServers ->
   exists now,
     recordOf sid (simulateNetworkPartition clock k l affectedServers)
     = force OFFLINE now <$> recordOf sid l).
Proof.
  induction affectedServers as [|a rest IH]; intros k l; simpl.
  - split; [reflexivity|]. intros H. apply elem_of_nil in H. done.
  - destruct (IH (S k) (setServerState l a OFFLINE (clock k))) as [IHout IHin].
    assert (Hone : recordOf sid (setServerState l a OFFLINE (clock k))
                   = if decide (sid = a)
                     then force OFFLINE (clock k) <$> recordOf sid l
                     else recordOf sid l).
    { change (setServerState l a OFFLINE (clock k))
        with (updateFirst (force OFFLINE (clock k)) a l).
      destruct (decide (sid = a)) as [->|Hne].
      - apply (updateFirst_recordOf _ (force_id OFFLINE (clock k))).
      - apply (updateFirst_recordOf_other _ (force_id OFFLINE (clock k)) a sid l
                 Hne). }
    split.
    + intros Hout. apply not_elem_of_cons in Hout as [Hne Hrest].
      rewrite (IHout Hrest), Hone. destruct (decide (sid = a)); done.
    + intros Hin. destruct (decide (sid ∈ rest)) as [Hrest|Hrest].
      * destruct (IHin Hrest) as [now Hnow]. rewrite Hnow, Hone.
        destruct (decide (sid = a)); [|eauto].
        exists now. apply force_force.
      * apply elem_of_cons in Hin as [->|Hin]; [|done].
        rewrite (IHout Hrest), Hone. destruct (decide (a = a)); [eauto|done].
Qed.

Lemma simulateNetworkPartition_ids (clock : nat -> Q) (affectedServers : list Z) :
  forall k l,
  map serverId (simulateNetworkPartition clock k l affectedServers)
  = map serverId l.
Proof.
  induction affectedServers as [|a rest IH]; intros k l; simpl; [reflexivity|].
  rewrite IH. apply (updateFirst_ids _ (force_id OFFLINE (clock k))).
Qed.

(** X17.  A network partition cuts off exactly the listed servers.  After
    [simulateNetworkPartition] every listed id that has a record reads
    Offline with multiplier 0 and score 0, whatever its state was and
    however often it is listed; every id that is not listed keeps its
    record as it was; no record is added, dropped or moved. *)
Theorem network_partition_cuts_off_the_listed_servers (clock : nat -> Q)
    (k : nat) (l : list ServerHealth) (affectedServers : list Z) :
  let l' := simulateNetworkPartition clock k l affectedServers in
  map serverId l' = map serverId l /\
  (forall sid, sid ∈ affectedServers -> is_Some (recordOf sid l) ->
     getServerState l' sid = OFFLINE /\
     getServerPerformanceMultiplier l' sid = 0%Q /\
     getServerHealthScore l' sid = 0%Q) /\
  (forall sid, sid ∉ affectedServers -> recordOf sid l' = recordOf sid l).
Proof.
  intros l'. split; [apply simulateNetworkPartition_ids|]. split.
  - intros sid Hin [r Hr].
    destruct (proj2 (simulateNetworkPartition_recordOf clock affectedServers sid
                       k l) Hin) as [now Hnow].
    destruct (getters_recordOf l' sid) as (-> & -> & ->).
    unfold l'. rewrite Hnow, Hr. simpl. done.
  - intros sid Hout.
    apply (proj1 (simulateNetworkPartition_recordOf clock affectedServers sid
                    k l) Hout).
Qed.

Lemma consistent_nonneg (server : ServerHealth) :
  consistent server -> state server <> OFFLINE ->
  (1 # 10 <= performanceMultiplier server <= 1)%Q.
Proof. unfold consistent. destruct (state server); intros H Hon; [lra..|done]. Qed.

Lemma clampFactor_id (f : Q) : (0 < f)%Q -> (f < 1)%Q -> clampFactor f = f.
Proof.
  intros H0 H1. unfold clampFactor.
  rewrite (proj2 (Qltb_lt f 1) H1). rewrite (proj2 (Qltb_lt 0 f) H0). reflexivity.
Qed.

(** X18.  A high-load episode always demotes.  [simulateHighLoad] leaves an
    Offline server (and an unknown id) alone.  On any other server with a
    consistent record, for every factor the generator can draw from
    [0.5, 0.8], the multiplier is multiplied by the factor (and reset to 0
    if the product falls below 0.1), the server is never Healthy
    afterwards, and a server at full performance becomes Degraded with the
    factor as its multiplier.  Other ids read as before. *)
Theorem high_load_always_demotes (l : list ServerHealth) (sid : Z)
    (f now : Q) (server : ServerHealth) :
  recordOf sid l = Some server ->
  (state server = OFFLINE -> simulateHighLoad l sid f now = l) /\
  (state server <> OFFLINE -> consistent server ->
   (5 # 10 <= f)%Q -> (f <= 8 # 10)%Q ->
   exists server',
     recordOf sid (simulateHighLoad l sid f now) = Some server' /\
     state server' <> HEALTHY /\
     (performanceMultiplier server' == performanceMultiplier server * f
      \/ state server' = OFFLINE /\ performanceMultiplier server' == 0)%Q /\
     ((performanceMultiplier server == 1)%Q ->
      state server' = DEGRADED /\ (performanceMultiplier server' == f)%Q)) /\
  (forall other, other <> sid ->
     recordOf other (simulateHighLoad l sid f now) = recordOf other l).
Proof.
  intros Hrec. rewrite simulateHighLoad_degrade, degradeServerPerformance_updateFirst.
  split; [|split].
  - intros Hoff. unfold updateFirst, recordOf in *.
    destruct (list_find _ l) as [[i r]|] eqn:Hf; [|reflexivity].
    simpl in Hrec. injection Hrec as ->.
    destruct (decide (state server = OFFLINE)); [|done].
    apply list_insert_id. apply list_find_Some in Hf. apply Hf.
  - intros Hon Hc Hlo Hhi.
    rewrite (updateFirst_recordOf _ (degrade_id f now)), Hrec. simpl.
    destruct (decide (state server = OFFLINE)); [done|].
    eexists. split; [reflexivity|].
    pose proof (consistent_nonneg server Hc Hon) as Hpm.
    unfold degrade. rewrite clampFactor_id by lra.
    assert (Hprod : (performanceMultiplier server * f <= 8 # 10)%Q) by nra.
    destruct (Qltb _ (1 # 10)) eqn:H1.
    { apply Qltb_lt in H1. simpl. split; [discriminate|].
      split; [right; split; reflexivity|]. intros Hone. exfalso.
      assert ((performanceMultiplier server * f == f)%Q) by (rewrite Hone; ring).
      lra. }
    apply Qltb_ge in H1.
    destruct (Qltb _ (5 # 10)) eqn:H5.
    { apply Qltb_lt in H5. simpl. split; [discriminate|].
      split; [left; reflexivity|]. intros Hone. exfalso.
      assert ((performanceMultiplier server * f == f)%Q) by (rewrite Hone; ring).
      lra. }
    apply Qltb_ge in H5.
    destruct (Qltb _ (9 # 10)) eqn:H9.
    { simpl. split; [discriminate|]. split; [left; reflexivity|].
      intros Hone. split; [reflexivity|]. rewrite Hone. ring. }
    apply Qltb_ge in H9. exfalso. lra.
  - intros other Hne.
    apply (updateFirst_recordOf_other _ (degrade_id f now) sid other l Hne).
Qed.

Lemma high_load_always_demotes_witness :
  exists server',
    recordOf 1 (simulateHighLoad oneHealthy 1 (6 # 10) 9) = Some server' /\
    state server' = DEGRADED.
Proof.
  destruct (high_load_always_demotes oneHealthy 1 (6 # 10) 9 _ eq_refl)
    as (_ & Hdemote & _).
  destruct Hdemote as (server' & Hrec & _ & _ & Hfull).
  - discriminate.
  - unfold consistent. simpl. lra.
  - lra.
  - lra.
  - exists server'. split; [exact Hrec|]. apply Hfull. reflexivity.
Defined.

Lemma list_find_NoDup (l : list ServerHealth) (index : nat)
    (chosen : ServerHealth) :
  NoDup (map serverId l) -> l !! index = Some chosen ->
  list_find (fun sh => serverId sh = serverId chosen) l = Some (index, chosen).
Proof.
  intros Hnd Hi. apply list_find_Some. split; [exact Hi|]. split; [reflexivity|].
  intros j y Hj Hlt Hid.
  change (map serverId l) with (serverId <$> l) in Hnd.
  assert (j = index); [|lia].
  apply (NoDup_lookup _ _ _ (serverId chosen) Hnd).
  - rewrite list_lookup_fmap, Hj. simpl. congruence.
  - rewrite list_lookup_fmap, Hi. reflexivity.
Qed.

(** X19.  A random failure hits exactly the drawn server.  With unique ids
    (which [addServer] maintains), [simulateRandomFailure] replaces the
    record at the drawn index and no other: it becomes Degraded (0.7/0.7)
    for a severity below 0.2, Critical (0.3/0.4) below 0.7 and Offline (0/0)
    otherwise, never Healthy.  On an empty registry nothing happens. *)
Theorem random_failure_hits_the_drawn_server (l : list ServerHealth)
    (index : nat) (severity now : Q) (chosen : ServerHealth) :
  NoDup (map serverId l) -> l !! index = Some chosen ->
  simulateRandomFailure l index severity now
  = <[index := force (failureState severity) now chosen]> l /\
  failureState severity <> HEALTHY /\
  simulateRandomFailure [] index severity now = [].
Proof.
  intros Hnd Hi. split; [|split; [|reflexivity]].
  - unfold simulateRandomFailure, failureState.
    destruct l as [|x0 l0]; [done|]. rewrite Hi. unfold setServerState.
    rewrite (list_find_NoDup _ _ _ Hnd Hi).
    repeat case_Qltb; reflexivity.
  - unfold failureState. repeat case_Qltb; discriminate.
Qed.

Lemma random_failure_hits_the_drawn_server_witness :
  getServerState (simulateRandomFailure oneHealthy 0 (1 # 2) 9) 1 = CRITICAL.
Proof.
  destruct (random_failure_hits_the_drawn_server oneHealthy 0 (1 # 2) 9 _
              ltac:(apply NoDup_singleton) eq_refl) as (-> & _).
  reflexivity.
Defined.

End HealthOperations.

(** ** The monitor *)

Section MonitorProperties.
Import Monitor.

Lemma length_nonzero {A : Type} (l : list A) :
  l <> [] -> Qeq_bool (inject_Z (Z.of_nat (length l))) 0 = false.
Proof.
  intros Hne. apply Qeq_bool_inject_Z_0. destruct l; [done|simpl; lia].
Qed.

Lemma calculateAverageLoad_value (serverLoads : list Z) :
  serverLoads <> [] ->
  calculateAverageLoad serverLoads
  = Fin (inject_Z (accumulate serverLoads)
         / inject_Z (Z.of_nat (length serverLoads))).
Proof.
  intros Hne. unfold calculateAverageLoad, fdiv.
  destruct serverLoads as [|x l]; [done|].
  rewrite (length_nonzero (x :: l) Hne). reflexivity.
Qed.

(** As long as the running sum stays in the range of an [int], the
    accumulation is the sum of the loads. *)
Lemma accumulate_in_range (serverLoads : list Z) :
  forall sum,
  0 <= sum -> Forall (fun load => 0 <= load) serverLoads ->
  sum + sumLoads serverLoads <= INT_MAX ->
  fold_left (fun sum load => to_int (sum + load)) serverLoads sum
  = sum + sumLoads serverLoads.
Proof.
  induction serverLoads as [|x l IH]; intros sum Hsum Hnn Hmax.
  - unfold sumLoads. simpl. lia.
  - apply Forall_cons in Hnn as [Hx Hl]. rewrite sumLoads_cons in Hmax |- *.
    assert (0 <= sumLoads l).
    { clear -Hl. induction Hl as [|y l Hy _ IH]; [done|].
      rewrite sumLoads_cons. lia. }
    cbn [fold_left]. rewrite to_int_small by lia.
    rewrite IH by (done || lia). lia.
Qed.

Lemma accumulate_sum (serverLoads : list Z) :
  Forall (fun load => 0 <= load) serverLoads ->
  sumLoads serverLoads <= INT_MAX ->
  accumulate serverLoads = sumLoads serverLoads.
Proof.
  intros Hnn Hmax. unfold accumulate.
  rewrite accumulate_in_range by (done || lia). lia.
Qed.

Lemma variance_fold_value (avg : Q) (serverLoads : list Z) :
  forall acc,
  exists v,
    fold_left (fun variance load =>
                 fadd variance
                      (fmul (fsub (Fin (inject_Z load)) (Fin avg))
                            (fsub (Fin (inject_Z load)) (Fin avg))))
              serverLoads (Fin acc) = Fin v /\
    (v == acc + squaredDistances avg serverLoads)%Q.
Proof.
  induction serverLoads as [|x l IH]; intros acc; simpl.
  - exists acc. split; [reflexivity|ring].
  - destruct (IH (acc + (inject_Z x - avg) * (inject_Z x - avg))%Q)
      as (v & Hv & Heq).
    exists v. split; [exact Hv|]. rewrite Heq. ring.
Qed.

Lemma squaredDistances_nonneg (avg : Q) (serverLoads : list Z) :
  (0 <= squaredDistances avg serverLoads)%Q.
Proof.
  induction serverLoads as [|x l IH]; cbn [squaredDistances foldr];
    [apply Qle_refl|].
  fold (squaredDistances avg l). set (d := (inject_Z x - avg)%Q).
  assert (0 <= d * d)%Q by nra. lra.
Qed.

Lemma squaredDistances_zero (avg : Q) (serverLoads : list Z) :
  (squaredDistances avg serverLoads == 0)%Q <->
  forall x, x ∈ serverLoads -> (inject_Z x == avg)%Q.
Proof.
  induction serverLoads as [|x l IH]; cbn [squaredDistances foldr].
  - split; [|reflexivity]. intros _ y Hy. apply elem_of_nil in Hy. done.
  - fold (squaredDistances avg l).
    pose proof (squaredDistances_nonneg avg l) as Hl.
    set (d := (inject_Z x - avg)%Q).
    assert (Hd : (0 <= d * d)%Q) by nra. split.
    + intros Hsum y Hy.
      assert (Hx : (d * d == 0)%Q) by lra.
      assert (Hrest : (squaredDistances avg l == 0)%Q) by lra.
      apply elem_of_cons in Hy as [->|Hy]; [|apply IH; assumption].
      apply Qmult_integral in Hx. unfold d in Hx. destruct Hx; lra.
    + intros Hall.
      assert (Hx : (inject_Z x == avg)%Q) by (apply Hall; left).
      assert (Hrest : (squaredDistances avg l == 0)%Q).
      { apply IH. intros y Hy. apply Hall. right. exact Hy. }
      unfold d. rewrite Hrest, Hx. ring.
Qed.

Lemma sumLoads_constant (c : Z) (serverLoads : list Z) :
  (forall x, x ∈ serverLoads -> x = c) ->
  sumLoads serverLoads = c * Z.of_nat (length serverLoads).
Proof.
  induction serverLoads as [|x l IH]; intros Hall; [simpl; unfold sumLoads; simpl; lia|].
  rewrite sumLoads_cons, IH by (intros y Hy; apply Hall; right; exact Hy).
  rewrite (Hall x) by left. simpl length. lia.
Qed.

Lemma calculateLoadVariance_value (serverLoads : list Z) :
  serverLoads <> [] ->
  exists v,
    calculateLoadVariance serverLoads
    = Fin (v / inject_Z (Z.of_nat (length serverLoads))) /\
    (v == squaredDistances
            (inject_Z (accumulate serverLoads)
             / inject_Z (Z.of_nat (length serverLoads)))
            serverLoads)%Q.
Proof.
  intros Hne.
  set (avg := (inject_Z (accumulate serverLoads)
               / inject_Z (Z.of_nat (length serverLoads)))%Q).
  destruct (variance_fold_value avg serverLoads 0) as (v & Hv & Hvq).
  exists v. split; [|rewrite Hvq; ring].
  pose proof (calculateAverageLoad_value serverLoads Hne) as Havg. fold avg in Havg.
  unfold calculateLoadVariance. destruct serverLoads as [|x l]; [done|].
  cbv zeta. rewrite Havg, Hv. unfold fdivd, fdiv.
  rewrite (length_nonzero (x :: l) Hne). reflexivity.
Qed.

(** X20.  Average and variance of the monitor, doubles read as exact
    rationals.  Both functions return 0 for an empty vector and never
    divide by zero.  The variance is the mean squared distance of the loads
    from the average that was computed; it is never negative, and it is 0
    only when all servers carry the same load.  [std::accumulate] adds the
    loads in an [int]: when no load is negative and their sum is at most
    [INT_MAX], the average is that sum over the number of loads, and equal
    loads give the variance 0. *)
Theorem monitor_average_and_variance (serverLoads : list Z) :
  exists avg variance,
    calculateAverageLoad serverLoads = Fin avg /\
    calculateLoadVariance serverLoads = Fin variance /\
    (serverLoads = [] -> avg = 0%Q /\ variance = 0%Q) /\
    (variance * inject_Z (Z.of_nat (length serverLoads))
     == squaredDistances avg serverLoads)%Q /\
    (0 <= variance)%Q /\
    ((variance == 0)%Q ->
     forall a b, a ∈ serverLoads -> b ∈ serverLoads -> a = b) /\
    (Forall (fun load => 0 <= load) serverLoads ->
     sumLoads serverLoads <= INT_MAX ->
     (avg * inject_Z (Z.of_nat (length serverLoads))
      == inject_Z (sumLoads serverLoads))%Q /\
     ((forall a b, a ∈ serverLoads -> b ∈ serverLoads -> a = b) ->
      (variance == 0)%Q)).
Proof.
  destruct serverLoads as [|x0 l0] eqn:Hl.
  { exists 0%Q, 0%Q. simpl. repeat split; try reflexivity; try apply Qle_refl.
    intros _ a b Ha. apply elem_of_nil in Ha. done. }
  rewrite <- Hl. assert (Hne : serverLoads <> []) by (rewrite Hl; done).
  clear Hl x0 l0.
  destruct (calculateLoadVariance_value serverLoads Hne) as (v & Hvar & Hv0).
  pose proof (calculateAverageLoad_value serverLoads Hne) as Havg.
  set (n := inject_Z (Z.of_nat (length serverLoads))) in *.
  assert (Hn : (0 < n)%Q).
  { unfold n. rewrite <- (Zlt_Qlt 0). destruct serverLoads; [done|simpl; lia]. }
  set (avg := (inject_Z (accumulate serverLoads) / n)%Q) in *.
  exists avg, (v / n)%Q.
  pose proof (squaredDistances_nonneg avg serverLoads) as Hsq.
  split; [exact Havg|]. split; [exact Hvar|]. split; [done|].
  split; [rewrite <- Hv0; field; lra|].
  split.
  { apply Qle_shift_div_l; [exact Hn|]. rewrite Qmult_0_l, Hv0. exact Hsq. }
  split.
  - intros Hzero a b Ha Hb.
    assert (Hsq0 : (squaredDistances avg serverLoads == 0)%Q).
    { rewrite <- Hv0.
      assert (Hmul : (v == v / n * n)%Q) by (field; lra).
      rewrite Hmul, Hzero. ring. }
    rewrite squaredDistances_zero in Hsq0.
    pose proof (Hsq0 a Ha) as Ha'. pose proof (Hsq0 b Hb) as Hb'.
    rewrite <- Hb' in Ha'. apply (inject_Z_injective a b) in Ha'. exact Ha'.
  - intros Hnn Hmax.
    pose proof (accumulate_sum serverLoads Hnn Hmax) as Hacc.
    split; [unfold avg; rewrite Hacc; field; lra|].
    intros Hall.
    assert (Hsq0 : (squaredDistances avg serverLoads == 0)%Q).
    { apply squaredDistances_zero.
      destruct serverLoads as [|c l]; [done|].
      intros x Hx. rewrite (Hall x c Hx ltac:(left)).
      unfold avg. rewrite Hacc, (sumLoads_constant c (c :: l))
        by (intros y Hy; apply (Hall y c Hy); left).
      unfold n. rewrite inject_Z_mult. field. fold n. lra. }
    rewrite Hv0, Hsq0. unfold Qdiv. ring.
Qed.

Lemma monitor_average_and_variance_witness :
  exists avg variance,
    calculateAverageLoad [30; 60; 90] = Fin avg /\ (avg == 60)%Q /\
    calculateLoadVariance [30; 60; 90] = Fin variance /\ (variance == 600)%Q.
Proof.
  destruct (monitor_average_and_variance [30; 60; 90])
    as (avg & variance & Havg & Hvar & _ & _ & _ & _ & Hsum).
  destruct Hsum as [Hsum _].
  - repeat constructor; lia.
  - vm_compute. discriminate.
  - exists avg, variance. split; [exact Havg|]. split.
    + assert (Hs : (avg * 3 == 180)%Q) by exact Hsum. lra.
    + split; [exact Hvar|]. vm_compute in Hvar. injection Hvar as <-.
      reflexivity.
Defined.

End MonitorProperties.

Section ReportProperties.
Import Monitor.

Lemma groupByAlgorithm_lookup (metrics : list MetricsSnapshot) (a : string) :
  groupByAlgorithm metrics !! a
  = (let group := filter (fun snapshot => algorithm snapshot = a) metrics in
     if decide (group = []) then None else Some group).
Proof.
  unfold groupByAlgorithm. cbv zeta.
  induction metrics as [|s l IH] using rev_ind; [reflexivity|].
  rewrite fold_left_app, filter_app, filter_cons, filter_nil. cbn [fold_left].
  destruct (decide (algorithm s = a)) as [Hs|Hs].
  - rewrite Hs, lookup_insert_eq, IH.
    destruct (decide (filter _ l = [])) as [->|Hne]; simpl.
    + reflexivity.
    + destruct (decide (_ ++ [s] = [])) as [Habs|_]; [|reflexivity].
      apply app_eq_nil in Habs as [_ Habs]. discriminate.
  - rewrite lookup_insert_ne, IH by exact Hs.
    rewrite app_nil_r. reflexivity.
Qed.

Lemma calculateAverageLoad_finite (serverLoads : list Z) :
  finite (calculateAverageLoad serverLoads).
Proof.
  destruct serverLoads as [|x l]; [exists 0%Q; reflexivity|].
  rewrite calculateAverageLoad_value by done. eexists. reflexivity.
Qed.




Lemma recordedUnder_recordMetrics (m : LoadMonitor) (serverLoads : list Z)
    (responseTime elapsed : Q) (a : string) :
  recordedUnder a (recordMetrics m serverLoads responseTime elapsed)
  = recordedUnder a m
    ++ (if decide (currentAlgorithm m = a)
        then [mkMetricsSnapshot elapsed (calculateAverageLoad serverLoads)
                (calculateLoadVariance serverLoads) responseTime
                (to_int (Z.of_nat (length serverLoads))) (currentAlgorithm m)]
        else []).
Proof.
  unfold recordedUnder, recordMetrics. cbv zeta. simpl metrics.
  rewrite filter_app, filter_cons, filter_nil. simpl algorithm.
  destruct (decide (currentAlgorithm m = a)); reflexivity.
Qed.

Lemma generateReport_lookup (m : LoadMonitor) (a : string) :
  generateReport m !! a
  = if decide (recordedUnder a m = []) then None
    else Some (summarize (recordedUnder a m)).
Proof.
  unfold generateReport. rewrite lookup_fmap, groupByAlgorithm_lookup.
  cbv zeta. fold (recordedUnder a m).
  destruct (decide (recordedUnder a m = [])); reflexivity.
Qed.



(** X22.  Recording a snapshot adds one sample to the entry of the current
    algorithm and touches no other entry: the snapshot is labelled with the
    algorithm that is current at that moment, earlier snapshots are kept as
    they are, and [setAlgorithm] relabels nothing. *)
Theorem recordMetrics_adds_one_sample (m : LoadMonitor) (serverLoads : list Z)
    (responseTime elapsed : Q) :
  let m' := recordMetrics m serverLoads responseTime elapsed in
  (exists summary,
     generateReport m' !! currentAlgorithm m = Some summary /\
     samples summary
     = Z.of_nat (length (recordedUnder (currentAlgorithm m) m)) + 1) /\
  (forall a, a <> currentAlgorithm m ->
     generateReport m' !! a = generateReport m !! a) /\
  (forall a, generateReport (setAlgorithm m a) = generateReport m) /\
  currentAlgorithm m' = currentAlgorithm m.
Proof.
  intros m'. split; [|split; [|split; reflexivity]].
  - unfold m'. rewrite generateReport_lookup, recordedUnder_recordMetrics.
    destruct (decide (currentAlgorithm m = currentAlgorithm m)); [|done].
    destruct (decide (_ ++ [_] = [])) as [Habs|_].
    { apply app_eq_nil in Habs as [_ Habs]. discriminate. }
    eexists. split; [reflexivity|]. simpl. rewrite length_app. simpl. lia.
  - intros a Hne. unfold m'.
    rewrite !generateReport_lookup, recordedUnder_recordMetrics.
    destruct (decide (currentAlgorithm m = a)); [congruence|].
    rewrite app_nil_r. reflexivity.
Qed.

End ReportProperties.

(** ** The single-file simulator *)

Section MonolithProperties.

Lemma sameIdentity_refl (l : list Monolith.Server) : sameIdentity l l.
Proof. unfold sameIdentity. induction l; constructor; auto. Qed.

Lemma sameIdentity_trans (a b c : list Monolith.Server) :
  sameIdentity a b -> sameIdentity b c -> sameIdentity a c.
Proof.
  unfold sameIdentity. intros Hab. revert c.
  induction Hab as [|x y a b [? ?] _ IH]; intros c Hbc; inversion Hbc as [|? z ? c' [? ?]];
    subst; constructor; [split; congruence|auto].
Qed.

Lemma sameIdentity_alter (f : Monolith.Server -> Monolith.Server) (i : nat)
    (l : list Monolith.Server) :
  (forall s, Monolith.id (f s) = Monolith.id s /\
             Monolith.capacity (f s) = Monolith.capacity s) ->
  sameIdentity l (alter f i l).
Proof.
  intros Hf. unfold sameIdentity. revert i.
  induction l as [|x l IH]; intros [|i]; simpl; try constructor.
  - destruct (Hf x). split; congruence.
  - apply sameIdentity_refl.
  - split; reflexivity.
  - apply IH.
Qed.

Lemma sameIdentity_map (f : Monolith.Server -> Monolith.Server)
    (l : list Monolith.Server) :
  (forall s, Monolith.id (f s) = Monolith.id s /\
             Monolith.capacity (f s) = Monolith.capacity s) ->
  sameIdentity l (map f l).
Proof.
  intros Hf. unfold sameIdentity. induction l as [|x l IH]; simpl; constructor;
    [|exact IH].
  destruct (Hf x). split; congruence.
Qed.

Lemma sameIdentity_length (a b : list Monolith.Server) :
  sameIdentity a b -> length b = length a.
Proof. intros H. symmetry. eapply Forall2_length, H. Qed.

Lemma sameIdentity_sequentialIds (a b : list Monolith.Server) :
  sameIdentity a b -> sequentialIds a -> sequentialIds b.
Proof.
  intros Hab Hseq i s Hi.
  destruct (Forall2_lookup_r _ _ _ _ _ Hab Hi) as (x & Hx & Hid & _).
  rewrite <- Hid. apply Hseq, Hx.
Qed.

Lemma addLoad_identity (load : Q) (s : Monolith.Server) :
  Monolith.id (Monolith.addLoad load s) = Monolith.id s /\
  Monolith.capacity (Monolith.addLoad load s) = Monolith.capacity s.
Proof. split; reflexivity. Qed.

Lemma distributeLoadLeastLoaded_identity (l : list Monolith.Server) (load : Q) :
  sameIdentity l (Monolith.distributeLoadLeastLoaded l load).
Proof.
  unfold Monolith.distributeLoadLeastLoaded. destruct l; [constructor|].
  apply sameIdentity_alter, addLoad_identity.
Qed.

Lemma distributeLoadOptimization_identity (l : list Monolith.Server) (load : Q) :
  sameIdentity l (Monolith.distributeLoadOptimization l load).
Proof.
  destruct l as [|s0 l0] eqn:Hl; [constructor|]. rewrite <- Hl.
  assert (Hne : l <> []) by (rewrite Hl; done). clear Hl s0 l0.
  set (P := Monolith.sumPositive
              (map (fun m => ((Monolith.sumQ Monolith.currentLoad l + load)
                              / Monolith.sumQ Monolith.capacity l
                              * Monolith.capacity m
                              - Monolith.currentLoad m)%Q) l)).
  destruct (Qltb 0 P) eqn:HP.
  - rewrite (monolith_optimization_positive l load Hne HP).
    apply sameIdentity_map. intros s. cbv beta.
    match goal with |- context [if ?b then _ else _] => destruct b end;
      split; reflexivity.
  - unfold Monolith.distributeLoadOptimization. destruct l as [|s0 l0]; [done|].
    cbv zeta. rewrite zip_with_map_l. fold P. rewrite HP.
    apply distributeLoadLeastLoaded_identity.
Qed.

(** The three cases of the [switch] of [distributeLoad]. *)
Lemma distributeLoad_cases (lb : Monolith.LoadBalancer) (load : Q) :
  Monolith.distributeLoad lb load = Monolith.distributeLoadRoundRobin lb load \/
  Monolith.distributeLoad lb load
  = Some (Monolith.withServers lb
            (Monolith.distributeLoadLeastLoaded (Monolith.servers lb) load)) \/
  Monolith.distributeLoad lb load
  = Some (Monolith.withServers lb
            (Monolith.distributeLoadOptimization (Monolith.servers lb) load)).
Proof.
  unfold Monolith.distributeLoad.
  destruct (Monolith.selectedAlgorithm lb) as [|[[p|p|]|[p|p|]|]|p]; auto.
Qed.

Lemma cursorInRange_same (lb lb' : Monolith.LoadBalancer) :
  Monolith.currentServerIndex lb' = Monolith.currentServerIndex lb ->
  length (Monolith.servers lb') = length (Monolith.servers lb) ->
  cursorInRange lb -> cursorInRange lb'.
Proof. unfold cursorInRange. intros -> ->. done. Qed.

Lemma distributeLoad_shape (lb lb' : Monolith.LoadBalancer) (load : Q) :
  Monolith.distributeLoad lb load = Some lb' ->
  sameIdentity (Monolith.servers lb) (Monolith.servers lb') /\
  Monolith.selectedAlgorithm lb' = Monolith.selectedAlgorithm lb.
Proof.
  destruct (distributeLoad_cases lb load) as [->|[->| ->]].
  - unfold Monolith.distributeLoadRoundRobin.
    destruct (Monolith.servers lb) as [|s0 l0] eqn:Hl.
    + intros [= <-]. rewrite Hl. split; [constructor|reflexivity].
    + destruct (_ !! _); [|done]. intros [= <-]. simpl.
      split; [|reflexivity]. apply sameIdentity_alter, addLoad_identity.
  - intros [= <-]. simpl. split; [|reflexivity].
    apply distributeLoadLeastLoaded_identity.
  - intros [= <-]. simpl. split; [|reflexivity].
    apply distributeLoadOptimization_identity.
Qed.

Lemma distributeLoad_safe (lb : Monolith.LoadBalancer) (load : Q) :
  cursorInRange lb ->
  exists lb', Monolith.distributeLoad lb load = Some lb' /\ cursorInRange lb'.
Proof.
  intros Hc. destruct (distributeLoad_cases lb load) as [->|[->| ->]].
  - unfold Monolith.distributeLoadRoundRobin.
    destruct (Monolith.servers lb) as [|s0 l0] eqn:Hl; [eauto|].
    assert (Hlt : (Monolith.currentServerIndex lb < length (s0 :: l0))%nat).
    { unfold cursorInRange in Hc. rewrite Hl in Hc. simpl in *. lia. }
    destruct (lookup_lt_is_Some_2 _ _ Hlt) as [s ->].
    eexists. split; [reflexivity|]. right.
    cbn [Monolith.currentServerIndex Monolith.servers]. rewrite length_alter.
    apply Nat.mod_upper_bound. discriminate.
  - eexists. split; [reflexivity|].
    apply (cursorInRange_same lb); [reflexivity| |exact Hc].
    apply sameIdentity_length, distributeLoadLeastLoaded_identity.
  - eexists. split; [reflexivity|].
    apply (cursorInRange_same lb); [reflexivity| |exact Hc].
    apply sameIdentity_length, distributeLoadOptimization_identity.
Qed.


Lemma zeroed_identity (l : list Monolith.Server) : sameIdentity l (zeroed l).
Proof. apply sameIdentity_map. intros s. split; reflexivity. Qed.

Lemma rebalance_shape (lb lb' : Monolith.LoadBalancer) :
  Monolith.rebalance lb = Some lb' ->
  sameIdentity (Monolith.servers lb) (Monolith.servers lb') /\
  Monolith.selectedAlgorithm lb' = Monolith.selectedAlgorithm lb.
Proof.
  unfold Monolith.rebalance. intros H. apply distributeLoad_shape in H as [Hid Halg].
  split; [|exact Halg].
  eapply sameIdentity_trans; [apply zeroed_identity|exact Hid].
Qed.

Lemma rebalance_safe (lb : Monolith.LoadBalancer) :
  cursorInRange lb ->
  exists lb', Monolith.rebalance lb = Some lb' /\ cursorInRange lb'.
Proof.
  intros Hc. unfold Monolith.rebalance. apply distributeLoad_safe.
  apply (cursorInRange_same lb); [reflexivity| |exact Hc].
  apply sameIdentity_length, zeroed_identity.
Qed.

Lemma addLoadToServer_shape (lb lb' : Monolith.LoadBalancer) (sid : Z) (load : Q) :
  Monolith.addLoadToServer lb sid load = Some lb' ->
  sameIdentity (Monolith.servers lb) (Monolith.servers lb') /\
  Monolith.selectedAlgorithm lb' = Monolith.selectedAlgorithm lb.
Proof.
  unfold Monolith.addLoadToServer.
  destruct (list_find _ _) as [[i s]|].
  - intros H. apply rebalance_shape in H as [Hid Halg]. split; [|exact Halg].
    eapply sameIdentity_trans; [|exact Hid].
    apply sameIdentity_alter, addLoad_identity.
  - intros [= <-]. split; [apply sameIdentity_refl|reflexivity].
Qed.

Lemma decreaseTotalLoad_identity (lb : Monolith.LoadBalancer) (pct : Q) :
  sameIdentity (Monolith.servers lb)
               (Monolith.servers (Monolith.decreaseTotalLoad lb pct)) /\
  Monolith.currentServerIndex (Monolith.decreaseTotalLoad lb pct)
  = Monolith.currentServerIndex lb.
Proof.
  unfold Monolith.decreaseTotalLoad.
  destruct (Monolith.servers lb) as [|s0 l0] eqn:Hl.
  - rewrite Hl. split; [constructor|reflexivity].
  - split; [|reflexivity]. cbn [Monolith.servers Monolith.withServers].
    apply sameIdentity_map. intros s. destruct (fmul _ _); split; reflexivity.
Qed.

(** X23.  Without a removal the Round Robin cursor stays inside the registry,
    and no operation indexes the vector past its end.  If the cursor is in
    range (as the constructor leaves it), then distributing load,
    rebalancing, switching the algorithm, adding load to a server and
    raising the total load all return with the cursor in range again, under
    every algorithm; lowering the total load and adding a server keep it in
    range as well. *)
Theorem monolith_cursor_stays_in_range (lb : Monolith.LoadBalancer) :
  cursorInRange lb ->
  (forall load, exists lb',
     Monolith.distributeLoad lb load = Some lb' /\ cursorInRange lb') /\
  (exists lb', Monolith.rebalance lb = Some lb' /\ cursorInRange lb') /\
  (exists lb', Monolith.switchAlgorithm lb = Some lb' /\ cursorInRange lb') /\
  (forall sid load, exists lb',
     Monolith.addLoadToServer lb sid load = Some lb' /\ cursorInRange lb') /\
  (forall pct, exists lb',
     Monolith.increaseTotalLoad lb pct = Some lb' /\ cursorInRange lb') /\
  (forall pct, cursorInRange (Monolith.decreaseTotalLoad lb pct)) /\
  (forall cap, cursorInRange (Monolith.addServer lb cap)) /\
  (forall capacities, cursorInRange (Monolith.newLoadBalancer capacities)).
Proof.
  intros Hc.
  split; [intros load; apply distributeLoad_safe, Hc|].
  split; [apply rebalance_safe, Hc|].
  split; [apply rebalance_safe; exact Hc|].
  split.
  { intros sid load. unfold Monolith.addLoadToServer.
    destruct (list_find _ _) as [[i s]|]; [|eauto].
    apply rebalance_safe. apply (cursorInRange_same lb); [reflexivity| |exact Hc].
    simpl. apply length_alter. }
  split.
  { intros pct. unfold Monolith.increaseTotalLoad.
    destruct (Monolith.servers lb) eqn:Hl; [eauto|].
    apply distributeLoad_safe, Hc. }
  split.
  { intros pct. destruct (decreaseTotalLoad_identity lb pct) as [Hid Hcur].
    apply (cursorInRange_same lb); [exact Hcur| |exact Hc].
    apply sameIdentity_length, Hid. }
  split.
  { intros cap. unfold cursorInRange in *. simpl. rewrite length_app. simpl. lia. }
  intros capacities. left. reflexivity.
Qed.

Lemma monolith_cursor_stays_in_range_witness :
  exists lb', Monolith.rebalance monolithTwo = Some lb' /\ cursorInRange lb'.
Proof.
  apply (monolith_cursor_stays_in_range monolithTwo). left. reflexivity.
Defined.

Lemma removelast_lookup {A : Type} (l : list A) (i : nat) (x : A) :
  removelast l !! i = Some x -> l !! i = Some x.
Proof.
  destruct l as [|a l] using rev_ind; [done|].
  rewrite removelast_last. apply lookup_app_l_Some.
Qed.

Lemma removeServer_shape (lb lb' : Monolith.LoadBalancer) :
  Monolith.removeServer lb = Some lb' ->
  sameIdentity (removelast (Monolith.servers lb)) (Monolith.servers lb').
Proof.
  unfold Monolith.removeServer.
  destruct (last (Monolith.servers lb)) as [back|] eqn:Hlast.
  - cbv zeta. cbn [Monolith.servers Monolith.withServers].
    destruct (removelast (Monolith.servers lb)) as [|r0 rest] eqn:Hrest.
    + intros [= <-]. constructor.
    + destruct (Qltb 0 _).
      * intros H. apply distributeLoad_shape in H as [Hid _]. exact Hid.
      * intros [= <-]. apply sameIdentity_refl.
  - intros [= <-]. apply last_None in Hlast. rewrite Hlast. constructor.
Qed.

Lemma sequentialIds_find (l : list Monolith.Server) (k : nat)
    (s : Monolith.Server) :
  sequentialIds l -> l !! k = Some s ->
  list_find (fun x => Monolith.id x = Z.of_nat k + 1) l = Some (k, s).
Proof.
  intros Hseq Hk. apply list_find_Some. split; [exact Hk|].
  split; [apply Hseq, Hk|].
  intros j y Hj Hlt Hid. rewrite (Hseq j y Hj) in Hid. lia.
Qed.

(** X24.  In the single-file simulator the id of a server is its position
    plus one.  The constructor numbers the servers 1, 2, ..., and every
    operation keeps ids and capacities of the servers that stay (only loads
    change), [addServer] appends the next number and [removeServer] drops
    the last one.  So the id [k + 1] always addresses the server at
    position [k], which is what the digit keys rely on. *)
Theorem monolith_ids_are_positions (lb : Monolith.LoadBalancer) :
  sequentialIds (Monolith.servers lb) ->
  Z.of_nat (length (Monolith.servers lb)) <= INT_MAX ->
  (forall k s, Monolith.servers lb !! k = Some s ->
     list_find (fun x => Monolith.id x = Z.of_nat k + 1) (Monolith.servers lb)
     = Some (k, s)) /\
  (forall cap, sequentialIds (Monolith.servers (Monolith.addServer lb cap))) /\
  (forall lb', Monolith.removeServer lb = Some lb' ->
     sequentialIds (Monolith.servers lb') /\
     length (Monolith.servers lb') = pred (length (Monolith.servers lb))) /\
  (forall load lb', Monolith.distributeLoad lb load = Some lb' ->
     sameIdentity (Monolith.servers lb) (Monolith.servers lb')) /\
  (forall lb', Monolith.rebalance lb = Some lb' ->
     sameIdentity (Monolith.servers lb) (Monolith.servers lb')) /\
  (forall lb', Monolith.switchAlgorithm lb = Some lb' ->
     sameIdentity (Monolith.servers lb) (Monolith.servers lb')) /\
  (forall sid load lb', Monolith.addLoadToServer lb sid load = Some lb' ->
     sameIdentity (Monolith.servers lb) (Monolith.servers lb')) /\
  (forall pct lb', Monolith.increaseTotalLoad lb pct = Some lb' ->
     sameIdentity (Monolith.servers lb) (Monolith.servers lb')) /\
  (forall pct,
     sameIdentity (Monolith.servers lb)
                  (Monolith.servers (Monolith.decreaseTotalLoad lb pct))) /\
  (forall capacities,
     sequentialIds (Monolith.servers (Monolith.newLoadBalancer capacities))).
Proof.
  intros Hseq Hlen.
  split; [intros k s; apply sequentialIds_find, Hseq|].
  split.
  { intros cap i s. simpl. intros Hi.
    apply lookup_app_Some in Hi as [Hi|[Hge Hi]]; [apply Hseq, Hi|].
    destruct (i - length (Monolith.servers lb))%nat eqn:Hd; simpl in Hi; [|done].
    injection Hi as <-. simpl.
    rewrite to_int_small by lia. lia. }
  split.
  { intros lb' Hrm. apply removeServer_shape in Hrm as Hid. split.
    - apply (sameIdentity_sequentialIds _ _ Hid).
      intros i s Hi. apply Hseq, (removelast_lookup _ _ _ Hi).
    - rewrite (sameIdentity_length _ _ Hid).
      destruct (Monolith.servers lb) as [|a l] using rev_ind; [reflexivity|].
      rewrite removelast_last, length_app. simpl. lia. }
  split; [intros load lb' H; apply (distributeLoad_shape _ _ _ H)|].
  split; [intros lb' H; apply (rebalance_shape _ _ H)|].
  split; [intros lb' H; apply (rebalance_shape _ _ H)|].
  split; [intros sid load lb' H; apply (addLoadToServer_shape _ _ _ _ H)|].
  split.
  { intros pct lb'. unfold Monolith.increaseTotalLoad.
    destruct (Monolith.servers lb) eqn:Hl.
    - intros [= <-]. rewrite Hl. constructor.
    - rewrite <- Hl. intros H. apply (distributeLoad_shape _ _ _ H). }
  split; [intros pct; apply decreaseTotalLoad_identity|].
  intros capacities i s. simpl. rewrite list_lookup_imap.
  destruct (capacities !! i); [|done]. simpl. intros [= <-]. reflexivity.
Qed.

Lemma monolith_ids_are_positions_witness :
  list_find (fun x => Monolith.id x = 2) (Monolith.servers monolithTwo)
  = Some (1%nat, Monolith.mkServer 2 100 0).
Proof.
  destruct (monolith_ids_are_positions monolithTwo) as (Hfind & _).
  - intros [|[|i]] s; simpl; intros [= <-]; reflexivity.
  - unfold INT_MAX. simpl. lia.
  - exact (Hfind 1%nat _ eq_refl).
Defined.


(** *** Where the load goes *)

Lemma sumQ_alter_addLoad (l : list Monolith.Server) (x : Q) :
  forall i s, l !! i = Some s ->
  (Monolith.sumQ Monolith.currentLoad (alter (Monolith.addLoad x) i l)
   == Monolith.sumQ Monolith.currentLoad l + x)%Q.
Proof.
  induction l as [|a l IH]; intros [|i] s Hi; simpl in Hi; try done.
  - change (alter (Monolith.addLoad x) 0%nat (a :: l))
      with (Monolith.addLoad x a :: l).
    rewrite !sumQ_cons. simpl. ring.
  - change (alter (Monolith.addLoad x) (S i) (a :: l))
      with (a :: alter (Monolith.addLoad x) i l).
    rewrite !sumQ_cons, (IH i s Hi). ring.
Qed.

Lemma allOnFirst_alter_zeroed (l : list Monolith.Server) (T T' : Q) :
  (T == T')%Q -> allOnFirst T' (alter (Monolith.addLoad T) 0%nat (zeroed l)).
Proof.
  intros HT j s. destruct l as [|x l]; [done|].
  change (alter (Monolith.addLoad T) 0%nat (zeroed (x :: l)))
    with (Monolith.mkServer (Monolith.id x) (Monolith.capacity x) (0 + T)
          :: zeroed l).
  destruct j as [|j]; simpl.
  - intros [= <-]. simpl. rewrite HT. ring.
  - unfold zeroed. rewrite list_lookup_fmap.
    destruct (l !! j); [|done]. simpl. intros [= <-]. reflexivity.
Qed.

(** X25.  Under Least Loaded a rebalance piles the whole load on the first
    server.  After the loads are reset every utilization ratio is 0, the
    search keeps the first server, and the total goes to it, whatever its
    capacity.  The same happens when load is added to any server (the
    function rebalances), and when the algorithm is switched from Round
    Robin to Least Loaded (the switch rebalances too). *)
Theorem monolith_least_loaded_piles_load_on_the_first_server
    (lb : Monolith.LoadBalancer) :
  (Monolith.selectedAlgorithm lb = 1 ->
   exists lb',
     Monolith.rebalance lb = Some lb' /\
     allOnFirst (Monolith.getTotalLoad (Monolith.servers lb))
                (Monolith.servers lb')) /\
  (Monolith.selectedAlgorithm lb = 1 ->
   forall sid load,
     is_Some (list_find (fun s => Monolith.id s = sid) (Monolith.servers lb)) ->
     exists lb',
       Monolith.addLoadToServer lb sid load = Some lb' /\
       allOnFirst (Monolith.getTotalLoad (Monolith.servers lb) + load)
                  (Monolith.servers lb')) /\
  (Monolith.selectedAlgorithm lb = 0 ->
   exists lb',
     Monolith.switchAlgorithm lb = Some lb' /\
     Monolith.selectedAlgorithm lb' = 1 /\
     allOnFirst (Monolith.getTotalLoad (Monolith.servers lb))
                (Monolith.servers lb')).
Proof.
  split; [|split].
  - intros Halg. eexists. split; [apply monolith_rebalance_unfold, Halg|].
    apply allOnFirst_alter_zeroed. reflexivity.
  - intros Halg sid load [[i s] Hfind]. unfold Monolith.addLoadToServer.
    rewrite Hfind. eexists.
    split; [apply monolith_rebalance_unfold; exact Halg|].
    apply allOnFirst_alter_zeroed. cbn [Monolith.servers Monolith.withServers].
    apply list_find_Some in Hfind as (Hi & _).
    apply (sumQ_alter_addLoad _ _ _ _ Hi).
  - intros Halg. unfold Monolith.switchAlgorithm. rewrite Halg. eexists.
    split; [apply monolith_rebalance_unfold; reflexivity|].
    split; [reflexivity|]. apply allOnFirst_alter_zeroed. reflexivity.
Qed.

Lemma monolith_least_loaded_piles_load_on_the_first_server_witness :
  exists lb',
    Monolith.switchAlgorithm monolithTwo = Some lb' /\
    allOnFirst 10 (Monolith.servers lb').
Proof.
  destruct (proj2 (proj2 (monolith_least_loaded_piles_load_on_the_first_server
                            monolithTwo)) eq_refl) as (lb' & Hsw & _ & Hall).
  exists lb'. split; [exact Hsw|]. intros j s Hj.
  rewrite (Hall j s Hj). destruct (decide (j = 0%nat)); reflexivity.
Defined.

(** *** Raising and lowering the total load *)

Lemma max0_nonneg (x : Q) : (0 <= Monolith.max0 x)%Q.
Proof.
  unfold Monolith.max0. destruct (Qltb 0 x) eqn:H.
  - apply Qltb_lt in H. lra.
  - apply Qle_refl.
Qed.

Lemma max0_id (x : Q) : (0 <= x)%Q -> (Monolith.max0 x == x)%Q.
Proof.
  intros Hx. unfold Monolith.max0. destruct (Qltb 0 x) eqn:H; [reflexivity|].
  apply Qltb_ge in H. lra.
Qed.

Lemma sumQ_scaled (k : Q) (l l' : list Monolith.Server) :
  Forall2 (fun s s' => (Monolith.currentLoad s' == Monolith.currentLoad s * k)%Q)
          l l' ->
  (Monolith.sumQ Monolith.currentLoad l'
   == Monolith.sumQ Monolith.currentLoad l * k)%Q.
Proof.
  induction 1 as [|s s' l l' Hs _ IH]; [unfold Monolith.sumQ; simpl; ring|].
  rewrite !sumQ_cons, IH, Hs. ring.
Qed.

Lemma decrease_scaled (total percentage : Q) (l : list Monolith.Server) :
  (0 < total)%Q ->
  Forall (fun s => (0 <= Monolith.currentLoad s)%Q) l ->
  (0 <= percentage)%Q -> (percentage <= 100)%Q ->
  Forall2 (fun s s' =>
             (Monolith.currentLoad s'
              == Monolith.currentLoad s * (1 - percentage / 100))%Q)
          l
          (map (fun s =>
                  match fmul (Fin (total * (percentage / 100)))
                             (fdiv (Monolith.currentLoad s) total) with
                  | Fin serverReduction =>
                      Monolith.mkServer (Monolith.id s) (Monolith.capacity s)
                        (Monolith.max0 (Monolith.currentLoad s - serverReduction))
                  | NonFinite =>
                      Monolith.mkServer (Monolith.id s) (Monolith.capacity s) 0
                  end)
               l).
Proof.
  intros Hpos Hnn Hlo Hhi.
  induction Hnn as [|x l Hx _ IH]; simpl; constructor; [|exact IH].
  unfold fdiv. rewrite (Qeq_bool_pos _ Hpos). simpl.
  assert (Heq : (Monolith.currentLoad x
                 - total * (percentage / 100) * (Monolith.currentLoad x / total)
                 == Monolith.currentLoad x * (1 - percentage / 100))%Q)
    by (field; lra).
  rewrite max0_id; [exact Heq|]. rewrite Heq.
  apply Qmult_le_0_compat; [exact Hx|].
  assert (percentage / 100 <= 1)%Q by (apply Qle_shift_div_r; lra). lra.
Qed.

(** X26.  Lowering the total load.  [decreaseTotalLoad] never leaves a
    negative load.  On an idle system (total load 0), where its quotient
    divides by zero, every load ends at 0.  On non-negative loads with a
    positive total and a percentage between 0 and 100 it scales every load
    by [1 - percentage / 100], so that the total falls by exactly the
    percentage (in exact arithmetic) and the proportions between the
    servers are kept. *)
Theorem monolith_decreaseTotalLoad_scales_every_load
    (lb : Monolith.LoadBalancer) (percentage : Q) :
  let lb' := Monolith.decreaseTotalLoad lb percentage in
  Forall (fun s => (0 <= Monolith.currentLoad s)%Q) (Monolith.servers lb') /\
  ((Monolith.getTotalLoad (Monolith.servers lb) == 0)%Q ->
   Forall (fun s => Monolith.currentLoad s = 0%Q) (Monolith.servers lb')) /\
  (Forall (fun s => (0 <= Monolith.currentLoad s)%Q) (Monolith.servers lb) ->
   (0 < Monolith.getTotalLoad (Monolith.servers lb))%Q ->
   (0 <= percentage)%Q -> (percentage <= 100)%Q ->
   Forall2 (fun s s' =>
              (Monolith.currentLoad s'
               == Monolith.currentLoad s * (1 - percentage / 100))%Q)
           (Monolith.servers lb) (Monolith.servers lb') /\
   (Monolith.getTotalLoad (Monolith.servers lb')
    == Monolith.getTotalLoad (Monolith.servers lb) * (1 - percentage / 100))%Q).
Proof.
  intros lb'. unfold lb', Monolith.decreaseTotalLoad.
  destruct (Monolith.servers lb) as [|s0 l0] eqn:Hl.
  { rewrite Hl. split; [constructor|]. split; [constructor|].
    intros _ Hpos. unfold Monolith.getTotalLoad, Monolith.sumQ in Hpos.
    simpl in Hpos. lra. }
  rewrite <- Hl. cbn [Monolith.servers Monolith.withServers].
  set (total := Monolith.getTotalLoad (Monolith.servers lb)).
  split; [|split].
  - apply Forall_forall. intros s Hs. apply list_elem_of_fmap in Hs as (x & -> & _).
    destruct (fmul _ _); simpl; [apply max0_nonneg|apply Qle_refl].
  - intros Hzero. apply Forall_forall. intros s Hs.
    apply list_elem_of_fmap in Hs as (x & -> & _).
    unfold fdiv. apply Qeq_bool_iff in Hzero. rewrite Hzero. reflexivity.
  - intros Hnn Hpos Hlo Hhi.
    pose proof (decrease_scaled total percentage (Monolith.servers lb) Hpos Hnn
                  Hlo Hhi) as Hall.
    split; [exact Hall|]. apply sumQ_scaled, Hall.
Qed.

Lemma monolith_decreaseTotalLoad_scales_every_load_witness :
  (Monolith.getTotalLoad
     (Monolith.servers (Monolith.decreaseTotalLoad monolithTwo 10)) == 9)%Q.
Proof.
  destruct (monolith_decreaseTotalLoad_scales_every_load monolithTwo 10)
    as (_ & _ & Hscale).
  destruct Hscale as [_ Htotal].
  - repeat constructor; simpl; lra.
  - vm_compute. reflexivity.
  - lra.
  - lra.
  - rewrite Htotal. vm_compute. reflexivity.
Defined.


Lemma sumPositive_posSum (diff : Monolith.Server -> Q) (l : list Monolith.Server) :
  forall acc,
  (fold_left (fun t d => if Qltb 0 d then t + d else t) (map diff l) acc
   == acc + foldr (fun m rest => (if Qltb 0 (diff m) then diff m else 0) + rest)
                  0 l)%Q.
Proof.
  induction l as [|m l IH]; intros acc; simpl; [ring|].
  rewrite IH. destruct (Qltb 0 (diff m)); ring.
Qed.

Lemma sumQ_map_addLoad (cond : Monolith.Server -> bool)
    (a : Monolith.Server -> Q) (l : list Monolith.Server) :
  (Monolith.sumQ Monolith.currentLoad
     (map (fun m => if cond m then Monolith.addLoad (a m) m else m) l)
   == Monolith.sumQ Monolith.currentLoad l
      + foldr (fun m rest => (if cond m then a m else 0) + rest) 0 l)%Q.
Proof.
  induction l as [|m l IH]; [unfold Monolith.sumQ; simpl; ring|].
  simpl map. simpl foldr. rewrite !sumQ_cons, IH.
  destruct (cond m); simpl; ring.
Qed.

Lemma posSum_scaled (cond : Monolith.Server -> bool) (d : Monolith.Server -> Q)
    (load P : Q) (l : list Monolith.Server) :
  (foldr (fun m rest => (if cond m then load * (d m / P) else 0) + rest) 0 l
   == load * (foldr (fun m rest => (if cond m then d m else 0) + rest) 0 l * / P))%Q.
Proof.
  induction l as [|m l IH]; simpl; [ring|].
  rewrite IH. unfold Qdiv. destruct (cond m); ring.
Qed.

Lemma distributeLoadLeastLoaded_total_load (l : list Monolith.Server) (load : Q) :
  l <> [] ->
  (Monolith.sumQ Monolith.currentLoad (Monolith.distributeLoadLeastLoaded l load)
   == Monolith.sumQ Monolith.currentLoad l + load)%Q.
Proof.
  intros Hne. destruct (leastLoadedSearch_spec l Hne) as (s & Hk & _).
  unfold Monolith.distributeLoadLeastLoaded. destruct l as [|s0 l0]; [done|].
  apply (sumQ_alter_addLoad _ _ _ _ Hk).
Qed.

Lemma distributeLoadOptimization_total_load (l : list Monolith.Server) (load : Q) :
  l <> [] ->
  (Monolith.sumQ Monolith.currentLoad (Monolith.distributeLoadOptimization l load)
   == Monolith.sumQ Monolith.currentLoad l + load)%Q.
Proof.
  intros Hne.
  set (diff := fun m : Monolith.Server =>
                 ((Monolith.sumQ Monolith.currentLoad l + load)
                  / Monolith.sumQ Monolith.capacity l * Monolith.capacity m
                  - Monolith.currentLoad m)%Q).
  set (P := Monolith.sumPositive (map diff l)).
  destruct (Qltb 0 P) eqn:HP.
  - rewrite (monolith_optimization_positive l load Hne HP). fold diff. fold P.
    apply Qltb_lt in HP.
    pose proof (sumPositive_posSum diff l 0) as Hsum.
    fold (Monolith.sumPositive (map diff l)) in Hsum. fold P in Hsum.
    rewrite Qplus_0_l in Hsum.
    etransitivity;
      [apply (sumQ_map_addLoad (fun m => Qltb 0 (diff m))
                (fun m => (load * (diff m / P))%Q) l)|].
    apply Qplus_comp; [reflexivity|].
    etransitivity;
      [apply (posSum_scaled (fun m => Qltb 0 (diff m)) diff load P l)|].
    etransitivity;
      [apply Qmult_comp; [reflexivity|];
       apply Qmult_comp; [symmetry; exact Hsum|reflexivity]|].
    field. lra.
  - unfold Monolith.distributeLoadOptimization. destruct l as [|s0 l0]; [done|].
    cbv zeta. rewrite zip_with_map_l. fold diff. fold P. rewrite HP.
    apply distributeLoadLeastLoaded_total_load. done.
Qed.

Lemma distributeLoad_total_load (lb lb' : Monolith.LoadBalancer) (load : Q) :
  Monolith.servers lb <> [] ->
  Monolith.distributeLoad lb load = Some lb' ->
  (Monolith.getTotalLoad (Monolith.servers lb')
   == Monolith.getTotalLoad (Monolith.servers lb) + load)%Q.
Proof.
  intros Hne. unfold Monolith.getTotalLoad.
  destruct (distributeLoad_cases lb load) as [->|[->| ->]].
  - unfold Monolith.distributeLoadRoundRobin.
    destruct (Monolith.servers lb) as [|s0 l0] eqn:Hl; [done|].
    destruct (_ !! _) as [s|] eqn:Hi; [|done]. intros [= <-].
    cbn [Monolith.servers]. apply (sumQ_alter_addLoad _ _ _ _ Hi).
  - intros [= <-]. cbn [Monolith.servers Monolith.withServers].
    apply distributeLoadLeastLoaded_total_load, Hne.
  - intros [= <-]. cbn [Monolith.servers Monolith.withServers].
    apply distributeLoadOptimization_total_load, Hne.
Qed.

(** The policies that keep no cursor never index the vector. *)
Lemma distributeLoad_without_cursor (lb : Monolith.LoadBalancer) (load : Q) :
  Monolith.selectedAlgorithm lb = 1 \/ Monolith.selectedAlgorithm lb = 2 ->
  is_Some (Monolith.distributeLoad lb load).
Proof.
  unfold Monolith.distributeLoad. intros [-> | ->]; eexists; reflexivity.
Qed.

(** X27.  Distribution in the single-file simulator conserves load (in
    exact arithmetic).  Take a registry of servers with positive capacities
    (the constructor and [addServer] draw them from [50, 200]) whose Round
    Robin cursor points into the vector.  On a non-empty registry each of
    the three policies returns and raises the total load by exactly the
    amount distributed, with no cap by capacity and nothing left
    undistributed; so [increaseTotalLoad] raises the total by exactly the
    percentage.  Removing the last of at least two servers keeps the total
    when no load is negative and the call that hands its load on does not
    index the vector past its new end: the policy is Least Loaded or
    Optimization, or the cursor points at a server that stays. *)
Theorem monolith_distribution_conserves_load (lb : Monolith.LoadBalancer) :
  Forall (fun s => (0 < Monolith.capacity s)%Q) (Monolith.servers lb) ->
  cursorInRange lb ->
  (forall load,
     Monolith.servers lb <> [] ->
     exists lb',
       Monolith.distributeLoad lb load = Some lb' /\
       (Monolith.getTotalLoad (Monolith.servers lb')
        == Monolith.getTotalLoad (Monolith.servers lb) + load)%Q) /\
  (forall percentage,
     exists lb',
       Monolith.increaseTotalLoad lb percentage = Some lb' /\
       (Monolith.getTotalLoad (Monolith.servers lb')
        == Monolith.getTotalLoad (Monolith.servers lb)
           * (1 + percentage / 100))%Q) /\
  ((2 <= length (Monolith.servers lb))%nat ->
   Monolith.selectedAlgorithm lb = 1 \/ Monolith.selectedAlgorithm lb = 2 \/
   (Monolith.currentServerIndex lb < length (Monolith.servers lb) - 1)%nat ->
   Forall (fun s => (0 <= Monolith.currentLoad s)%Q) (Monolith.servers lb) ->
   exists lb',
     Monolith.removeServer lb = Some lb' /\
     (Monolith.getTotalLoad (Monolith.servers lb')
      == Monolith.getTotalLoad (Monolith.servers lb))%Q).
Proof.
  intros _ Hc.
  assert (Hdist : forall load,
            Monolith.servers lb <> [] ->
            exists lb',
              Monolith.distributeLoad lb load = Some lb' /\
              (Monolith.getTotalLoad (Monolith.servers lb')
               == Monolith.getTotalLoad (Monolith.servers lb) + load)%Q).
  { intros load Hne.
    destruct (distributeLoad_safe lb load Hc) as (lb' & Hd & _).
    exists lb'. split; [exact Hd|].
    apply (distributeLoad_total_load lb lb' load Hne Hd). }
  split; [exact Hdist|]. split.
  - intros percentage. unfold Monolith.increaseTotalLoad.
    destruct (Monolith.servers lb) as [|s0 l0] eqn:Hl.
    + exists lb. split; [reflexivity|]. rewrite Hl.
      unfold Monolith.getTotalLoad, Monolith.sumQ. simpl. ring.
    + destruct (Hdist (Monolith.getTotalLoad (s0 :: l0) * (percentage / 100))%Q)
        as (lb' & Hd & Htotal); [done|].
      exists lb'. split; [exact Hd|]. rewrite Htotal. ring.
  - intros Hlen Hpolicy Hnn. unfold Monolith.removeServer.
    destruct (Monolith.servers lb) as [|a l _] eqn:Hl using rev_ind.
    { simpl in Hlen. lia. }
    rewrite last_snoc. cbv zeta.
    cbn [Monolith.servers Monolith.withServers]. rewrite removelast_last.
    rewrite length_app in Hlen, Hpolicy. simpl in Hlen, Hpolicy.
    rewrite Forall_app, Forall_singleton in Hnn. destruct Hnn as [_ Ha].
    assert (Hsplit : (Monolith.getTotalLoad (l ++ [a])
                      == Monolith.getTotalLoad l + Monolith.currentLoad a)%Q).
    { unfold Monolith.getTotalLoad, Monolith.sumQ. rewrite fold_left_app. simpl.
      reflexivity. }
    destruct l as [|x l]; [simpl in Hlen; lia|].
    destruct (Qltb 0 (Monolith.currentLoad a)) eqn:Hpos.
    + assert (Hsome : is_Some (Monolith.distributeLoad
                                 (Monolith.withServers lb (x :: l))
                                 (Monolith.currentLoad a))).
      { destruct Hpolicy as [Halg|[Halg|Hcur]].
        - apply distributeLoad_without_cursor. left. exact Halg.
        - apply distributeLoad_without_cursor. right. exact Halg.
        - destruct (distributeLoad_safe (Monolith.withServers lb (x :: l))
                      (Monolith.currentLoad a)) as (lb' & Hd & _).
          + right. cbn [Monolith.currentServerIndex Monolith.servers
                        Monolith.withServers]. cbn [length] in Hcur |- *. lia.
          + exists lb'. exact Hd. }
      destruct Hsome as [lb' Hd]. exists lb'. split; [exact Hd|].
      rewrite Hsplit.
      apply (distributeLoad_total_load (Monolith.withServers lb (x :: l)));
        [discriminate|exact Hd].
    + eexists. split; [reflexivity|]. apply Qltb_ge in Hpos.
      cbn [Monolith.servers Monolith.withServers].
      assert (Hz : (Monolith.currentLoad a == 0)%Q)
        by (apply Qle_antisym; assumption).
      rewrite Hsplit, Hz. ring.
Qed.

Lemma monolith_distribution_conserves_load_witness :
  let lb := Monolith.mkLoadBalancer
              [Monolith.mkServer 1 100 10; Monolith.mkServer 2 50 5] 0 0 in
  exists lb',
    Monolith.removeServer lb = Some lb' /\
    (Monolith.getTotalLoad (Monolith.servers lb') == 15)%Q.
Proof.
  intros lb.
  destruct (monolith_distribution_conserves_load lb) as (_ & _ & Hremove).
  - repeat constructor.
  - left. reflexivity.
  - destruct Hremove as (lb' & Hrm & Htotal).
    + simpl. lia.
    + right. right. simpl. lia.
    + repeat constructor; simpl; lra.
    + exists lb'. split; [exact Hrm|]. rewrite Htotal. vm_compute. reflexivity.
Defined.

End MonolithProperties.
